(** * email_extractor: crawl frontier, e-mail gates and contact post-processing

    A shallow embedding of the parts of the crawler that the specification makes
    claims about:

    - [Py]: Python strings as sequences of Unicode code points, with the string
      methods the sources call;
    - [Re]: the fragment of Python's [re] module the sources use, as a
      backtracking matcher with Python's priorities (greedy quantifiers, ordered
      alternation, leftmost match), and its declarative reading;
    - [Float64]: the arithmetic of Python's floats, for the scores;
    - [TextProcessor]: [utils/text_processing.py];
    - [EmailExtractor]: [extractors/email_extractor.py];
    - [ContactMatcher]: [extractors/contact_matcher.py];
    - [DataValidator]: [utils/validators.py];
    - [WebsiteCrawler] and [CrawlerResults]: [crawler/website_crawler.py];
    - [ResultExporter]: [utils/exporters.py].

    The first part of the file embeds the sources, together with a small
    site to run the crawl on ([SampleSite]); the second part states and proves
    the properties. *)

From Stdlib Require Import NArith ZArith QArith Qcanon Ascii String List Sorted Lia Bool.
From stdpp Require Import gmap strings list sets.

Set Default Proof Using "Type".
Open Scope N_scope.

(* ===================================================================== *)
(** * Python strings *)
(* ===================================================================== *)

Module Py.

(** A Python [str] is a sequence of code points. *)
Abbreviation str := (list N).

(** ASCII literals of the sources. *)
Definition lit (x : string) : str := map N_of_ascii (list_ascii_of_string x).

Definition c_nl : N := 10.
Definition c_space : N := 32.
Definition c_percent : N := 37.
Definition c_plus : N := 43.
Definition c_hyphen : N := 45.
Definition c_dot : N := 46.
Definition c_at : N := 64.
Definition c_underscore : N := 95.

Definition in_range (lo hi c : N) : bool := (lo <=? c) && (c <=? hi).
Definition is_ascii_upper (c : N) : bool := in_range 65 90 c.
Definition is_ascii_lower (c : N) : bool := in_range 97 122 c.
Definition is_ascii_letter (c : N) : bool := is_ascii_upper c || is_ascii_lower c.
Definition is_ascii_digit (c : N) : bool := in_range 48 57 c.
Definition ascii_lower (c : N) : N := if is_ascii_upper c then c + 32 else c.
Definition ascii_upper (c : N) : N := if is_ascii_lower c then c - 32 else c.

(** [one_of "._-" c]: membership in a literal set of characters. *)
Definition one_of (x : string) (c : N) : bool := existsb (N.eqb c) (lit x).

(** The Unicode character database, as far as the sources consult it.  The
    interpreter's tables are not part of the repository; every definition that
    depends on them takes them as a parameter. *)
Class Unicode := {
  uni_isspace : N -> bool;   (* str.isspace on one character, and \s *)
  uni_isdecimal : N -> bool; (* category Nd: \d *)
  uni_isalpha : N -> bool;   (* str.isalpha on one character *)
  uni_isalnum : N -> bool;   (* str.isalnum on one character; \w adds '_' *)
  uni_isupper : N -> bool;   (* cased and upper case *)
  uni_islower : N -> bool;   (* cased and lower case *)
  uni_lower : str -> str;    (* str.lower *)
  uni_upper : str -> str;    (* str.upper *)
}.

(** The Basic Latin block of those tables: what CPython answers on code points
    below 128.  Code points above are treated as caseless symbols, so this
    instance is only used to run the functions on ASCII inputs. *)
Definition ascii_isspace (c : N) : bool := in_range 9 13 c || in_range 28 32 c.

#[export] Instance basic_latin : Unicode := {|
  uni_isspace := ascii_isspace;
  uni_isdecimal := is_ascii_digit;
  uni_isalpha := is_ascii_letter;
  uni_isalnum := fun c => is_ascii_letter c || is_ascii_digit c;
  uni_isupper := is_ascii_upper;
  uni_islower := is_ascii_lower;
  uni_lower := map ascii_lower;
  uni_upper := map ascii_upper;
|}.

Definition str_eqb (a b : str) : bool := bool_decide (a = b).

(** What a call comes to: a returned value, or an exception left to the
    enclosing [try]. *)
Inductive outcome (A : Type) : Type :=
| Returned (a : A)
| Raised.
Arguments Returned {A} a.
Arguments Raised {A}.

(** [len(s)] *)
Definition len (s : str) : Z := Z.of_nat (length s).

(** [s.count(c)] for a one-character [c]. *)
Definition count (c : N) (s : str) : nat := length (List.filter (N.eqb c) s).

(** [s.split(c)] for a one-character separator: never empty. *)
Fixpoint split (c : N) (s : str) : list str :=
  match s with
  | [] => [[]]
  | x :: t =>
      if x =? c then [] :: split c t
      else match split c t with
           | h :: r => (x :: h) :: r
           | [] => [[x]]
           end
  end.

(** [pre.startswith], [s.endswith], [sub in s]. *)
Fixpoint startswith (pre s : str) : bool :=
  match pre, s with
  | [], _ => true
  | p :: pre', x :: s' => (p =? x) && startswith pre' s'
  | _ :: _, [] => false
  end.

Definition endswith (suf s : str) : bool := startswith (rev suf) (rev s).

Fixpoint contains (sub s : str) : bool :=
  startswith sub s || match s with [] => false | _ :: t => contains sub t end.

(** [s.find(sub)]: index of the first occurrence. *)
Fixpoint find_from (sub s : str) (i : nat) : option nat :=
  if startswith sub s then Some i
  else match s with [] => None | _ :: t => find_from sub t (S i) end.

(** [s.replace(old, new)] for a non-empty [old], scanning left to right. *)
Fixpoint replace_fuel (fuel : nat) (old new s : str) : str :=
  match fuel with
  | O => s
  | S f =>
      match s with
      | [] => []
      | x :: t =>
          if startswith old s then new ++ replace_fuel f old new (skipn (length old) s)
          else x :: replace_fuel f old new t
      end
  end.
Definition replace (old new s : str) : str := replace_fuel (S (length s)) old new s.

(** [sep.join(parts)] *)
Fixpoint join (sep : str) (parts : list str) : str :=
  match parts with
  | [] => []
  | [p] => p
  | p :: rest => p ++ sep ++ join sep rest
  end.

(** Slices [s[i:j]], [s[:n]], [s[n:]] for non-negative bounds. *)
Definition slice (i j : nat) (s : str) : str := firstn (j - i) (skipn i s).

Fixpoint drop_while (p : N -> bool) (s : str) : str :=
  match s with
  | [] => []
  | x :: t => if p x then drop_while p t else s
  end.

Definition strip_with (p : N -> bool) (s : str) : str :=
  rev (drop_while p (rev (drop_while p s))).

Section WithUnicode.
Context {U : Unicode}.

(** [s.strip()] and [s.strip(chars)]. *)
Definition strip (s : str) : str := strip_with uni_isspace s.
Definition strip_chars (chars : string) (s : str) : str := strip_with (one_of chars) s.

(** [s.split()]: the maximal runs of non-whitespace characters. *)
Fixpoint words_go (cur : str) (s : str) : list str :=
  match s with
  | [] => match cur with [] => [] | _ => [rev cur] end
  | x :: t =>
      if uni_isspace x
      then match cur with [] => words_go [] t | _ => rev cur :: words_go [] t end
      else words_go (x :: cur) t
  end.
Definition words (s : str) : list str := words_go [] s.

Definition lower (s : str) : str := uni_lower s.
Definition upper (s : str) : str := uni_upper s.

(** [s.capitalize()]: first character upper-cased, the rest lower-cased. *)
Definition capitalize (s : str) : str :=
  match s with
  | [] => []
  | x :: t => uni_upper [x] ++ uni_lower t
  end.

(** [s.title()]: a cased character is upper-cased after an uncased one and
    lower-cased after a cased one. *)
Fixpoint title_go (prev_cased : bool) (s : str) : str :=
  match s with
  | [] => []
  | x :: t =>
      let cased := uni_isupper x || uni_islower x in
      (if prev_cased then uni_lower [x] else uni_upper [x]) ++ title_go cased t
  end.
Definition title (s : str) : str := title_go false s.

(** [s.isalpha()], [s.isupper()], [s.islower()] on whole strings. *)
Definition isalpha (s : str) : bool :=
  match s with [] => false | _ => forallb uni_isalpha s end.
Definition isupper (s : str) : bool :=
  existsb uni_isupper s && negb (existsb uni_islower s).
Definition islower (s : str) : bool :=
  existsb uni_islower s && negb (existsb uni_isupper s).

End WithUnicode.

End Py.

(* ===================================================================== *)
(** * Regular expressions: the fragment of Python's [re] the sources use *)
(* ===================================================================== *)

Module Re.
Import Py.

(** Patterns.  A character class is its membership test; a quantifier
    [Rep r lo hi] is greedy, with [hi = None] for "no upper bound"; [Grp i r]
    is the i-th capturing group; [Bol], [Eol] and [WordB] are [^], [$] and
    [\b] (the latter with the [\w] test it consults). *)
Inductive regex : Type :=
| Eps
| Chr (p : N -> bool)
| Cat (r1 r2 : regex)
| Alt (r1 r2 : regex)
| Rep (r : regex) (lo : nat) (hi : option nat)
| Grp (i : nat) (r : regex)
| Bol
| Eol
| WordB (w : N -> bool).

(** A position in the subject: the characters before it (nearest first) and
    the characters after it. *)
Record cursor := Cursor { before : str; after : str }.

(** Captured spans, most recent first: group number, start and end offset. *)
Definition caps := list (nat * (nat * nat)).
Definition result := option (cursor * caps).
Definition cont := cursor -> caps -> result.

Definition pos (c : cursor) : nat := length (before c).
Definition subject (c : cursor) : str := rev (before c) ++ after c.

Definition allows_more (hi : option nat) : bool :=
  match hi with Some O => false | _ => true end.
Definition dec_hi (hi : option nat) : option nat := option_map pred hi.

(** The loop of a greedy quantifier: one more iteration is tried first, and
    only when everything after it fails is the loop left (if [lo] iterations
    were made).  An iteration must consume input, as in CPython, so [fuel]
    above the number of remaining characters never runs out. *)
Fixpoint rep_loop (body : cursor -> caps -> cont -> result)
    (fuel lo : nat) (hi : option nat) (c : cursor) (cs : caps) (k : cont) : result :=
  match fuel with
  | O => None
  | S fuel' =>
      let again :=
        if allows_more hi then
          body c cs (fun c' cs' =>
            if (length (after c') <? length (after c))%nat
            then rep_loop body fuel' (pred lo) (dec_hi hi) c' cs' k
            else None)
        else None in
      match again with
      | Some res => Some res
      | None => if (lo =? 0)%nat then k c cs else None
      end
  end.

Definition is_word_at (w : N -> bool) (s : str) : bool :=
  match s with x :: _ => w x | [] => false end.

(** The backtracking matcher, in continuation-passing style: [run r c cs k]
    tries the ways [r] can match at [c] in Python's order of preference and
    returns the first one the continuation [k] accepts. *)
Fixpoint run (r : regex) (c : cursor) (cs : caps) (k : cont) {struct r} : result :=
  match r with
  | Eps => k c cs
  | Chr p =>
      match after c with
      | x :: t => if p x then k (Cursor (x :: before c) t) cs else None
      | [] => None
      end
  | Cat r1 r2 => run r1 c cs (fun c' cs' => run r2 c' cs' k)
  | Alt r1 r2 =>
      match run r1 c cs k with
      | Some res => Some res
      | None => run r2 c cs k
      end
  | Rep r' lo hi => rep_loop (run r') (S (length (after c))) lo hi c cs k
  | Grp i r' => run r' c cs (fun c' cs' => k c' ((i, (pos c, pos c')) :: cs'))
  | Bol => match before c with [] => k c cs | _ => None end
  | Eol =>
      match after c with
      | [] => k c cs
      | [x] => if x =? c_nl then k c cs else None
      | _ => None
      end
  | WordB w =>
      if xorb (is_word_at w (before c)) (is_word_at w (after c)) then k c cs else None
  end.

Definition accept : cont := fun c cs => Some (c, cs).

(** A match object: the subject, the span of the whole match, the groups. *)
Record rmatch := RMatch {
  m_string : str;
  m_start : nat;
  m_end : nat;
  m_caps : caps;
}.

Definition mk_match (c0 : cursor) (res : cursor * caps) : rmatch :=
  RMatch (subject c0) (pos c0) (pos (fst res)) (snd res).

(** [m.group()] and [m.group(i)] (the empty string stands for [None] of a
    group that took no part in the match). *)
Definition group0 (m : rmatch) : str := slice (m_start m) (m_end m) (m_string m).

Fixpoint lookup_cap (i : nat) (cs : caps) : option (nat * nat) :=
  match cs with
  | [] => None
  | (j, span) :: rest => if (i =? j)%nat then Some span else lookup_cap i rest
  end.

Definition group (i : nat) (m : rmatch) : str :=
  match lookup_cap i (m_caps m) with
  | Some (a, b) => slice a b (m_string m)
  | None => []
  end.

(** [re.match(r, s)]: a match at the start of [s]. *)
Definition re_match (r : regex) (s : str) : option rmatch :=
  let c0 := Cursor [] s in
  option_map (mk_match c0) (run r c0 [] accept).

(** The leftmost position at or after the cursor where [r] matches. *)
Fixpoint scan (r : regex) (b a : str) : option rmatch :=
  match run r (Cursor b a) [] accept with
  | Some res => Some (mk_match (Cursor b a) res)
  | None =>
      match a with
      | [] => None
      | x :: t => scan r (x :: b) t
      end
  end.

(** [re.search(r, s)] *)
Definition re_search (r : regex) (s : str) : option rmatch := scan r [] s.

(** [re.finditer(r, s)]: the non-overlapping matches from left to right; after
    an empty match the scan moves on by one character. *)
Fixpoint finditer_from (r : regex) (fuel : nat) (b a : str) : list rmatch :=
  match fuel with
  | O => []
  | S f =>
      match scan r b a with
      | None => []
      | Some m =>
          let e := m_end m in
          let s := m_string m in
          m :: (if (e =? m_start m)%nat
                then if (e <? length s)%nat
                     then finditer_from r f (rev (firstn (S e) s)) (skipn (S e) s)
                     else []
                else finditer_from r f (rev (firstn e s)) (skipn e s))
      end
  end.

Definition re_finditer (r : regex) (s : str) : list rmatch :=
  finditer_from r (S (length s)) [] s.

(** [re.findall(r, s)] for a pattern without groups, and for a pattern with
    exactly one group. *)
Definition re_findall (r : regex) (s : str) : list str := map group0 (re_finditer r s).
Definition re_findall1 (r : regex) (s : str) : list str := map (group 1) (re_finditer r s).

(** [re.sub(r, repl, s)] for a replacement without back-references. *)
Fixpoint sub_go (repl : str) (s : str) (from : nat) (ms : list rmatch) : str :=
  match ms with
  | [] => skipn from s
  | m :: rest => slice from (m_start m) s ++ repl ++ sub_go repl s (m_end m) rest
  end.
Definition re_sub (r : regex) (repl s : str) : str := sub_go repl s 0 (re_finditer r s).

(** [re.split(r, s)] for a pattern without groups. *)
Fixpoint split_go (s : str) (from : nat) (ms : list rmatch) : list str :=
  match ms with
  | [] => [skipn from s]
  | m :: rest => slice from (m_start m) s :: split_go s (m_end m) rest
  end.
Definition re_split (r : regex) (s : str) : list str := split_go s 0 (re_finditer r s).

(** ** Writing patterns *)

Definition chr (c : N) : regex := Chr (N.eqb c).
Fixpoint seq (rs : list regex) : regex :=
  match rs with
  | [] => Eps
  | [r] => r
  | r :: rest => Cat r (seq rest)
  end.
Fixpoint alt (rs : list regex) : regex :=
  match rs with
  | [] => Chr (fun _ => false)
  | [r] => r
  | r :: rest => Alt r (alt rest)
  end.
(** A literal word. *)
Definition word (x : string) : regex := seq (map chr (lit x)).
Definition star (r : regex) : regex := Rep r 0 None.
Definition plus (r : regex) : regex := Rep r 1 None.
Definition opt (r : regex) : regex := Rep r 0 (Some 1%nat).
Definition at_least (n : nat) (r : regex) : regex := Rep r n None.
Definition times (n : nat) (r : regex) : regex := Rep r n (Some n).
Definition between (lo hi : nat) (r : regex) : regex := Rep r lo (Some hi).

(** ** [re.IGNORECASE] on ASCII classes

    CPython lower-cases the subject character and looks it up in the class
    closed under lower-casing, to which the compiler adds the code points that
    case-fold to a member: dotless i (U+0131) for [i] and long s (U+017F) for
    [s].  Two code points outside ASCII lower-case into it: capital I with dot
    above (U+0130) and the Kelvin sign (U+212A). *)
Definition sre_lower_ascii (c : N) : N :=
  if c =? 304 then 105 else if c =? 8490 then 107 else ascii_lower c.

Definition ignorecase (p : N -> bool) (c : N) : bool :=
  let l := sre_lower_ascii c in
  p l || p (ascii_upper l)
  || ((l =? 305) && (p 105 || p 73))
  || ((l =? 383) && (p 115 || p 83)).

(** A literal word under [re.IGNORECASE]. *)
Definition iword (x : string) : regex := seq (map (fun c => Chr (ignorecase (N.eqb c))) (lit x)).

Section Classes.
Context {U : Unicode}.
(** [\s], [\d], [\w] on [str] patterns. *)
Definition cls_s : N -> bool := uni_isspace.
Definition cls_d : N -> bool := uni_isdecimal.
Definition cls_w : N -> bool := fun c => uni_isalnum c || (c =? c_underscore).
(** [\b] *)
Definition wordb : regex := WordB cls_w.
End Classes.

(** ** Declarative reading *)

Definition step_chr (p : N -> bool) (c c' : cursor) : Prop :=
  exists x t, after c = x :: t /\ p x = true /\ c' = Cursor (x :: before c) t.

Fixpoint iter (R : cursor -> cursor -> Prop) (n : nat) (c c' : cursor) : Prop :=
  match n with
  | O => c = c'
  | S n' => exists c1, R c c1 /\ iter R n' c1 c'
  end.

Definition le_opt (n : nat) (hi : option nat) : Prop :=
  match hi with Some h => (n <= h)%nat | None => True end.

(** [Matches r c c']: [r] can match the characters between [c] and [c']. *)
Fixpoint Matches (r : regex) (c c' : cursor) : Prop :=
  match r with
  | Eps => c = c'
  | Chr p => step_chr p c c'
  | Cat r1 r2 => exists c1, Matches r1 c c1 /\ Matches r2 c1 c'
  | Alt r1 r2 => Matches r1 c c' \/ Matches r2 c c'
  | Rep r' lo hi =>
      exists n, (lo <= n)%nat /\ le_opt n hi /\
        iter (fun x y => Matches r' x y /\ (length (after y) < length (after x))%nat) n c c'
  | Grp _ r' => Matches r' c c'
  | Bol => before c = [] /\ c = c'
  | Eol => (after c = [] \/ after c = [c_nl]) /\ c = c'
  | WordB w => xorb (is_word_at w (before c)) (is_word_at w (after c)) = true /\ c = c'
  end.

End Re.

(* ===================================================================== *)
(** * Floating-point numbers *)
(* ===================================================================== *)

(** Python's [float] is the binary64 format of IEEE 754, and its arithmetic
    rounds to nearest, ties to even.  A finite float is a rational number: the
    operations below compute on rationals and round the exact result.
    (Results beyond the largest float, which Python turns into [inf] or an
    [OverflowError], are not represented; the sources compute no such
    number.) *)
Module Float64.

(** [n/d] rounded to the nearest integer, ties to the even one, for a positive
    [d]. *)
Definition half_even (n d : Z) : Z :=
  let f := (n / d)%Z in
  match (2 * (n mod d) ?= d)%Z with
  | Lt => f
  | Gt => (f + 1)%Z
  | Eq => if Z.even f then f else (f + 1)%Z
  end.

(** The float nearest to the positive rational [n/d]: with [k] the exponent
    of its leading bit, the 53 leading bits are kept, rounded half to even;
    below the normal range the unit is [2^-1074]. *)
Definition round_pos (n d : positive) : Q :=
  let n := Z.pos n in
  let d := Z.pos d in
  let reaches (k : Z) : bool := (d * 2 ^ Z.max 0 k <=? n * 2 ^ Z.max 0 (- k))%Z in
  let k0 := (Z.log2 n - Z.log2 d)%Z in
  let k := if reaches k0 then k0 else (k0 - 1)%Z in
  let e := Z.max (k - 52) (-1074) in
  let m := half_even (n * 2 ^ Z.max 0 (- e)) (d * 2 ^ Z.max 0 e) in
  if (0 <=? e)%Z then inject_Z (m * 2 ^ e) else Qmake m (Z.to_pos (2 ^ (- e))).

Definition round64 (q : Q) : Q :=
  match Qnum q with
  | Z0 => 0%Q
  | Z.pos n => round_pos n (Qden q)
  | Z.neg n => Qopp (round_pos n (Qden q))
  end.

(** [float(x)] of a number, and [a + b] and [a * b] where one operand at
    least is a float (an integer operand is converted first). *)
Definition fl (q : Qc) : Qc := Q2Qc (round64 q).
Definition fadd (a b : Qc) : Qc := fl (fl a + fl b).
Definition fmul (a b : Qc) : Qc := fl (fl a * fl b).

End Float64.

(* ===================================================================== *)
(** * Values and records *)
(* ===================================================================== *)

Module Data.
Import Py.

(** The values the contact dictionaries hold: [None], strings and numbers
    (scores and confidences: a float or an integer, as the rational it is). *)
Inductive value : Type :=
| VNone
| VStr (s : str)
| VNum (q : Qc).

#[export] Instance value_eq_dec : EqDecision value.
Proof. solve_decision. Defined.

Definition value_code (v : value) : unit + (str + Qc) :=
  match v with
  | VNone => inl tt
  | VStr s => inr (inl s)
  | VNum q => inr (inr q)
  end.

Definition value_decode (x : unit + (str + Qc)) : value :=
  match x with
  | inl _ => VNone
  | inr (inl s) => VStr s
  | inr (inr q) => VNum q
  end.

#[export] Instance value_countable : Countable value.
Proof. apply (inj_countable' value_code value_decode). by intros []. Defined.

(** Python truthiness: [if v]. *)
Definition truthy (v : value) : bool :=
  match v with
  | VNone => false
  | VStr s => negb (bool_decide (s = []))
  | VNum q => negb (bool_decide (q = 0%Qc))
  end.

(** A dictionary with string keys. *)
Abbreviation dict := (gmap string value).

(** [d.get(k)] and [d.get(k, default)] *)
Definition get (k : string) (d : dict) : value := default VNone (d !! k).
Definition get_or (k : string) (dflt : value) (d : dict) : value := default dflt (d !! k).

(** A decimal literal: the float nearest to [n/d]. *)
Definition dec (n : Z) (d : positive) : Qc := Float64.fl (Q2Qc (n # d)).

End Data.

(* ===================================================================== *)
(** * Exceptions *)
(* ===================================================================== *)

(** [outcome] as an error monad: a raised exception skips the rest of the
    block, up to the enclosing [try]. *)
Module Outcome.
Import Py.

#[export] Instance outcome_ret : MRet outcome := fun A a => Returned a.
#[export] Instance outcome_bind : MBind outcome :=
  fun A B f m => match m with Returned a => f a | Raised => Raised end.

(** [try: return m] with [except Exception: return handler] *)
Definition catch {A : Type} (m : outcome A) (handler : A) : A :=
  match m with Returned a => a | Raised => handler end.

(** A method of [str] called on a value: [AttributeError] on anything else. *)
Definition as_str (v : Data.value) : outcome str :=
  match v with Data.VStr x => Returned x | _ => Raised end.

End Outcome.

(* ===================================================================== *)
(** * utils/text_processing.py *)
(* ===================================================================== *)

Module TextProcessor.
Import Py Re Data.

(** [text[:k]] for an index of either sign. *)
Definition slice_to (k : Z) (text : str) : str :=
  if (0 <=? k)%Z then firstn (Z.to_nat k) text
  else firstn (Z.to_nat (len text + k)) text.

(** [text.rfind(c)] for a one-character [c]: the last index, or -1. *)
Fixpoint rfind_from (c : N) (text : str) (i : Z) (last : Z) : Z :=
  match text with
  | [] => last
  | x :: t => rfind_from c t (i + 1) (if x =? c then i else last)
  end.
Definition rfind (c : N) (text : str) : Z := rfind_from c text 0 (-1).

(** [last_space > max_length * 0.7]: the product is a float, with which the
    integer is compared exactly. *)
Definition seven_tenths (last_space max_length : Z) : bool :=
  bool_decide (Float64.fmul (Q2Qc (inject_Z max_length)) (dec 7 10)
               < Q2Qc (inject_Z last_space))%Qc.

Section Processor.
Context {U : Unicode}.

(** [self.whitespace_pattern]: [\s+] *)
Definition whitespace_pattern : regex := plus (Chr cls_s).

(** [normalize_whitespace] (lines 51-56) *)
Definition normalize_whitespace (text : str) : str :=
  if bool_decide (text = []) then []
  else strip (re_sub whitespace_pattern [c_space] text).

(** [clean_extracted_phone] (lines 126-149), on a string.  [digits_only]
    keeps the digits and the plus signs. *)
Definition clean_extracted_phone (phone : str) : option str :=
  if bool_decide (phone = []) then None
  else
    let digits_only := re_sub (Chr (fun c => negb (cls_d c || (c =? c_plus)))) [] phone in
    if (len digits_only <? 7)%Z || (15 <? len digits_only)%Z then None
    else if startswith (lit "+1") digits_only && (len digits_only =? 12)%Z then
      Some (lit "+1 (" ++ slice 2 5 digits_only ++ lit ") " ++ slice 5 8 digits_only
            ++ lit "-" ++ skipn 8 digits_only)
    else if (len digits_only =? 10)%Z then
      Some (lit "(" ++ firstn 3 digits_only ++ lit ") " ++ slice 3 6 digits_only
            ++ lit "-" ++ skipn 6 digits_only)
    else if startswith (lit "+") digits_only then
      Some (lit "+" ++ skipn 1 digits_only)
    else Some digits_only.

(** [truncate_text] is stated for any answer of the test of the word
    boundary; [seven_tenths] is the test of the source. *)
Variable above_seven_tenths : Z -> Z -> bool.

(** [truncate_text] (lines 242-254) *)
Definition truncate_text (text : str) (max_length : Z) (suffix : str) : str :=
  if bool_decide (text = []) || (len text <=? max_length)%Z then text
  else
    let truncated := slice_to (max_length - len suffix) text in
    let last_space := rfind c_space truncated in
    let truncated :=
      if above_seven_tenths last_space max_length
      then slice_to last_space truncated else truncated in
    truncated ++ suffix.

End Processor.

End TextProcessor.

(* ===================================================================== *)
(** * extractors/email_extractor.py *)
(* ===================================================================== *)

Module EmailExtractor.
Import Py Re Data.

(** The classes [[a-zA-Z0-9._%+-]], [[a-zA-Z0-9.-]] and [[a-zA-Z]]. *)
Definition local_chars (c : N) : bool :=
  is_ascii_letter c || is_ascii_digit c || one_of "._%+-" c.
Definition domain_chars (c : N) : bool :=
  is_ascii_letter c || is_ascii_digit c || one_of ".-" c.

(** [r'^[a-zA-Z0-9._%+-]+@[a-zA-Z0-9.-]+\.[a-zA-Z]{2,}$'] compiled with
    [re.IGNORECASE]. *)
Definition email_pattern : regex :=
  seq [Bol; plus (Chr (ignorecase local_chars)); chr c_at;
       plus (Chr (ignorecase domain_chars)); chr c_dot;
       at_least 2 (Chr (ignorecase is_ascii_letter)); Eol].

(** The [invalid_patterns] of [_is_valid_email_format_enhanced]. *)
Definition invalid_patterns_enhanced : list regex :=
  [ at_least 2 (chr c_dot);                                   (* \.{2,} *)
    Alt (Cat Bol (chr c_dot)) (Cat (chr c_dot) Eol);          (* ^\.|\.$ *)
    Cat (chr c_at) (chr c_dot);                               (* @\. *)
    Cat (chr c_dot) (chr c_at);                               (* \.@ *)
    Alt (Cat Bol (chr c_hyphen)) (Cat Bol (chr c_underscore)); (* ^-|^_ *)
    Alt (Cat (chr c_hyphen) Eol) (Cat (chr c_underscore) Eol)  (* -$|_$ *)
  ].

(** [for pattern in patterns: if re.search(pattern, email): return False] *)
Definition any_search (patterns : list regex) (email : str) : bool :=
  existsb (fun p => bool_decide (re_search p email <> None)) patterns.

(** [EmailExtractor._is_valid_email_format_enhanced] (lines 179-236). *)
Definition _is_valid_email_format_enhanced (email : str) : bool :=
  if bool_decide (email = []) || (len email <? 5)%Z || (254 <? len email)%Z then false
  else if negb (count c_at email =? 1)%nat then false
  else
    match split c_at email with
    | [local; domain] =>
        if bool_decide (local = []) || bool_decide (domain = []) then false
        else if (64 <? len local)%Z || (255 <? len domain)%Z then false
        else if negb (contains [c_dot] domain) then false
        else if bool_decide (re_match email_pattern email = None) then false
        else if any_search invalid_patterns_enhanced email then false
        else
          let domain_parts := split c_dot domain in
          if (length domain_parts <? 2)%nat then false
          else if (len (List.last domain_parts []) <? 2)%Z then false
          else true
    | _ => false (* except ValueError *)
    end.

(** The [invalid_patterns] of the basic validator; the second one is
    [r'^\.|\.'] in the source. *)
Definition invalid_patterns_basic : list regex :=
  [ at_least 2 (chr c_dot);                 (* \.{2,} *)
    Alt (Cat Bol (chr c_dot)) (chr c_dot);  (* ^\.|\. *)
    Cat (chr c_at) (chr c_dot);             (* @\. *)
    Cat (chr c_dot) (chr c_at)              (* \.@ *)
  ].

(** [EmailExtractor._is_valid_email_format] (lines 626-660).  The unpacking
    [local, domain = email.split('@')] cannot fail after the count check; the
    last case stands for its [ValueError]. *)
Definition _is_valid_email_format (email : str) : bool :=
  if bool_decide (email = []) || (len email <? 5)%Z then false
  else if negb (count c_at email =? 1)%nat then false
  else
    match split c_at email with
    | [local; domain] =>
        if bool_decide (local = []) || bool_decide (domain = []) then false
        else if (64 <? len local)%Z || (255 <? len domain)%Z then false
        else if negb (contains [c_dot] domain) then false
        else if any_search invalid_patterns_basic email then false
        else true
    | _ => false
    end.

Section Strategies.
Context {U : Unicode}.

(** [_get_context(text, start, end, context_length=100)] *)
Definition _get_context (text : str) (start stop : nat) : str :=
  let start_context := (start - 100)%nat in
  let end_context := Nat.min (length text) (stop + 100) in
  join [c_space] (words (strip (slice start_context end_context text))).

(** The parser and the text cleaner are collaborators: BeautifulSoup objects
    are opaque, and only the queries the strategies make are named. *)
Variable soup : Type.
Variable tag : Type.
(** [self.text_processor.clean_html(content)] *)
Variable clean_html : str -> str.
(** [soup.find_all('a', href=True)], [link.get('href', '')],
    [element.get_text(strip=True)] *)
Variable find_all_a_href : soup -> list tag.
Variable get_href : tag -> str.
Variable get_text_strip : tag -> str.
(** [urllib.parse.unquote]; [None] when it raises. *)
Variable unquote : str -> option str.
(** [soup.select(selector)]; [None] when it raises. *)
Variable select : soup -> string -> option (list tag).
(** [soup.find_all('script')] and [script.string] *)
Variable find_all_script : soup -> list tag.
Variable script_string : tag -> option str.

(** [EmailPatterns.email_patterns] of utils/patterns.py, in insertion order. *)
Definition ci_local : regex := Chr (ignorecase local_chars).
Definition ci_domain : regex := Chr (ignorecase domain_chars).
(** [[A-Z|a-z]]: the bar is a member of the class. *)
Definition ci_tld_bar : regex := Chr (ignorecase (fun c => is_ascii_letter c || one_of "|" c)).
Definition ci_alnum : regex := Chr (ignorecase (fun c => is_ascii_letter c || is_ascii_digit c)).
Definition address : regex :=
  seq [plus ci_local; chr c_at; plus ci_domain; chr c_dot; at_least 2 ci_tld_bar].

Definition email_patterns : list (string * regex) :=
  [ ("standard"%string, seq [wordb; address; wordb]);
    ("strict"%string,
      seq [wordb; ci_alnum;
           opt (Grp 1 (Cat (star (Chr (ignorecase (fun c =>
                  is_ascii_letter c || is_ascii_digit c || one_of "._%-" c)))) ci_alnum));
           chr c_at; ci_alnum;
           opt (Grp 2 (Cat (star ci_domain) ci_alnum));
           chr c_dot; at_least 2 (Chr (ignorecase is_ascii_letter)); wordb]);
    ("with_context"%string,
      seq [opt (alt [iword "email"; iword "e-mail"; iword "contact"]);
           star (Chr cls_s); opt (chr 58); star (Chr cls_s); Grp 1 address]);
    ("quoted"%string,
      seq [Chr (one_of (String (ascii_of_nat 34) "'(")); Grp 1 address;
           Chr (one_of (String (ascii_of_nat 34) "')"))])
  ].

(** [_extract_standard_emails] (lines 322-346) *)
Definition _extract_standard_emails (content : str) : list dict :=
  let text_content := clean_html content in
  flat_map (fun '(pattern_name, pattern) =>
    flat_map (fun m =>
      let email := strip (lower (group0 m)) in
      if _is_valid_email_format email
      then [list_to_map
              [("email"%string, VStr email);
               ("method"%string, VStr (lit "standard_regex"));
               ("pattern"%string, VStr (lit pattern_name));
               ("confidence"%string, VNum (dec 9 10));
               ("context"%string, VStr (_get_context text_content (m_start m) (m_end m)))]]
      else [])
      (re_finditer pattern text_content))
    email_patterns.

(** [_extract_mailto_links] (lines 348-389); an exception inside the [try]
    abandons the rest of that link. *)
Fixpoint mailto_addresses (link_text source_url : str) (parts : list str) : list dict :=
  match parts with
  | [] => []
  | e :: rest =>
      match unquote e with
      | None => [] (* raised: logged, next link *)
      | Some e' =>
          let email := lower e' in
          (if _is_valid_email_format email
           then [list_to_map
                   [("email"%string, VStr email);
                    ("method"%string, VStr (lit "mailto_link"));
                    ("confidence"%string, VNum (dec 95 100));
                    ("context"%string, VStr link_text);
                    ("link_text"%string, VStr link_text);
                    ("source_url"%string, VStr source_url)]]
           else [])
          ++ mailto_addresses link_text source_url rest
      end
  end.

Definition _extract_mailto_links (sp : soup) (source_url : str) : list dict :=
  flat_map (fun link =>
    let href := get_href link in
    if startswith (lit "mailto:") href then
      let email_part := skipn 7 href in
      let email_part :=
        if contains (lit "?") email_part
        then List.hd [] (split 63 email_part) else email_part in
      let email_addresses := map strip (split 44 email_part) in
      mailto_addresses (get_text_strip link) source_url email_addresses
    else [])
    (find_all_a_href sp).

(** [_extract_css_hidden_emails] (lines 441-470) *)
Definition dquote : string := String (ascii_of_nat 34) EmptyString.
Definition style_has (x : string) : string :=
  ("[style*=" ++ dquote ++ x ++ dquote ++ "]")%string.
Definition hidden_selectors : list string :=
  [ style_has "display:none"; style_has "display: none";
    style_has "visibility:hidden"; style_has "visibility: hidden";
    ".hidden"%string; ".sr-only"%string ].

Definition _extract_css_hidden_emails (sp : soup) : list dict :=
  flat_map (fun selector =>
    match select sp selector with
    | None => [] (* raised: logged, next selector *)
    | Some elements =>
        flat_map (fun element =>
          let text := get_text_strip element in
          if negb (bool_decide (text = [])) && contains [c_at] text then
            map (fun email_data =>
                   <["confidence"%string := VNum (dec 7 10)]>
                     (<["method"%string := VStr (lit "css_hidden")]> email_data))
                (_extract_standard_emails text)
          else [])
          elements
    end)
    hidden_selectors.

(** The obfuscation patterns of [_extract_obfuscated_emails], each with
    three groups; they are compiled with [re.IGNORECASE]. *)
Definition ci_user : regex :=
  Chr (ignorecase (fun c => is_ascii_letter c || is_ascii_digit c || one_of "._-" c)).
Definition ci_alpha : regex := Chr (ignorecase is_ascii_letter).
Definition ws : regex := star (Chr cls_s).

Definition obfuscation_patterns : list regex :=
  [ seq [Grp 1 (plus ci_user); ws; chr c_at; ws; Grp 2 (plus ci_domain); ws;
         chr c_dot; ws; Grp 3 (at_least 2 ci_alpha)];
    seq [Grp 1 (plus ci_user); ws; iword "[at]"; ws; Grp 2 (plus ci_domain); ws;
         iword "[dot]"; ws; Grp 3 (at_least 2 ci_alpha)];
    seq [Grp 1 (plus ci_user); ws; iword "(at)"; ws; Grp 2 (plus ci_domain); ws;
         iword "(dot)"; ws; Grp 3 (at_least 2 ci_alpha)];
    seq [Grp 1 (plus ci_user); word "&#64;"; Grp 2 (plus ci_domain);
         word "&#46;"; Grp 3 (at_least 2 ci_alpha)]
  ].

(** [_extract_obfuscated_emails] (lines 391-439) *)
Definition _extract_obfuscated_emails (content : str) (sp : soup) : list dict :=
  let text_content := clean_html content in
  flat_map (fun pattern =>
    flat_map (fun m =>
      let email := lower (group 1 m ++ [c_at] ++ group 2 m ++ [c_dot] ++ group 3 m) in
      if _is_valid_email_format email
      then [list_to_map
              [("email"%string, VStr email);
               ("method"%string, VStr (lit "deobfuscation"));
               ("confidence"%string, VNum (dec 85 100));
               ("context"%string, VStr (_get_context text_content (m_start m) (m_end m)));
               ("original_text"%string, VStr (group0 m))]]
      else [])
      (re_finditer pattern text_content))
    obfuscation_patterns
  ++ _extract_css_hidden_emails sp.

(** The [js_patterns] of [_extract_js_emails], each with its number of groups. *)
Definition not_chr (x : string) : regex := Chr (fun c => negb (one_of x c)).
Definition quotes : string := String (ascii_of_nat 34) "'".
Definition dq : regex := chr 34.
Definition sq : regex := chr 39.

Definition js_patterns : list (regex * nat) :=
  [ (seq [sq; Grp 1 (plus (not_chr "'")); sq; ws; chr c_plus; ws; sq; chr c_at; sq;
          ws; chr c_plus; ws; sq; Grp 2 (plus (not_chr "'")); sq], 2%nat);
    (seq [dq; Grp 1 (plus (Chr (fun c => negb (c =? 34)))); dq; ws; chr c_plus; ws;
          dq; chr c_at; dq; ws; chr c_plus; ws;
          dq; Grp 2 (plus (Chr (fun c => negb (c =? 34)))); dq], 2%nat);
    (seq [iword "email"; ws; Chr (one_of ":="); ws; Chr (one_of quotes);
          Grp 1 (seq [plus (not_chr quotes); chr c_at; plus (not_chr quotes)]);
          Chr (one_of quotes)], 1%nat);
    (seq [iword "mail"; ws; Chr (one_of ":="); ws; Chr (one_of quotes);
          Grp 1 (seq [plus (not_chr quotes); chr c_at; plus (not_chr quotes)]);
          Chr (one_of quotes)], 1%nat)
  ].

(** [_extract_js_emails] (lines 500-541) *)
Definition _extract_js_emails (sp : soup) : list dict :=
  flat_map (fun script =>
    match script_string script with
    | None => []
    | Some js_content =>
        if bool_decide (js_content = []) then []
        else
          flat_map (fun '(pattern, ngroups) =>
            flat_map (fun m =>
              let email :=
                if (ngroups =? 2)%nat
                then lower (group 1 m ++ [c_at] ++ group 2 m)
                else lower (group 1 m) in
              if _is_valid_email_format email
              then [list_to_map
                      [("email"%string, VStr email);
                       ("method"%string, VStr (lit "javascript"));
                       ("confidence"%string, VNum (dec 75 100));
                       ("context"%string, VStr (firstn 100 (group0 m)))]]
              else [])
              (re_finditer pattern js_content))
            js_patterns
    end)
    (find_all_script sp).

Import Outcome.

(** [_extract_base64_emails] (lines 472-498): every run of base64 characters
    is decoded and searched by [_extract_standard_emails]; a run that does not
    decode is skipped. *)
(** [base64.b64decode(s).decode('utf-8', errors='ignore')]; [None] when it
    raises. *)
Variable b64decode : str -> option str.

(** [[A-Za-z0-9+/]{20,}={0,2}] *)
Definition base64_pattern : regex :=
  Cat (at_least 20 (Chr (fun c => is_ascii_letter c || is_ascii_digit c || one_of "+/" c)))
      (between 0 2 (chr 61)).

Definition _extract_base64_emails (content : str) : list dict :=
  flat_map (fun m =>
    let encoded := group0 m in
    match b64decode (encoded ++ lit "==") with
    | None => [] (* raised: next match *)
    | Some decoded =>
        map (fun email_data =>
               <["encoded_form"%string := VStr encoded]>
                 (<["confidence"%string := VNum (dec 8 10)]>
                    (<["method"%string := VStr (lit "base64_decoded")]> email_data)))
            (_extract_standard_emails decoded)
    end)
    (re_finditer base64_pattern content).

(** [extract_emails] (lines 52-87).  The parser and the three enhanced
    strategies it calls are parameters here, each with the exception it may
    raise: what is embedded is the merge of their results. *)
Variable parse_html : str -> option soup.
Variable _extract_mailto_links_enhanced : soup -> str -> outcome (list dict).
Variable _extract_standard_emails_enhanced : str -> str -> outcome (list dict).
Variable _extract_obfuscated_emails_enhanced : str -> soup -> outcome (list dict).

(** [for email_data in emails: if email_data['email'] not in found_emails:
    found_emails.add(email_data['email']); email_details.append(email_data)];
    a record without ['email'] raises [KeyError]. *)
Fixpoint add_new_emails (emails : list dict) (state : gset value * list dict)
    : outcome (gset value * list dict) :=
  match emails with
  | [] => Returned state
  | email_data :: rest =>
      let '(found_emails, email_details) := state in
      match email_data !! "email"%string with
      | None => Raised
      | Some email =>
          add_new_emails rest
            (if bool_decide (email ∈ found_emails) then state
             else ({[email]} ∪ found_emails, email_details ++ [email_data]))
      end
  end.

Definition extract_emails (content source_url : str) : list dict :=
  catch
    (match parse_html content with
     | None => Raised
     | Some sp =>
         mailto_emails ← _extract_mailto_links_enhanced sp source_url;
         state ← add_new_emails mailto_emails (∅, []);
         standard_emails ← _extract_standard_emails_enhanced content source_url;
         state ← add_new_emails standard_emails state;
         obfuscated_emails ← _extract_obfuscated_emails_enhanced content sp;
         state ← add_new_emails obfuscated_emails state;
         mret (snd state)
     end)
    [].

End Strategies.

End EmailExtractor.

(* ===================================================================== *)
(** * crawler/website_crawler.py: gates and context parsing *)
(* ===================================================================== *)

Module WebsiteCrawler.
Import Py Re Data.

(** The classes [[A-Z]] and [[a-z]] of patterns compiled without flags. *)
Definition AZ : regex := Chr is_ascii_upper.
Definition az : regex := Chr is_ascii_lower.

(** [r'^[a-zA-Z0-9._%+-]+@[a-zA-Z0-9.-]+\.[a-zA-Z]{2,}$'], compiled without
    flags. *)
Definition email_pattern : regex :=
  seq [Bol; plus (Chr EmailExtractor.local_chars); chr c_at;
       plus (Chr EmailExtractor.domain_chars); chr c_dot;
       at_least 2 (Chr is_ascii_letter); Eol].

(** [WebsiteCrawler._is_valid_email_format_enhanced] (lines 1189-1208). *)
Definition _is_valid_email_format_enhanced (email : str) : bool :=
  if bool_decide (email = []) || (len email <? 5)%Z || (254 <? len email)%Z then false
  else if negb (count c_at email =? 1)%nat then false
  else
    match split c_at email with
    | [local; domain] =>
        if bool_decide (local = []) || bool_decide (domain = [])
           || negb (contains [c_dot] domain) then false
        else bool_decide (re_match email_pattern email <> None)
    | _ => false (* except ValueError *)
    end.

(** The four fields a context parser returns. *)
Record contact_info := ContactInfo {
  info_name : str;
  info_title : str;
  info_company : str;
  info_phone : str;
}.

Section Parsing.
Context {U : Unicode}.

Definition d : regex := Chr cls_d.
Definition s : regex := Chr cls_s.
Definition w : regex := Chr cls_w.

(** [any(word in text for word in words)] *)
Definition any_in (words : list string) (text : str) : bool :=
  existsb (fun x => contains (lit x) text) words.

(** [_is_confident_name] (lines 974-1004) *)
Definition non_name_indicators : list string :=
  [ "consultation"; "info"; "contact"; "admin"; "support";
    "department"; "faculty"; "office"; "secretary"; "email";
    "phone"; "address"; "university"; "college" ]%string.

Definition _is_confident_name (name : str) : bool :=
  if bool_decide (name = []) || (len (strip name) <? 3)%Z then false
  else
    let name := strip name in
    let words := words name in
    if (length words <? 2)%nat || (4 <? length words)%nat then false
    else if any_in non_name_indicators (lower name) then false
    else
      forallb (fun word =>
                 (2 <=? len word)%Z && isupper (firstn 1 word) && isalpha word)
              words.

(** [len(re.sub(r'[^\d]', '', phone))] *)
Definition digit_count (phone : str) : Z :=
  len (re_sub (Chr (fun c => negb (cls_d c))) [] phone).

(** The [phone_patterns] of [_extract_phone_number_ai]. *)
Definition phone_patterns_ai : list regex :=
  [ (* \+\d{1,3}\s*\(\d{3}\)\s*\d{3}\s*\d{2}\s*\d{2}(?:\s*/\s*\d{3,4})? *)
    seq [chr c_plus; between 1 3 d; star s; chr 40; times 3 d; chr 41; star s;
         times 3 d; star s; times 2 d; star s; times 2 d;
         opt (seq [star s; chr 47; star s; between 3 4 d])];
    (* \+\d{1,3}\s*\d{3}\s*\d{3}\s*\d{2}\s*\d{2} *)
    seq [chr c_plus; between 1 3 d; star s; times 3 d; star s; times 3 d; star s;
         times 2 d; star s; times 2 d];
    (* \(\d{3}\)\s?\d{3}[-.\s]?\d{4} *)
    seq [chr 40; times 3 d; chr 41; opt s; times 3 d;
         opt (Chr (fun c => one_of "-." c || cls_s c)); times 4 d];
    (* \d{3}[-.\s]?\d{3}[-.\s]?\d{4} *)
    seq [times 3 d; opt (Chr (fun c => one_of "-." c || cls_s c)); times 3 d;
         opt (Chr (fun c => one_of "-." c || cls_s c)); times 4 d]
  ].

(** [_extract_phone_number_ai] (lines 846-868) *)
Fixpoint first_complete_phone (patterns : list regex) (text : str) : str :=
  match patterns with
  | [] => []
  | pattern :: rest =>
      match re_search pattern text with
      | Some m =>
          let phone := strip (group0 m) in
          if (10 <=? digit_count phone)%Z then phone
          else first_complete_phone rest text
      | None => first_complete_phone rest text
      end
  end.

Definition _extract_phone_number_ai (text : str) : str :=
  first_complete_phone phone_patterns_ai text.

(** [for pattern in patterns: matches = re.findall(pattern, text); if matches:
    ...matches[0]...; break], for patterns with one group: the first group of
    the first match of the first pattern that matches at all. *)
Fixpoint first_findall (patterns : list regex) (text : str) : option str :=
  match patterns with
  | [] => None
  | pattern :: rest =>
      match re_findall1 pattern text with
      | m :: _ => Some m
      | [] => first_findall rest text
      end
  end.

(** [re.sub(r'\s+', ' ', text).strip()] *)
Definition clean_text (text : str) : str := strip (re_sub (plus s) [c_space] text).

Definition capitalized : regex := Cat AZ (plus az).       (* [A-Z][a-z]+ *)

(** The tables of [_parse_context_with_regex_strict]. *)
Definition strict_phone_pattern : regex :=
  (* [\+]?[\d\s\-\(\)\.]{10,15} *)
  seq [opt (chr c_plus); between 10 15 (Chr (fun c => cls_d c || cls_s c || one_of "-()." c))].

Definition strict_name_patterns : list regex :=
  [ (* (?:Professor|Dr\.)\s+([A-Z][a-z]+ [A-Z][a-z]+)(?:\s|$) *)
    seq [alt [word "Professor"; word "Dr."]; plus s;
         Grp 1 (seq [capitalized; chr c_space; capitalized]); Alt s Eol];
    (* (?:Associate Professor|Assistant Professor)\s+([A-Z][a-z]+ [A-Z][a-z]+)(?:\s|$) *)
    seq [alt [word "Associate Professor"; word "Assistant Professor"]; plus s;
         Grp 1 (seq [capitalized; chr c_space; capitalized]); Alt s Eol]
  ].

Definition strict_title_patterns : list regex :=
  [ seq [wordb; Grp 1 (iword "Professor"); wordb];
    seq [wordb; Grp 1 (iword "Associate Professor"); wordb];
    seq [wordb; Grp 1 (iword "Assistant Professor"); wordb];
    seq [wordb; Grp 1 (iword "Dr."); wordb]
  ].

Definition strict_company_patterns : list regex :=
  [ seq [wordb; Grp 1 (seq [capitalized; word " University"]); wordb];
    seq [wordb; Grp 1 (seq [capitalized; word " College"]); wordb];
    seq [wordb; Grp 1 (seq [capitalized; word " Institute"]); wordb]
  ].

(** In [for pattern: matches = findall; if matches: candidate = ...; if
    confident: name = candidate; break], the [break] is inside the inner [if]:
    a pattern whose first match is not a confident name is passed over. *)
Fixpoint first_confident_name (patterns : list regex) (text : str) : str :=
  match patterns with
  | [] => []
  | pattern :: rest =>
      match re_findall1 pattern text with
      | m :: _ =>
          let candidate := strip m in
          if _is_confident_name candidate then candidate
          else first_confident_name rest text
      | [] => first_confident_name rest text
      end
  end.

(** [_parse_context_with_regex_strict] (lines 1095-1155) *)
Definition _parse_context_with_regex_strict (text email : str) : contact_info :=
  let text := clean_text text in
  let phones := re_findall strict_phone_pattern text in
  let phone := match phones with p :: _ => strip p | [] => [] end in
  let name := first_confident_name strict_name_patterns text in
  let title := default [] (first_findall strict_title_patterns text) in
  let company := default [] (first_findall strict_company_patterns text) in
  ContactInfo name title company phone.

(** [infer_name_from_email] (lines 1396-1426) *)
Definition infer_patterns : list regex :=
  [ seq [Bol; Grp 1 (plus az); chr c_dot; Grp 2 (plus az); Eol];          (* ^([a-z]+)\.([a-z]+)$ *)
    seq [Bol; Grp 1 (plus az); chr c_underscore; Grp 2 (plus az); Eol];   (* ^([a-z]+)_([a-z]+)$ *)
    seq [Bol; Grp 1 az; Grp 2 (at_least 3 az); Eol];                      (* ^([a-z])([a-z]{3,})$ *)
    seq [Bol; Grp 1 (between 3 8 az); Grp 2 (at_least 3 az); Eol]         (* ^([a-z]{3,8})([a-z]{3,})$ *)
  ].

Fixpoint infer_from (patterns : list regex) (username : str) : option str :=
  match patterns with
  | [] => None
  | pattern :: rest =>
      match re_match pattern (lower username) with
      | Some m =>
          let first := capitalize (group 1 m) in
          let last := capitalize (group 2 m) in
          if (len first =? 1)%Z then Some (first ++ lit ". " ++ last)
          else Some (first ++ lit " " ++ last)
      | None => infer_from rest username
      end
  end.

Definition infer_name_from_email (email : str) : str :=
  let username := List.hd [] (split c_at email) in
  match infer_from infer_patterns username with
  | Some name => name
  | None => join [c_space] (map capitalize (re_split (Chr (one_of "._-")) username))
  end.

(** [_infer_company_from_domain] (lines 1210-1222); [parts] is never empty. *)
Definition _infer_company_from_domain (email_domain url : str) : str :=
  if contains (lit ".edu") email_domain then
    let parts := split c_dot (replace (lit ".edu") [] email_domain) in
    let name := title (replace (lit "-") (lit " ") (List.hd [] parts)) in
    name ++ lit " University"
  else
    let clean_domain := List.hd [] (split c_dot (replace (lit "www.") [] email_domain)) in
    title (replace (lit "-") (lit " ") clean_domain).

(** The tables of [_parse_context_with_regex]. *)
Definition phone_pattern : regex :=
  (* [\+]?[1-9]?[\d\s\-\(\)\.]{10,15} *)
  seq [opt (chr c_plus); opt (Chr (in_range 49 57));
       between 10 15 (Chr (fun c => cls_d c || cls_s c || one_of "-()." c))].

Definition names_run : regex :=
  (* [A-Z][a-z]+(?:\s+[A-Z][a-z]+)+ *)
  seq [capitalized; plus (Cat (plus s) capitalized)].

Definition title_name_patterns : list regex :=
  [ seq [alt [word "Professor"; Cat (word "Prof") (opt (chr c_dot));
              word "Associate Professor"; word "Assistant Professor";
              Cat (word "Dr") (opt (chr c_dot))];
         plus s; Grp 1 names_run];
    seq [alt [word "Director"; word "Manager"; word "Engineer"; word "Analyst"];
         plus s; Grp 1 names_run]
  ].

Definition title_patterns : list regex :=
  [ seq [wordb; Grp 1 (Alt (iword "Professor") (Cat (iword "Prof") (opt (chr c_dot)))); wordb];
    seq [wordb; Grp 1 (iword "Associate Professor"); wordb];
    seq [wordb; Grp 1 (iword "Assistant Professor"); wordb];
    seq [wordb; Grp 1 (iword "Director"); wordb];
    seq [wordb; Grp 1 (iword "Manager"); wordb];
    seq [wordb; Grp 1 (iword "Engineer"); wordb];
    seq [wordb; Grp 1 (iword "Lecturer"); wordb];
    seq [wordb; Grp 1 (iword "Research Assistant"); wordb];
    seq [wordb; Grp 1 (alt [Cat (iword "Dr") (opt (chr c_dot)); iword "PhD";
                            Cat (iword "Ph.D") (opt (chr c_dot))]); wordb];
    seq [wordb; Grp 1 (seq [iword "Senior"; plus s; plus w]); wordb];
    seq [wordb; Grp 1 (seq [iword "Lead"; plus s; plus w]); wordb]
  ].

Definition company_patterns : list regex :=
  [ seq [wordb; Grp 1 (alt [iword "University"; iword "College"; iword "School"]);
         plus s; iword "of"; plus s; plus w; wordb];
    seq [wordb; plus w; plus s;
         Grp 1 (alt [iword "University"; iword "College"; iword "Institute";
                     iword "Corporation"; iword "Corp"; iword "Inc"; iword "LLC";
                     iword "Ltd"]); wordb]
  ].

(** The name loop of [_parse_context_with_regex]: the [break] is inside both
    inner tests. *)
Fixpoint first_title_name (patterns : list regex) (text : str) : str :=
  match patterns with
  | [] => []
  | pattern :: rest =>
      match re_findall1 pattern text with
      | m :: _ =>
          let candidate := strip m in
          if negb (any_in ["department"; "engineering"; "science"]%string (lower candidate))
             && (2 <=? length (words candidate))%nat
          then candidate
          else first_title_name rest text
      | [] => first_title_name rest text
      end
  end.

(** [_parse_context_with_regex] (lines 870-947).  [None] stands for the
    [IndexError] of [email.split('@')[1]] on an address without [@]. *)
Definition _parse_context_with_regex (text email : str) : option contact_info :=
  let text := clean_text text in
  let phones := re_findall phone_pattern text in
  let phone := match phones with p :: _ => strip p | [] => [] end in
  let name := first_title_name title_name_patterns text in
  (* If no title-based match, use email inference *)
  let name := if bool_decide (name = []) then infer_name_from_email email else name in
  let title := default [] (first_findall title_patterns text) in
  let company := default [] (first_findall company_patterns text) in
  if bool_decide (company = []) then
    match split c_at email with
    | _ :: domain :: _ =>
        Some (ContactInfo name title (_infer_company_from_domain domain []) phone)
    | _ => None
    end
  else Some (ContactInfo name title company phone).

(** [_parse_context_text] (lines 659-669).  The entity recogniser is a
    collaborator: [parse_ai] is [None] when no model is loaded ([self.nlp] is
    [None]) and otherwise gives what [_parse_context_with_ai] returns. *)
Definition _parse_context_text (parse_ai : option (str -> str -> contact_info))
    (text email : str) : option contact_info :=
  match parse_ai with
  | Some ai =>
      let ai_result := ai text email in
      if negb (bool_decide (info_name ai_result = [])) && (3 <? len (info_name ai_result))%Z
      then Some ai_result
      else _parse_context_with_regex text email
  | None => _parse_context_with_regex text email
  end.

End Parsing.

(** ** The frontier and the crawl loop *)

(** [self.config], as far as the crawl consults it. *)
Record Config := {
  max_depth : Z;
  max_pages : Z;
  user_agent : str;
  allowed_domains : option (list str);
  excluded_domains : option (list str);
  excluded_extensions : list str;
}.

(** [urlparse(url)], as far as it is read. *)
Record ParseResult := {
  netloc : str;
  path : str;
  query : str;
}.

(** A loaded [RobotFileParser]: its [can_fetch(user_agent, url)]. *)
Definition robot_parser : Type := str -> str -> outcome bool.

(** [CrawlResult] *)
Record CrawlResult := {
  result_url : str;
  result_contacts : list dict;
}.

(** What [_crawl_single_page] comes to: a result, [None] on empty content,
    or [None] after recording the error in [failed_urls]. *)
Inductive page_outcome : Type :=
| Crawled (r : CrawlResult)
| NoContent
| Failed (reason : str).

(** The fetches a run issues, for stating what it never does: the start of a
    wave (depth, URLs kept after truncation, pages visited before it), a page
    crawl, and the second fetch of a page for its links. *)
Inductive event : Type :=
| EvWave (depth : Z) (urls : list str) (visited_before : nat)
| EvCrawl (url : str) (depth : Z)
| EvLinks (url : str) (depth : Z).

(** The collaborators of the crawl: the URL library, the robots.txt loader,
    the page fetcher with the extraction behind it, and the iteration order of
    a set.  The network may answer differently each time: the fetchers see the
    events so far. *)
Class Web := {
  (** [urllib.parse.urlparse(url)]; raises [ValueError] on some inputs *)
  urlparse : str -> outcome ParseResult;
  (** [urllib.parse.parse_qs(query)] *)
  parse_qs : str -> outcome (gmap str (list str));
  (** [int(s)]; [None] for [ValueError] *)
  py_int : str -> option Z;
  (** the [try] block of [_get_robots_parser]: build the parser for
      [base_url] and read robots.txt *)
  load_robots : str -> outcome robot_parser;
  (** [_crawl_single_page(url, depth)] *)
  crawl_page : list event -> str -> Z -> page_outcome;
  (** [_fetch_page_content(url)]: the content, or the error it recorded *)
  fetch_page : list event -> str -> str + str;
  (** [_extract_links(content, base_url)] *)
  extract_links : str -> str -> list str;
  (** [list(a_set)]: the elements, each once, in some order *)
  set_to_list : gset str -> list str;
  set_to_list_perm : forall X, set_to_list X ≡ₚ elements X;
}.

(** The mutable state of a [WebsiteCrawler], and the events of the current
    run, latest first. *)
Record Crawler := {
  visited_urls : gset str;
  queued_urls : gset str;
  robots_cache : gmap str (option robot_parser);
  failed_urls : gmap str str;
  trace : list event;
}.

Definition set_visited (v : gset str) (c : Crawler) : Crawler :=
  {| visited_urls := v; queued_urls := queued_urls c; robots_cache := robots_cache c;
     failed_urls := failed_urls c; trace := trace c |}.
Definition set_queued (q : gset str) (c : Crawler) : Crawler :=
  {| visited_urls := visited_urls c; queued_urls := q; robots_cache := robots_cache c;
     failed_urls := failed_urls c; trace := trace c |}.
Definition set_robots (r : gmap str (option robot_parser)) (c : Crawler) : Crawler :=
  {| visited_urls := visited_urls c; queued_urls := queued_urls c; robots_cache := r;
     failed_urls := failed_urls c; trace := trace c |}.
Definition set_failed (f : gmap str str) (c : Crawler) : Crawler :=
  {| visited_urls := visited_urls c; queued_urls := queued_urls c;
     robots_cache := robots_cache c; failed_urls := f; trace := trace c |}.
Definition log (e : event) (c : Crawler) : Crawler :=
  {| visited_urls := visited_urls c; queued_urls := queued_urls c;
     robots_cache := robots_cache c; failed_urls := failed_urls c; trace := e :: trace c |}.
Definition start_trace (c : Crawler) : Crawler :=
  {| visited_urls := visited_urls c; queued_urls := queued_urls c;
     robots_cache := robots_cache c; failed_urls := failed_urls c; trace := [] |}.

(** A fresh crawler, as [__init__] leaves it. *)
Definition new_crawler : Crawler :=
  {| visited_urls := ∅; queued_urls := ∅; robots_cache := ∅; failed_urls := ∅; trace := [] |}.

Section Crawl.
Context {U : Unicode} {W : Web}.
Variable config : Config.

(** [_get_robots_parser] (lines 107-123): [urlparse] is outside its [try]. *)
Definition _get_robots_parser (self : Crawler) (base_url : str)
    : outcome (option robot_parser * Crawler) :=
  match urlparse base_url with
  | Raised => Raised
  | Returned parsed =>
      let domain := netloc parsed in
      match robots_cache self !! domain with
      | Some rp => Returned (rp, self)
      | None =>
          let rp := match load_robots base_url with
                    | Returned rp => Some rp
                    | Raised => None
                    end in
          Returned (rp, set_robots (<[domain := rp]> (robots_cache self)) self)
      end
  end.

(** [_can_fetch] (lines 125-134): allow when there is no parser, and allow on
    any error. *)
Definition _can_fetch (self : Crawler) (url : str) : bool * Crawler :=
  match _get_robots_parser self url with
  | Raised => (true, self)
  | Returned (Some rp, self') =>
      match rp (user_agent config) url with
      | Returned answer => (answer, self')
      | Raised => (true, self')
      end
  | Returned (None, self') => (true, self')
  end.

Definition listed (x : str) (l : list str) : bool := bool_decide (x ∈ l).
Definition nonempty_list (o : option (list str)) : option (list str) :=
  match o with
  | Some ((_ :: _) as l) => Some l
  | _ => None
  end.

(** The pagination guard at the end of [_should_crawl_url]: [False] only for
    a [page] parameter whose first value reads as a number above 100. *)
Definition page_allowed (query_params : gmap str (list str)) : bool :=
  match query_params !! lit "page" with
  | Some (v :: _) =>
      match py_int v with
      | Some page_num => negb (100 <? page_num)%Z
      | None => true (* except ValueError *)
      end
  | Some [] => true (* except IndexError *)
  | None => true
  end.

(** [_should_crawl_url] (lines 136-187).  Any exception inside the [try]
    leads to [return False]. *)
Definition _should_crawl_url (self : Crawler) (url base_domain : str) (current_depth : Z)
    : bool * Crawler :=
  match urlparse url with
  | Raised => (false, self)
  | Returned parsed =>
      if (max_depth config <=? current_depth)%Z then (false, self)
      else if bool_decide (url ∈ visited_urls self) || bool_decide (url ∈ queued_urls self)
      then (false, self)
      else if match nonempty_list (allowed_domains config) with
              | Some allowed => negb (listed (netloc parsed) allowed)
              | None => false
              end
      then (false, self)
      else if match nonempty_list (excluded_domains config) with
              | Some excluded => listed (netloc parsed) excluded
              | None => false
              end
      then (false, self)
      else if negb (str_eqb (netloc parsed) base_domain) then (false, self)
      else if existsb (fun ext => endswith ext (lower (path parsed)))
                      (excluded_extensions config)
      then (false, self)
      else
        let '(allowed, self) := _can_fetch self url in
        if negb allowed then (false, self)
        else if bool_decide (query parsed = []) then (true, self)
        else
          match parse_qs (query parsed) with
          | Raised => (false, self)
          | Returned query_params => (page_allowed query_params, self)
          end
  end.

(** The loop state of one wave: the crawler, [next_urls] and [all_results]. *)
Record wave_state := {
  ws_self : Crawler;
  ws_next : gset str;
  ws_results : list CrawlResult;
}.

(** [for link in links: if self._should_crawl_url(link, base_domain,
    current_depth + 1): next_urls.add(link)] *)
Fixpoint admit_links (base_domain : str) (current_depth : Z) (links : list str)
    (self : Crawler) (next_urls : gset str) : Crawler * gset str :=
  match links with
  | [] => (self, next_urls)
  | link :: rest =>
      let '(ok, self) := _should_crawl_url self link base_domain (current_depth + 1) in
      admit_links base_domain current_depth rest self
        (if ok then {[link]} ∪ next_urls else next_urls)
  end.

(** The body of [for url, result in zip(batch, batch_results)], before the
    test of the page budget. *)
Definition process_result (base_domain : str) (current_depth : Z)
    (url : str) (result : page_outcome) (st : wave_state) : wave_state :=
  let self := set_visited ({[url]} ∪ visited_urls (ws_self st)) (ws_self st) in
  match result with
  | Crawled r =>
      let all_results := ws_results st ++ [r] in
      if (current_depth <? max_depth config - 1)%Z then
        let page := fetch_page (trace self) url in
        let self := log (EvLinks url current_depth) self in
        match page with
        | inl page_content =>
            if bool_decide (page_content = []) then
              {| ws_self := self; ws_next := ws_next st; ws_results := all_results |}
            else
              let '(self, next_urls) :=
                admit_links base_domain current_depth (extract_links page_content url)
                  self (ws_next st) in
              {| ws_self := self; ws_next := next_urls; ws_results := all_results |}
        | inr reason =>
            {| ws_self := set_failed (<[url := reason]> (failed_urls self)) self;
               ws_next := ws_next st; ws_results := all_results |}
        end
      else {| ws_self := self; ws_next := ws_next st; ws_results := all_results |}
  | _ => {| ws_self := self; ws_next := ws_next st; ws_results := ws_results st |}
  end.

Definition budget_spent (self : Crawler) : bool :=
  (max_pages config <=? Z.of_nat (size (visited_urls self)))%Z.

(** The inner loop, left by [break] once the page budget is spent. *)
Fixpoint process_results (base_domain : str) (current_depth : Z)
    (items : list (str * page_outcome)) (st : wave_state) : wave_state :=
  match items with
  | [] => st
  | (url, result) :: rest =>
      let st := process_result base_domain current_depth url result st in
      if budget_spent (ws_self st) then st
      else process_results base_domain current_depth rest st
  end.

(** [await asyncio.gather] over the batch: every page of the batch is crawled before
    any result is processed; a failed crawl has recorded its error. *)
Fixpoint crawl_batch (current_depth : Z) (seen : list event) (batch : list str)
    (self : Crawler) : list (str * page_outcome) * Crawler :=
  match batch with
  | [] => ([], self)
  | url :: rest =>
      let result := crawl_page seen url current_depth in
      let self := log (EvCrawl url current_depth) self in
      let self := match result with
                  | Failed reason => set_failed (<[url := reason]> (failed_urls self)) self
                  | _ => self
                  end in
      let '(items, self) := crawl_batch current_depth seen rest self in
      ((url, result) :: items, self)
  end.

(** [for i in range(0, len(current_urls), batch_size)], left by the second
    [break] once the page budget is spent. *)
Fixpoint process_batches (base_domain : str) (current_depth : Z)
    (batches : list (list str)) (st : wave_state) : wave_state :=
  match batches with
  | [] => st
  | batch :: rest =>
      let '(items, self) := crawl_batch current_depth (trace (ws_self st)) batch (ws_self st) in
      let st := process_results base_domain current_depth items
                  {| ws_self := self; ws_next := ws_next st; ws_results := ws_results st |} in
      if budget_spent (ws_self st) then st
      else process_batches base_domain current_depth rest st
  end.

(** [current_urls[i:i + batch_size]] for [i] in steps of [batch_size];
    [batch_size] is positive whenever [current_urls] is not empty. *)
Fixpoint batches_of (fuel batch_size : nat) (urls : list str) : list (list str) :=
  match fuel with
  | O => []
  | S f =>
      match urls with
      | [] => []
      | _ => firstn batch_size urls :: batches_of f batch_size (skipn batch_size urls)
      end
  end.

(** The test of the [while] loop. *)
Definition wave_due (self : Crawler) (current_depth : Z) : bool :=
  negb (bool_decide (queued_urls self = ∅))
  && (current_depth <? max_depth config)%Z
  && (Z.of_nat (size (visited_urls self)) <? max_pages config)%Z.

(** The body of the [while] loop of [crawl_website] (lines 341-386); [None]
    is its first [break]. *)
Definition wave (base_domain : str) (current_depth : Z) (self : Crawler)
    (all_results : list CrawlResult) : option (Crawler * list CrawlResult) :=
  let current_urls := set_to_list (queued_urls self) in
  let self := set_queued ∅ self in
  let remaining_pages := (max_pages config - Z.of_nat (size (visited_urls self)))%Z in
  if (remaining_pages <=? 0)%Z then None
  else
    let current_urls :=
      if (remaining_pages <? Z.of_nat (length current_urls))%Z
      then firstn (Z.to_nat remaining_pages) current_urls
      else current_urls in
    let self := log (EvWave current_depth current_urls (size (visited_urls self))) self in
    let batch_size := Nat.min 20 (length current_urls) in
    let st := process_batches base_domain current_depth
                (batches_of (length current_urls) batch_size current_urls)
                {| ws_self := self; ws_next := ∅; ws_results := all_results |} in
    Some (set_queued (ws_next st ∪ queued_urls (ws_self st)) (ws_self st), ws_results st).

(** The [while] loop, for at most [n] waves.  The depth grows with every wave
    and the loop stops at [max_depth], so [max_depth] waves are all it can
    make (see [waves_enough] below). *)
Fixpoint waves (n : nat) (base_domain : str) (current_depth : Z) (self : Crawler)
    (all_results : list CrawlResult) : Crawler * list CrawlResult :=
  match n with
  | O => (self, all_results)
  | S n' =>
      if wave_due self current_depth then
        match wave base_domain current_depth self all_results with
        | None => (set_queued ∅ self, all_results)
        | Some (self, all_results) => waves n' base_domain (current_depth + 1) self all_results
        end
      else (self, all_results)
  end.

(** The crawl of [crawl_website] (lines 326-393), up to the call of
    [_process_results]: the crawler after the last wave and the results
    gathered, or the exception of [urlparse].  What the call itself returns
    or raises is then decided by [_process_results] (in [CrawlerResults]) and
    by the start of the browser on entering [async with self], which are no
    part of this definition. *)
Definition crawl_website (self : Crawler) (start_url : str)
    : outcome (Crawler * list CrawlResult) :=
  match urlparse start_url with
  | Raised => Raised
  | Returned parsed =>
      let base_domain := netloc parsed in
      let self := set_queued ({[start_url]} ∪ queued_urls self) (start_trace self) in
      Returned (waves (Z.to_nat (max_depth config)) base_domain 0 self [])
  end.

End Crawl.

End WebsiteCrawler.

(* ===================================================================== *)
(** * extractors/contact_matcher.py *)
(* ===================================================================== *)

Module ContactMatcher.
Import Py Re Data.

Section Matcher.
Context {U : Unicode}.

(** [re.sub(r'[^a-zA-Z]', '', x)] *)
Definition letters_only (x : str) : str :=
  re_sub (Chr (fun c => negb (is_ascii_letter c))) [] x.

(** [_extract_name_from_email] (lines 390-415); no step of the [try] block
    can raise on a string. *)
Definition _extract_name_from_email (email : str) : option str :=
  let local_part := List.hd [] (split c_at email) in
  let single :=
    let name := capitalize (letters_only local_part) in
    if (2 <? len name)%Z then Some name else None in
  if contains [c_dot] local_part then
    match split c_dot local_part with
    | [first; last] =>
        let first := capitalize (letters_only first) in
        let last := capitalize (letters_only last) in
        if (1 <? len first)%Z && (1 <? len last)%Z
        then Some (first ++ lit " " ++ last)
        else single
    | _ => single
    end
  else single.

(** [_extract_company_from_domain] (lines 417-440); [None] is returned from
    the [except] branch, reached by [email.split('@')[1]] on an address
    without [@]. *)
Definition _extract_company_from_domain (email : str) : option str :=
  match split c_at email with
  | _ :: domain :: _ =>
      let domain_parts := split c_dot (lower domain) in
      let n := length domain_parts in
      let company :=
        if (2 <? n)%nat then
          let second_last := nth (n - 2) domain_parts [] in
          if negb (existsb (fun x => str_eqb (lit x) second_last) ["co"; "com"; "net"; "org"]%string)
          then second_last
          else nth (n - 3) domain_parts []
        else List.hd [] domain_parts in
      let company := replace (lit "_") (lit " ") (replace (lit "-") (lit " ") company) in
      Some (join [c_space] (map capitalize (words company)))
  | _ => None
  end.

Definition of_option (o : option str) : value :=
  match o with Some x => VStr x | None => VNone end.

(** The parser, the cleaner and the search around the address in the page are
    collaborators; [_find_contact_info_near_email] catches its own exceptions
    and always returns a dictionary. *)
Variable soup : Type.
(** [BeautifulSoup(content, 'html.parser')] and
    [self.text_processor.clean_html(content)]; [None] when they raise. *)
Variable parse_html : str -> option soup.
Variable clean_html : str -> option str.
Variable _find_contact_info_near_email : soup -> str -> str -> str -> dict.

(** One candidate: its ['email'] entry and the other entries. *)
Definition email_data : Type := str * dict.

(** The body of the loop of [match_contacts] for one candidate. *)
Definition match_contact (sp : soup) (text_content source_url : str)
    (ed : email_data) : dict :=
  let '(email, data) := ed in
  let contact : dict :=
    list_to_map
      [("email"%string, VStr email);
       ("source_url"%string, VStr source_url);
       ("extraction_method"%string, get_or "method" (VStr (lit "unknown")) data);
       ("confidence"%string, get_or "confidence" (VNum (dec 5 10)) data);
       ("context"%string, get_or "context" (VStr []) data)] in
  let context := match get_or "context" (VStr []) data with VStr c => c | _ => [] end in
  let contact_info := _find_contact_info_near_email sp text_content email context in
  (* contact.update(contact_info) *)
  let contact := contact_info ∪ contact in
  let contact :=
    if negb (truthy (get "name" contact))
    then <["name"%string := of_option (_extract_name_from_email email)]> contact
    else contact in
  let contact :=
    if negb (truthy (get "company" contact))
    then <["company"%string := of_option (_extract_company_from_domain email)]> contact
    else contact in
  contact.

(** [match_contacts] (lines 31-76) *)
Definition match_contacts (content : str) (emails : list email_data)
    (source_url : str) : list dict :=
  match parse_html content, clean_html content with
  | Some sp, Some text_content => map (match_contact sp text_content source_url) emails
  | _, _ =>
      map (fun ed => list_to_map [("email"%string, VStr (fst ed));
                                  ("source_url"%string, VStr source_url)]) emails
  end.

Import Outcome.

(** [ContactPatterns.job_title_patterns] and [company_patterns] of
    utils/patterns.py, each with its number of groups. *)
Definition cap_word : regex := Cat WebsiteCrawler.AZ (plus WebsiteCrawler.az).
(** [[A-Z][a-z]+(?:\s+[A-Z][a-z]+)*] *)
Definition cap_words : regex := Cat cap_word (star (Cat (plus (Chr cls_s)) cap_word)).

Definition listed_titles (titles : list string) : regex * nat :=
  (seq [wordb; Grp 1 (alt (map iword titles)); wordb], 1%nat).

Definition job_title_patterns : list (regex * nat) :=
  [ listed_titles ["CEO"; "CTO"; "CFO"; "COO"; "President"; "Vice President"; "VP";
                   "Director"; "Manager"; "Senior Manager"]%string;
    listed_titles ["Software Engineer"; "Senior Software Engineer"; "Lead Engineer";
                   "Principal Engineer"; "Architect"; "Tech Lead"]%string;
    listed_titles ["Business Analyst"; "Product Manager"; "Project Manager";
                   "Account Manager"; "Sales Manager"]%string;
    listed_titles ["Marketing Manager"; "Digital Marketing Specialist"; "Content Manager";
                   "SEO Specialist"]%string;
    (seq [wordb;
          Grp 1 (alt (map word ["Senior"; "Junior"; "Lead"; "Principal"; "Chief"]%string));
          plus (Chr cls_s); Grp 2 cap_words; wordb], 2%nat);
    (seq [wordb; Grp 1 cap_words; plus (Chr cls_s);
          alt (map word ["Manager"; "Director"; "Engineer"; "Analyst"; "Specialist";
                         "Coordinator"]%string);
          wordb], 1%nat)
  ].

(** [[A-Za-z\s&]] *)
Definition company_chars (c : N) : bool := is_ascii_letter c || cls_s c || (c =? 38).

Definition company_patterns : list (regex * nat) :=
  [ (* \b([A-Z][A-Za-z\s&]+)\s+(?:Inc|Corp|LLC|Ltd|Co|Company|Corporation|Limited)\b\.? *)
    (seq [wordb; Grp 1 (Cat WebsiteCrawler.AZ (plus (Chr company_chars))); plus (Chr cls_s);
          alt (map word ["Inc"; "Corp"; "LLC"; "Ltd"; "Co"; "Company"; "Corporation";
                         "Limited"]%string);
          wordb; opt (chr c_dot)], 1%nat);
    (* \b(?:at|with)\s+([A-Z][A-Za-z\s&]+)(?:\s|$), re.IGNORECASE *)
    (seq [wordb; alt [iword "at"; iword "with"]; plus (Chr cls_s);
          Grp 1 (Cat (Chr (ignorecase is_ascii_upper)) (plus (Chr (ignorecase company_chars))));
          Alt (Chr cls_s) Eol], 1%nat);
    (* "([A-Z][A-Za-z\s&]+)" *)
    (seq [chr 34; Grp 1 (Cat WebsiteCrawler.AZ (plus (Chr company_chars))); chr 34], 1%nat);
    (* a capitalised word and one to three more, each starting with a capital or an ampersand:
       \b([A-Z][A-Za-z]+(?:\s+[A-Z&][A-Za-z]* ){1,3})\b, without the blank *)
    (seq [wordb;
          Grp 1 (Cat (Cat WebsiteCrawler.AZ (plus (Chr is_ascii_letter)))
                     (between 1 3 (seq [plus (Chr cls_s);
                                        Chr (fun c => is_ascii_upper c || (c =? 38));
                                        star (Chr is_ascii_letter)])));
          wordb], 1%nat)
  ].

(** An item of [pattern.findall(text)]: the string of the group when the
    pattern has one group, the tuple of the groups when it has more. *)
Inductive found : Type :=
| FoundStr (x : str)
| FoundTuple (xs : list str).

Definition findall (pattern : regex * nat) (text : str) : list found :=
  map (fun m =>
         if (snd pattern =? 1)%nat then FoundStr (group 1 m)
         else FoundTuple (map (fun i => group i m) (List.seq 1 (snd pattern))))
      (re_finditer (fst pattern) text).

(** [match.strip()]: a tuple has no such method. *)
Definition found_strip (item : found) : outcome str :=
  match item with
  | FoundStr x => Returned (strip x)
  | FoundTuple _ => Raised
  end.

(** [self._is_valid_job_title(title)] and
    [self._is_valid_company_name(company)]: [ContactMatcher] defines neither
    method, and the attribute lookup raises [AttributeError]. *)
Definition _is_valid_job_title (title : str) : outcome bool := Raised.
Definition _is_valid_company_name (company : str) : outcome bool := Raised.

(** The loops of [_find_job_titles] and [_find_company_names] inside their
    [try]: the items that pass the test are collected; an exception ends the
    search ([true]), and what was collected so far is returned. *)
Fixpoint keep_valid (valid : str -> outcome bool) (matches : list found) (kept : list str)
    : list str * bool :=
  match matches with
  | [] => (kept, false)
  | item :: rest =>
      match (x ← found_strip item; ok ← valid x; mret (x, ok)) with
      | Raised => (kept, true)
      | Returned (x, ok) => keep_valid valid rest (if ok : bool then kept ++ [x] else kept)
      end
  end.

Fixpoint find_valid (valid : str -> outcome bool) (patterns : list (regex * nat))
    (text : str) (kept : list str) : list str :=
  match patterns with
  | [] => kept
  | pattern :: rest =>
      let '(kept, raised) := keep_valid valid (findall pattern text) kept in
      if raised : bool then kept else find_valid valid rest text kept
  end.

(** [_find_job_titles] (lines 356-371) and [_find_company_names] (lines
    373-388) *)
Definition _find_job_titles (text : str) : list str :=
  find_valid _is_valid_job_title job_title_patterns text [].

Definition _find_company_names (text : str) : list str :=
  find_valid _is_valid_company_name company_patterns text [].

End Matcher.

End ContactMatcher.

(* ===================================================================== *)
(** * utils/validators.py *)
(* ===================================================================== *)

Module DataValidator.
Import Py Re Data.

(** Stable sort by decreasing key: [sorted(xs, key=key, reverse=True)].  An
    element is inserted before the first element whose key is not greater. *)
Fixpoint insert_desc {A : Type} (key : A -> Qc) (x : A) (l : list A) : list A :=
  match l with
  | [] => [x]
  | y :: t => if bool_decide (key x < key y)%Qc then y :: insert_desc key x t else x :: y :: t
  end.

Definition sorted_desc {A : Type} (key : A -> Qc) (l : list A) : list A :=
  foldr (insert_desc key) [] l.

Section Validator.
Context {U : Unicode}.

(** [self.config.validate_emails], and the [email_validator] package:
    [None] when it is not installed ([HAS_EMAIL_VALIDATOR] is false),
    otherwise what [validate_email(email).email] gives, [None] standing for
    [EmailNotValidError]. *)
Variable validate_emails : bool.
Variable email_validator : option (str -> option str).

(** [ValidationPatterns] of utils/patterns.py *)
Definition invalid_email_patterns : list regex :=
  [ at_least 2 (chr c_dot);                           (* \.{2,} *)
    Alt (Cat Bol (chr c_dot)) (Cat (chr c_dot) Eol);  (* ^\.|\.$ *)
    Cat (chr c_at) (chr c_dot);                       (* @\. *)
    Cat (chr c_dot) (chr c_at);                       (* \.@ *)
    seq [chr c_at; star (Chr (fun c => negb (c =? c_nl))); chr c_at]  (* @.*@ *)
  ].

Definition non_name_patterns : list regex :=
  [ seq [wordb; alt (map iword ["email"; "contact"; "info"; "admin"; "webmaster";
                                "support"; "sales"; "marketing"]%string); wordb];
    seq [wordb; alt (map iword ["lorem"; "ipsum"; "dolor"; "sit"; "amet"]%string); wordb];
    seq [wordb; alt (map iword ["click"; "here"; "more"; "read"; "view";
                                "download"]%string); wordb]
  ].

(** [r'^[a-zA-Z0-9._%+-]+@[a-zA-Z0-9.-]+\.[a-zA-Z]{2,}$'] *)
Definition basic_format : regex := WebsiteCrawler.email_pattern.

Definition any_search (patterns : list regex) (x : str) : bool :=
  existsb (fun p => bool_decide (re_search p x <> None)) patterns.

(** [_validate_email] (lines 112-147) *)
Definition _validate_email (email : value) : option str :=
  match email with
  | VStr email =>
      if bool_decide (email = []) then None
      else
        let email := lower (strip email) in
        if any_search invalid_email_patterns email then None
        else
          let checked :=
            match validate_emails, email_validator with
            | true, Some validate_email => validate_email email
            | _, _ => if bool_decide (re_match basic_format email <> None)
                      then Some email else None
            end in
          match checked with
          | None => None
          | Some email =>
              match split c_at email with
              | _ :: _ :: _ => Some email
              | _ => None (* except IndexError *)
              end
          end
  | _ => None
  end.

(** [valid / total < 0.8], on counts: both are at most 100 here, where the
    quotient of floats and the exact quotient compare alike with 0.8. *)
Definition below_four_fifths (valid total : nat) : bool := (valid * 10 <? 8 * total)%nat.

Definition count_chars (p : N -> bool) (x : str) : nat := length (List.filter p x).

(** The capitalisation of one part of a name. *)
Definition capitalize_part (part : str) : str :=
  if contains (lit "'") part
  then join (lit "'") (map capitalize (split 39 part))
  else if startswith (lit "mc") (lower part)
  then lit "Mc" ++ capitalize (skipn 2 part)
  else capitalize part.

(** [_validate_name] (lines 149-186) *)
Definition _validate_name (name : value) : option str :=
  match name with
  | VStr name =>
      if bool_decide (name = []) then None
      else
        let name := strip (join [c_space] (words name)) in
        if (len name <? 2)%Z || (100 <? len name)%Z then None
        else if any_search non_name_patterns name then None
        else if below_four_fifths
                  (count_chars (fun c => uni_isalpha c || uni_isspace c || one_of "'-." c) name)
                  (length name)
        then None
        else
          let name_parts := map capitalize_part (words name) in
          match name_parts with
          | [] => None
          | _ => Some (join [c_space] name_parts)
          end
  | _ => None
  end.

(** The two formats of [_validate_phone]. *)
Definition sep : regex := Chr (fun c => one_of "-." c || cls_s c).
Definition digit09 : regex := Chr is_ascii_digit.
Definition phone_formats : list regex :=
  [ (* ^\+?1?[-.\s]?\(?[0-9]{3}\)?[-.\s]?[0-9]{3}[-.\s]?[0-9]{4}$ *)
    seq [Bol; opt (chr c_plus); opt (chr 49); opt sep; opt (chr 40); times 3 digit09;
         opt (chr 41); opt sep; times 3 digit09; opt sep; times 4 digit09; Eol];
    (* ^\+?[1-9]\d{1,14}$ *)
    seq [Bol; opt (chr c_plus); Chr (in_range 49 57); between 1 14 (Chr cls_d); Eol]
  ].

(** [_validate_phone] (lines 188-212) *)
Definition _validate_phone (phone : value) : option str :=
  match phone with
  | VStr phone =>
      if bool_decide (phone = []) then None
      else
        let cleaned :=
          strip (re_sub (Chr (fun c => negb (cls_d c || one_of "+()-" c || cls_s c))) [] phone) in
        let digits_only := re_sub (Chr (fun c => negb (cls_d c))) [] cleaned in
        if (len digits_only <? 7)%Z || (15 <? len digits_only)%Z then None
        else if existsb (fun p => bool_decide (re_match p cleaned <> None)) phone_formats
        then Some cleaned
        else None
  | _ => None
  end.

Definition in_words (ws : list string) (x : str) : bool :=
  existsb (fun k => str_eqb (lit k) x) ws.

(** [enumerate(words)] with the test [i == 0]. *)
Definition title_case_words (words : list str) : list str :=
  match words with
  | [] => []
  | first :: rest =>
      capitalize first ::
      map (fun word =>
             if negb (in_words ["of"; "and"; "the"; "for"; "at"; "in"; "on"; "to"; "a"; "an"]%string
                               (lower word))
             then capitalize word else lower word)
          rest
  end.

(** [_validate_title] (lines 214-242) *)
Definition _validate_title (title : value) : option str :=
  match title with
  | VStr title =>
      if bool_decide (title = []) then None
      else
        let title := strip (join [c_space] (words title)) in
        if (len title <? 2)%Z || (100 <? len title)%Z then None
        else if below_four_fifths
                  (count_chars (fun c => uni_isalnum c || one_of " -&/()." c) title)
                  (length title)
        then None
        else Some (join [c_space] (title_case_words (words title)))
  | _ => None
  end.

(** [_validate_company] (lines 244-273) *)
Definition _validate_company (company : value) : option str :=
  match company with
  | VStr company =>
      if bool_decide (company = []) then None
      else
        let company := strip (join [c_space] (words company)) in
        if (len company <? 2)%Z || (100 <? len company)%Z then None
        else if below_four_fifths
                  (count_chars (fun c => uni_isalnum c || one_of " -&.,()'/" c) company)
                  (length company)
        then None
        else
          Some (join [c_space]
            (map (fun word =>
                    if in_words ["LLC"; "Inc"; "Corp"; "Ltd"; "Co"; "LP"; "LLP"; "PC"]%string
                                (upper word)
                    then upper word
                    else if in_words ["and"; "of"; "the"; "for"]%string (lower word)
                    then lower word
                    else capitalize word)
                 (words company)))
  | _ => None
  end.

(** [_calculate_validation_score] (lines 275-296): the field bonuses, added
    one after the other as the source does, times the extraction confidence,
    capped at 1, all in float arithmetic; multiplying by a confidence that is
    no number raises. *)
Definition bonus (k : string) (q : Qc) (contact : dict) (score : Qc) : Qc :=
  if truthy (get k contact) then Float64.fadd score q else score.

Definition _calculate_validation_score (contact : dict) : outcome Qc :=
  let score := Float64.fadd 0 (dec 3 10) in
  let score := bonus "name" (dec 2 10) contact score in
  let score := bonus "phone" (dec 2 10) contact score in
  let score := bonus "title" (dec 15 100) contact score in
  let score := bonus "company" (dec 15 100) contact score in
  match get_or "confidence" (VNum (dec 5 10)) contact with
  | VNum extraction_confidence =>
      let score := Float64.fmul score extraction_confidence in
      Returned (if bool_decide (score < 1)%Qc then score else 1%Qc)
  | _ => Raised
  end.

(** [if k in contact: v = validate(contact[k]); if v: validated[k] = v] *)
Definition add_validated (k : string) (validate : value -> option str)
    (contact validated : dict) : dict :=
  match contact !! k with
  | Some v =>
      match validate v with
      | Some v' => if bool_decide (v' = []) then validated else <[k := VStr v']> validated
      | None => validated
      end
  | None => validated
  end.

(** [for key, value in contact.items(): if key not in validated_contact and
    value: validated_contact[key] = value] *)
Definition copy_other_fields (contact validated : dict) : dict :=
  validated ∪ omap (fun v => if truthy v then Some v else None) contact.

(** [_validate_single_contact] (lines 61-110) *)
Definition _validate_single_contact (contact : dict) : outcome (option dict) :=
  let email := get "email" contact in
  if negb (truthy email) then Returned None
  else
    match _validate_email email with
    | None => Returned None
    | Some validated_email =>
        if bool_decide (validated_email = []) then Returned None
        else
          let validated_contact : dict :=
            list_to_map
              [("email"%string, VStr validated_email);
               ("source_url"%string, get_or "source_url" (VStr []) contact);
               ("extraction_method"%string,
                  get_or "extraction_method" (VStr (lit "unknown")) contact);
               ("confidence"%string, get_or "confidence" (VNum (dec 5 10)) contact)] in
          let validated_contact := add_validated "name" _validate_name contact validated_contact in
          let validated_contact := add_validated "phone" _validate_phone contact validated_contact in
          let validated_contact := add_validated "title" _validate_title contact validated_contact in
          let validated_contact :=
            add_validated "company" _validate_company contact validated_contact in
          match _calculate_validation_score validated_contact with
          | Raised => Raised
          | Returned score =>
              let validated_contact := <["validation_score"%string := VNum score]> validated_contact in
              Returned (Some (copy_other_fields contact validated_contact))
          end
    end.

(** [validate_contacts] (lines 46-59): a contact whose validation raises is
    logged and left out. *)
Definition validate_contacts (contacts : list dict) : list dict :=
  flat_map (fun contact =>
              match _validate_single_contact contact with
              | Returned (Some validated_contact) => [validated_contact]
              | _ => []
              end)
           contacts.

(** [contacts[i:i + batch_size]] for [i] in steps of a positive
    [batch_size]. *)
Fixpoint slices_of (fuel batch_size : nat) (contacts : list dict) : list (list dict) :=
  match fuel with
  | O => []
  | S f =>
      match contacts with
      | [] => []
      | _ => firstn batch_size contacts :: slices_of f batch_size (skipn batch_size contacts)
      end
  end.

(** [validate_batch] (lines 318-329).  [range(0, n, 0)] raises [ValueError],
    and [range(0, n, batch_size)] is empty for a negative [batch_size]. *)
Definition validate_batch (contacts : list dict) (batch_size : Z) : outcome (list dict) :=
  if (batch_size =? 0)%Z then Raised
  else if (batch_size <? 0)%Z then Returned []
  else Returned (flat_map validate_contacts
                   (slices_of (length contacts) (Z.to_nat batch_size) contacts)).

End Validator.

(** The sort key [x.get('validation_score', 0)]; [None] when the entry is no
    number (the comparison of the keys is then not the order on numbers). *)
Definition score_key (contact : dict) : option Qc :=
  match contact !! "validation_score"%string with
  | None => Some 0%Qc
  | Some (VNum q) => Some q
  | Some _ => None
  end.

Definition score (contact : dict) : Qc := default 0%Qc (score_key contact).

(** The loop of [deduplicate_contacts] over the sorted contacts. *)
Fixpoint keep_first_seen (seen_emails : gset value) (contacts : list dict) : list dict :=
  match contacts with
  | [] => []
  | contact :: rest =>
      let email := get "email" contact in
      if truthy email && negb (bool_decide (email ∈ seen_emails))
      then contact :: keep_first_seen ({[email]} ∪ seen_emails) rest
      else keep_first_seen seen_emails rest
  end.

(** [deduplicate_contacts] (lines 298-316), for contacts whose scores are
    numbers. *)
Definition deduplicate_contacts (contacts : list dict) : option (list dict) :=
  if forallb (fun c => bool_decide (score_key c <> None)) contacts
  then Some (keep_first_seen ∅ (sorted_desc score contacts))
  else None.

End DataValidator.

(* ===================================================================== *)
(** * crawler/website_crawler.py: the results of a page and of a run *)
(* ===================================================================== *)

Module CrawlerResults.
Import Py Re Data Outcome WebsiteCrawler.

Section Results.
Context {U : Unicode} {W : Web}.

(** ** Duplicates among the addresses of a page *)

(** [email_data.get(key) and email_data[key].strip()], as a truth value; a
    number other than zero has no [strip]. *)
Definition field_filled (email_data : dict) (key : string) : outcome bool :=
  match get key email_data with
  | VNone => Returned false
  | VStr x => Returned (negb (bool_decide (x = [])) && negb (bool_decide (strip x = [])))
  | VNum q => if bool_decide (q = 0%Qc) then Returned false else Raised
  end.

(** [_count_filled_fields] (lines 1241-1247) *)
Definition _count_filled_fields (email_data : dict) : outcome Z :=
  foldl (fun count key =>
           count ← count;
           filled ← field_filled email_data key;
           mret (if filled : bool then count + 1 else count)%Z)
        (mret 0%Z) ["name"; "title"; "company"; "phone"]%string.







(** ** Enhancement of the addresses found by the fallback extraction *)

(** [extract_institution_info] (lines 1428-1449) *)
Definition extract_institution_info (url email_domain : str) : outcome str :=
  if contains (lit ".edu") email_domain then
    let domain_parts := split c_dot (replace (lit ".edu") [] email_domain) in
    let institution := title (replace (lit "-") (lit " ") (List.hd [] domain_parts)) in
    Returned (if negb (contains (lit "university") (lower institution))
              then institution ++ lit " University" else institution)
  else
    parsed ← urlparse url;
    let domain := lower (netloc parsed) in
    if contains (lit "university") domain || contains (lit "college") domain
       || contains (lit ".edu") domain
    then Returned (title (replace (lit "-") (lit " ")
                     (replace (lit ".edu") []
                        (replace (lit ".com") [] (replace (lit "www.") [] domain)))))
    else Returned (lit "Unknown").

(** [title_mapping], in insertion order. *)
Definition title_mapping : list (string * string) :=
  [ ("prof", "Professor"); ("assoc prof", "Associate Professor");
    ("asst prof", "Assistant Professor"); ("dr", "Dr.") ]%string.

(** The body of the loop of [enhance_extracted_data], on one record: the
    name, the company, the title, the confidence. *)
Definition enhance_name (result : dict) : outcome dict :=
  let current_name := get_or "name" (VStr []) result in
  let email := get_or "email" (VStr []) result in
  improve ← (if negb (truthy current_name) then Returned true
             else name ← as_str current_name;
                  email ← as_str email;
                  mret (str_eqb (lower name) (lower (List.hd [] (split c_at email)))));
  if improve : bool then
    email ← as_str email;
    mret (<["name"%string := VStr (infer_name_from_email email)]> result)
  else mret result.

Definition enhance_company (url : str) (result : dict) : outcome dict :=
  let email := get_or "email" (VStr []) result in
  if bool_decide (get "company" result = VStr (lit "Edu")) || negb (truthy (get "company" result))
  then
    email ← as_str email;
    match split c_at email with
    | _ :: email_domain :: _ =>
        company ← extract_institution_info url email_domain;
        mret (<["company"%string := VStr company]> result)
    | _ => Raised (* IndexError *)
    end
  else mret result.

Definition enhance_title (result : dict) : outcome dict :=
  let title := get_or "title" (VStr []) result in
  if truthy title then
    title ← as_str title;
    mret (match List.find (fun '(abbrev, _) => contains (lit abbrev) (lower title))
                          title_mapping with
          | Some (_, full) => <["title"%string := VStr (lit full)]> result
          | None => result
          end)
  else mret result.

Definition enhance_confidence (result : dict) : outcome dict :=
  if truthy (get "name" result) && truthy (get "title" result) then
    match get_or "confidence" (VNum (dec 5 10)) result with
    | VNum confidence =>
        let raised := Float64.fadd confidence (dec 2 10) in
        mret (<["confidence"%string :=
                  VNum (if bool_decide (raised < 1)%Qc then raised else 1%Qc)]> result)
    | _ => Raised (* TypeError *)
    end
  else mret result.

Definition enhance_result (url : str) (result : dict) : outcome dict :=
  result ← enhance_name result;
  result ← enhance_company url result;
  result ← enhance_title result;
  enhance_confidence result.

(** [enhance_extracted_data] (lines 1451-1490) *)
Fixpoint enhance_extracted_data (results : list dict) (url : str) : outcome (list dict) :=
  match results with
  | [] => Returned []
  | result :: rest =>
      match enhance_result url result with
      | Raised => Raised
      | Returned result =>
          match enhance_extracted_data rest url with
          | Raised => Raised
          | Returned enhanced => Returned (result :: enhanced)
          end
      end
  end.

(** ** The links of a page *)

(** The parser and [urljoin] are collaborators; [None] and [Raised] stand
    for their exceptions. *)
Variable soup : Type.
Variable tag : Type.
Variable parse_html : str -> option soup.
(** [soup.find_all('a', href=True)] and [link['href']] *)
Variable find_all_a_href : soup -> list tag.
Variable href_of : tag -> str.
Variable urljoin : str -> str -> outcome str.

Fixpoint absolute_links (base_url : str) (found : list tag) : outcome (list str) :=
  match found with
  | [] => Returned []
  | link :: rest =>
      let href := strip (href_of link) in
      if bool_decide (href = []) then absolute_links base_url rest
      else
        match urljoin base_url href with
        | Raised => Raised
        | Returned absolute_url =>
            let absolute_url := List.hd [] (split 35 absolute_url) in
            match absolute_links base_url rest with
            | Raised => Raised
            | Returned links => Returned (absolute_url :: links)
            end
        end
  end.

(** [_extract_links] (lines 189-208): on any exception, no link at all. *)
Definition _extract_links (content base_url : str) : list str :=
  match parse_html content with
  | None => []
  | Some sp => catch (absolute_links base_url (find_all_a_href sp)) []
  end.

(** ** The results of a run *)

(** [self.config.validate_emails] and the [email_validator] package, as in
    [DataValidator]; the time stamp of a page result; the exporter. *)
Variable validate_emails : bool.
Variable email_validator : option (str -> option str).
Variable timestamp : CrawlResult -> value.
Variable export_results : list dict -> str -> outcome str.

(** The first loop of [_process_results]: every contact gets the address of
    its page. *)
Definition all_contacts (crawl_results : list CrawlResult) : list dict :=
  flat_map (fun result =>
              map (fun contact =>
                     <["crawl_timestamp"%string := timestamp result]>
                       (<["source_url"%string := VStr (result_url result)]> contact))
                  (result_contacts result))
           crawl_results.

(** [_process_results] (lines 1276-1313), for contacts whose scores are
    numbers ([None] otherwise, as [deduplicate_contacts]).  An exception of
    the exporter is logged and raised again. *)
Definition _process_results (crawl_results : list CrawlResult) (start_url : str)
    : option (outcome (list dict)) :=
  let contacts := all_contacts crawl_results in
  let contacts :=
    if validate_emails
    then DataValidator.validate_contacts validate_emails email_validator contacts
    else contacts in
  match DataValidator.deduplicate_contacts contacts with
  | None => None
  | Some contacts =>
      Some (output_file ← export_results contacts start_url; mret contacts)
  end.

End Results.

End CrawlerResults.

(* ===================================================================== *)
(** * utils/exporters.py *)
(* ===================================================================== *)

Module ResultExporter.
Import Py Data.

(** One value of [_clean_contact_for_export]: [None] becomes the empty
    string, a string loses its line breaks and is cut to 1000 characters, a
    number stays; the dictionaries hold no other values.  (13 is the carriage
    return.) *)
Definition clean_value (v : value) : value :=
  match v with
  | VNone => VStr []
  | VStr x => VStr (firstn 1000 (replace [13] (lit " ") (replace [c_nl] (lit " ") x)))
  | VNum q => VNum q
  end.

(** [_clean_contact_for_export] (lines 156-169) *)
Definition _clean_contact_for_export (contact : dict) : dict := clean_value <$> contact.

End ResultExporter.


(* ===================================================================== *)
(** * A small site, for running the crawl *)
(* ===================================================================== *)

Module SampleSite.
Import Py Re Data WebsiteCrawler.

(** The part of [urllib.parse.urlparse] that absolute URLs with an authority
    exercise: the authority runs from [//] to the next [/], [?] or [#]; an
    unbalanced bracket in it raises [ValueError] ("Invalid IPv6 URL"); the
    query runs from [?] to [#]. *)
Fixpoint take_until (stop : N -> bool) (x : str) : str :=
  match x with
  | [] => []
  | c :: t => if stop c then [] else c :: take_until stop t
  end.

Definition after_scheme (url : str) : option str :=
  match find_from (lit "://") url 0 with
  | Some i => Some (skipn (i + 3) url)
  | None => None
  end.

Definition sample_urlparse (url : str) : outcome ParseResult :=
  match after_scheme url with
  | Some rest =>
      let authority := take_until (one_of "/?#") rest in
      if xorb (contains (lit "[") authority) (contains (lit "]") authority) then Raised
      else
        let rest := skipn (length authority) rest in
        let path := take_until (one_of "?#") rest in
        let rest := skipn (length path) rest in
        let query := match rest with
                     | 63 :: q => take_until (one_of "#") q
                     | _ => []
                     end in
        Returned {| netloc := authority; path := path; query := query |}
  | None =>
      Returned {| netloc := []; path := take_until (one_of "?#") url; query := [] |}
  end.

(** [parse_qs] on [k=v&k=v] strings without escapes. *)
Definition sample_parse_qs (q : str) : outcome (gmap str (list str)) :=
  Returned
    (foldr (fun field (m : gmap str (list str)) =>
              match split 61 field with
              | [k; v] => if bool_decide (v = []) then m
                          else <[k := v :: default [] (m !! k)]> m
              | _ => m
              end)
           ∅ (split 38 q)).

(** [int] on strings of ASCII digits. *)
Definition sample_int (x : str) : option Z :=
  if bool_decide (x = []) || negb (forallb is_ascii_digit x) then None
  else Some (fold_left (fun acc c => (acc * 10 + Z.of_N (c - 48))%Z) x 0%Z).

Definition page_a : str := lit "https://site.example/a".
Definition page_b : str := lit "https://site.example/b".
Definition page_c : str := lit "https://site.example/c".

(** Three pages: [a] links to [b] and [c]; [b] and [c] link to each other. *)
Definition site_links (url : str) : option (list str) :=
  if str_eqb url page_a then Some [page_b; page_c]
  else if str_eqb url page_b then Some [page_c]
  else if str_eqb url page_c then Some [page_b]
  else None.

(** Every page of the site is served on every request and holds no address;
    robots.txt allows everything; the content of a page is represented by its
    address. *)
#[export] Instance sample_web : Web := {|
  urlparse := sample_urlparse;
  parse_qs := sample_parse_qs;
  py_int := sample_int;
  load_robots := fun _ => Returned (fun _ _ => Returned true);
  crawl_page := fun _ url _ =>
    match site_links url with
    | Some _ => Crawled {| result_url := url; result_contacts := [] |}
    | None => Failed (lit "404 Not Found")
    end;
  fetch_page := fun _ url =>
    match site_links url with
    | Some _ => inl url
    | None => inr (lit "404 Not Found")
    end;
  extract_links := fun content _ => default [] (site_links content);
  set_to_list := elements;
  set_to_list_perm := fun X => reflexivity (elements X);
|}.

(** The same site behind a robots.txt whose parser raises on every query. *)
Definition broken_robots_web : Web := {|
  urlparse := sample_urlparse;
  parse_qs := sample_parse_qs;
  py_int := sample_int;
  load_robots := fun _ => Returned (fun _ _ => Raised);
  crawl_page := crawl_page (Web := sample_web);
  fetch_page := fetch_page (Web := sample_web);
  extract_links := extract_links (Web := sample_web);
  set_to_list := elements;
  set_to_list_perm := fun X => reflexivity (elements X);
|}.

(** The same site where loading robots.txt raises. *)
Definition unloadable_robots_web : Web := {|
  urlparse := sample_urlparse;
  parse_qs := sample_parse_qs;
  py_int := sample_int;
  load_robots := fun _ => Raised;
  crawl_page := crawl_page (Web := sample_web);
  fetch_page := fetch_page (Web := sample_web);
  extract_links := extract_links (Web := sample_web);
  set_to_list := elements;
  set_to_list_perm := fun X => reflexivity (elements X);
|}.

Definition sample_config : Config := {|
  max_depth := 3;
  max_pages := 10;
  user_agent := lit "EmailExtractor/1.0";
  allowed_domains := None;
  excluded_domains := None;
  excluded_extensions := [lit ".pdf"; lit ".doc"; lit ".docx"; lit ".zip"; lit ".rar"];
|}.

End SampleSite.

(* ===================================================================== *)
(** * Part II: properties *)
(* ===================================================================== *)

(** ** The matcher computes the declarative reading *)

Module ReFacts.
Import Py Re.

Definition progress (x y : cursor) : Prop := (length (after y) < length (after x))%nat.

Lemma le_opt_dec_hi n hi :
  allows_more hi = true -> le_opt n (dec_hi hi) -> le_opt (S n) hi.
Proof.
  destruct hi as [[|h]|]; simpl; try discriminate; intros _ Hn; lia || exact I.
Qed.

Lemma le_opt_S_inv n hi :
  le_opt (S n) hi -> allows_more hi = true /\ le_opt n (dec_hi hi).
Proof.
  destruct hi as [[|h]|]; simpl; intros Hn; split; try reflexivity; try lia; exact I.
Qed.

(** Whatever the loop returns was accepted by the continuation after some
    admissible number of consuming iterations. *)
Lemma rep_loop_sound (body : cursor -> caps -> cont -> result)
    (R : cursor -> cursor -> Prop) :
  (forall c cs k res, body c cs k = Some res ->
     exists c' cs', R c c' /\ k c' cs' = Some res) ->
  forall fuel lo hi c cs k res,
    rep_loop body fuel lo hi c cs k = Some res ->
    exists n c' cs', (lo <= n)%nat /\ le_opt n hi /\
      iter (fun x y => R x y /\ progress x y) n c c' /\ k c' cs' = Some res.
Proof.
  intros Hbody. induction fuel as [|fuel IH]; intros lo hi c cs k res; simpl.
  - discriminate.
  - destruct (allows_more hi) eqn:Hmore.
    + match goal with |- context [body c cs ?K] => destruct (body c cs K) as [r1|] eqn:Hb end.
      * intros [= ->].
        apply Hbody in Hb as (c1 & cs1 & HR & Hk).
        destruct (length (after c1) <? length (after c))%nat eqn:Hlt; [|discriminate].
        apply Nat.ltb_lt in Hlt.
        apply IH in Hk as (n & c' & cs' & Hlo & Hhi & Hit & Hk).
        exists (S n), c', cs'. repeat split; [lia|by apply le_opt_dec_hi| |done].
        simpl. exists c1. by repeat split.
      * destruct (lo =? 0)%nat eqn:Hz; [|discriminate]. apply Nat.eqb_eq in Hz.
        intros Hk. exists 0%nat, c, cs. repeat split; [lia| |done].
        destruct hi; simpl; [lia|exact I].
    + destruct (lo =? 0)%nat eqn:Hz; [|discriminate]. apply Nat.eqb_eq in Hz.
      intros Hk. exists 0%nat, c, cs. repeat split; [lia| |done].
      destruct hi; simpl; [lia|exact I].
Qed.

Lemma run_sound r :
  forall c cs k res, run r c cs k = Some res ->
    exists c' cs', Matches r c c' /\ k c' cs' = Some res.
Proof.
  induction r as [|p|r1 IH1 r2 IH2|r1 IH1 r2 IH2|r IH lo hi|i r IH| | |w];
    intros c cs k res; cbn [run Matches].
  - intros Hk. by exists c, cs.
  - destruct (after c) as [|x t] eqn:Ha; [discriminate|].
    destruct (p x) eqn:Hp; [|discriminate]. intros Hk.
    exists (Cursor (x :: before c) t), cs. split; [|done]. by exists x, t.
  - intros H. apply IH1 in H as (c1 & cs1 & H1 & H).
    apply IH2 in H as (c2 & cs2 & H2 & H). exists c2, cs2. split; [|done]. by exists c1.
  - destruct (run r1 c cs k) as [r'|] eqn:H1.
    + intros [= ->]. apply IH1 in H1 as (c' & cs' & ? & ?). exists c', cs'. by split; [left|].
    + intros H2. apply IH2 in H2 as (c' & cs' & ? & ?). exists c', cs'. by split; [right|].
  - intros H. apply (rep_loop_sound _ (Matches r) IH) in H
      as (n & c' & cs' & Hlo & Hhi & Hit & Hk).
    exists c', cs'. split; [|done]. by exists n.
  - intros H. apply IH in H as (c' & cs' & Hm & Hk). by exists c', ((i, (pos c, pos c')) :: cs').
  - destruct (before c) eqn:Hb; [|discriminate]. intros Hk. by exists c, cs.
  - destruct (after c) as [|x [|y t]] eqn:Ha; try discriminate.
    + intros Hk. exists c, cs. split; [|done]. split; [by left|done].
    + destruct (x =? c_nl) eqn:Hx; [|discriminate]. apply N.eqb_eq in Hx as ->.
      intros Hk. exists c, cs. split; [|done]. split; [by right|done].
  - destruct (xorb _ _) eqn:Hx; [|discriminate]. intros Hk. by exists c, cs.
Qed.

(** Conversely, if some admissible number of iterations leads to a position
    the continuation accepts, the loop returns a match. *)
Lemma rep_loop_complete (body : cursor -> caps -> cont -> result)
    (R : cursor -> cursor -> Prop) :
  (forall c c' cs k, R c c' -> (forall cs', k c' cs' <> None) -> body c cs k <> None) ->
  forall n fuel lo hi c c' cs k,
    (length (after c) < fuel)%nat -> (lo <= n)%nat -> le_opt n hi ->
    iter (fun x y => R x y /\ progress x y) n c c' ->
    (forall cs', k c' cs' <> None) ->
    rep_loop body fuel lo hi c cs k <> None.
Proof.
  intros Hbody. induction n as [|n IH]; intros fuel lo hi c c' cs k Hfuel Hlo Hhi Hit Hk;
    (destruct fuel as [|fuel]; [lia|]); simpl in *.
  - subst c'. assert (lo = 0)%nat as -> by lia. simpl.
    destruct (if allows_more hi then _ else _); [done|apply Hk].
  - destruct Hit as (c1 & [HR Hpr] & Hit). unfold progress in Hpr.
    apply le_opt_S_inv in Hhi as [-> Hhi].
    match goal with |- context [body c cs ?K] => destruct (body c cs K) as [r1|] eqn:Hb end;
      [done|].
    exfalso. revert Hb. apply (Hbody c c1); [done|]. intros cs1.
    destruct (Nat.ltb_spec (length (after c1)) (length (after c))); [|lia].
    apply (IH fuel (pred lo) (dec_hi hi) c1 c'); [lia|lia|done|done|done].
Qed.

Lemma run_complete r :
  forall c c' cs k, Matches r c c' -> (forall cs', k c' cs' <> None) -> run r c cs k <> None.
Proof.
  induction r as [|p|r1 IH1 r2 IH2|r1 IH1 r2 IH2|r IH lo hi|i r IH| | |w];
    intros c c' cs k; cbn [run Matches].
  - intros <- Hk. apply Hk.
  - intros (x & t & -> & -> & ->) Hk. apply Hk.
  - intros (c1 & H1 & H2) Hk. apply (IH1 c c1); [done|]. intros cs1. by apply (IH2 c1 c').
  - intros [H|H] Hk.
    + specialize (IH1 c c' cs k H Hk). by destruct (run r1 c cs k).
    + destruct (run r1 c cs k); [done|]. by apply (IH2 c c').
  - intros (n & Hlo & Hhi & Hit) Hk.
    apply (rep_loop_complete _ (Matches r) IH n _ lo hi c c'); [lia|done..].
  - intros H Hk. apply (IH c c'); [done|]. intros cs'. apply Hk.
  - intros [-> <-] Hk. apply Hk.
  - intros [[->| ->] <-] Hk; [apply Hk|]. simpl. apply Hk.
  - intros [-> <-] Hk. apply Hk.
Qed.

(** [re.match] succeeds exactly when the pattern matches at the start. *)
Lemma re_match_iff r s :
  re_match r s <> None <-> exists c', Matches r (Cursor [] s) c'.
Proof.
  unfold re_match. split.
  - destruct (run r _ [] accept) as [res|] eqn:H; [|done]. intros _.
    apply run_sound in H as (c' & _ & H & _). by exists c'.
  - intros [c' H]. pose proof (run_complete r _ c' [] accept H) as Hc.
    destruct (run r _ [] accept); [done|]. exfalso. by apply Hc.
Qed.

Lemma scan_iff r : forall a b,
  scan r b a <> None <->
  exists pre suf c', a = pre ++ suf /\ Matches r (Cursor (rev pre ++ b) suf) c'.
Proof.
  induction a as [|x t IH]; intros b; simpl.
  - destruct (run r (Cursor b []) [] accept) as [res|] eqn:H.
    + split; [intros _|done]. apply run_sound in H as (c' & _ & H & _).
      by exists [], [], c'.
    + split; [done|]. intros (pre & suf & c' & Heq & Hm).
      symmetry in Heq. apply app_eq_nil in Heq as [-> ->]. simpl in Hm.
      exfalso. revert H. by apply (run_complete r _ c' [] accept Hm).
  - destruct (run r (Cursor b (x :: t)) [] accept) as [res|] eqn:H.
    + split; [intros _|done]. apply run_sound in H as (c' & _ & H & _).
      by exists [], (x :: t), c'.
    + rewrite IH. split.
      * intros (pre & suf & c' & -> & Hm). exists (x :: pre), suf, c'. split; [done|].
        simpl. by rewrite <- app_assoc.
      * intros ([|y pre] & suf & c' & Heq & Hm); simpl in *.
        -- subst suf. exfalso. revert H. by apply (run_complete r _ c' [] accept Hm).
        -- injection Heq as <- ->. exists pre, suf, c'. split; [done|].
           by rewrite <- app_assoc in Hm.
Qed.

(** [re.search] succeeds exactly when the pattern matches at some position. *)
Lemma re_search_iff r s :
  re_search r s <> None <->
  exists pre suf c', s = pre ++ suf /\ Matches r (Cursor (rev pre) suf) c'.
Proof.
  unfold re_search. rewrite scan_iff.
  split; intros (pre & suf & c' & -> & Hm); exists pre, suf, c'; split; try done;
    by rewrite ?app_nil_r in *.
Qed.

(** *** Matches consume input, and the scans never run out of fuel *)

(** [c'] is reached from [c] by reading some characters. *)
Definition reads (c c' : cursor) : Prop :=
  exists w, after c = w ++ after c' /\ before c' = rev w ++ before c.

Lemma reads_refl c : reads c c.
Proof. by exists []. Qed.

Lemma reads_trans a b c : reads a b -> reads b c -> reads a c.
Proof.
  intros (w1 & Ha1 & Hb1) (w2 & Ha2 & Hb2). exists (w1 ++ w2).
  rewrite Ha1, Ha2, Hb2, Hb1, rev_app_distr, !app_assoc. done.
Qed.

Lemma iter_reads (R : cursor -> cursor -> Prop) n :
  (forall x y, R x y -> reads x y) -> forall c c', iter R n c c' -> reads c c'.
Proof.
  intros HR. induction n as [|n IH]; intros c c'; simpl.
  - intros <-. apply reads_refl.
  - intros (c1 & H1 & H2). eapply reads_trans; [by apply HR|by apply IH].
Qed.

Lemma Matches_reads r : forall c c', Matches r c c' -> reads c c'.
Proof.
  induction r as [|p|r1 IH1 r2 IH2|r1 IH1 r2 IH2|r IH lo hi|i r IH| | |w];
    intros c c'; cbn [Matches].
  - intros <-. apply reads_refl.
  - intros (x & t & Ha & _ & ->). exists [x]. by rewrite Ha.
  - intros (c1 & H1 & H2). eapply reads_trans; [by apply IH1|by apply IH2].
  - intros [H|H]; [by apply IH1|by apply IH2].
  - intros (n & _ & _ & Hit). eapply iter_reads; [|exact Hit]. intros x y [H _]. by apply IH.
  - apply IH.
  - intros [_ <-]. apply reads_refl.
  - intros [_ <-]. apply reads_refl.
  - intros [_ <-]. apply reads_refl.
Qed.

(** A match found by the scan lies in the subject, at or after the position
    the scan started from. *)
Lemma scan_span r : forall a b m,
  scan r b a = Some m ->
  m_string m = rev b ++ a /\
  (length b <= m_start m <= m_end m)%nat /\ (m_end m <= length (rev b ++ a))%nat.
Proof.
  induction a as [|x t IH]; intros b m; simpl.
  - destruct (run r (Cursor b []) [] accept) as [res|] eqn:H; [|done]. intros [= <-].
    apply run_sound in H as (c' & cs' & (w & Ha & Hb)%Matches_reads & [= <-]).
    simpl in *. symmetry in Ha. apply app_eq_nil in Ha as [-> _].
    unfold mk_match, pos, subject. simpl in *. rewrite Hb, length_app, length_rev. simpl.
    split; [done|lia].
  - destruct (run r (Cursor b (x :: t)) [] accept) as [res|] eqn:H.
    + intros [= <-].
      apply run_sound in H as (c' & cs' & (w & Ha & Hb)%Matches_reads & [= <-]).
      simpl in *. unfold mk_match, pos, subject. simpl.
      rewrite Hb, !length_app, !length_rev. split; [done|].
      apply (f_equal length) in Ha. rewrite length_app in Ha. simpl in *. lia.
    + intros Hs. apply IH in Hs as (Hstr & Hpos & Hend). simpl in *.
      rewrite <- app_assoc in Hstr, Hend. simpl in *. split; [done|]. lia.
Qed.

(** The matches of a subject number at most its length plus one: more fuel
    finds nothing more. *)
Lemma finditer_from_enough r : forall f1 f2 b a,
  (length a < f1)%nat -> (length a < f2)%nat ->
  finditer_from r f1 b a = finditer_from r f2 b a.
Proof.
  induction f1 as [|f1 IH]; intros [|f2] b a H1 H2; try lia. simpl.
  destruct (scan r b a) as [m|] eqn:Hs; [|done].
  apply scan_span in Hs as (Hstr & Hpos & Hend).
  rewrite length_app, length_rev in Hend. f_equal.
  destruct (m_end m =? m_start m)%nat eqn:He.
  - destruct (m_end m <? length (m_string m))%nat eqn:Hlt; [|done].
    apply Nat.ltb_lt in Hlt. rewrite Hstr, length_app, length_rev in Hlt.
    apply IH; rewrite length_skipn, Hstr, length_app, length_rev; lia.
  - apply Nat.eqb_neq in He.
    apply IH; rewrite length_skipn, Hstr, length_app, length_rev; lia.
Qed.

Lemma re_finditer_fuel r s n :
  (length s < n)%nat -> finditer_from r n [] s = re_finditer r s.
Proof. intros H. apply finditer_from_enough; [done|lia]. Qed.

End ReFacts.

(** ** Float arithmetic on the numbers of the sources *)

Module FloatFacts.
Import Py Data Float64 TextProcessor.

(** [0.5] is a float; [0.3 + 0.15] is [0.44999999999999996] and [0.7 + 0.2]
    is [0.8999999999999999]; the five bonuses of the validation score add up
    to [1.0]. *)
Lemma sums_of_the_sources :
  dec 5 10 = Q2Qc (1 # 2) /\
  fadd (dec 3 10) (dec 15 100) = Q2Qc (2026619832316723 # 4503599627370496) /\
  fadd (dec 7 10) (dec 2 10) = Q2Qc (2026619832316723 # 2251799813685248) /\
  fadd (fadd (fadd (fadd (dec 3 10) (dec 2 10)) (dec 2 10)) (dec 15 100)) (dec 15 100) = 1%Qc.
Proof. split_and!; apply Qc_is_canon; vm_compute; reflexivity. Qed.

(** [90 * 0.7] is [62.99999999999999], below 63: a space at index 63 is a
    word boundary for a limit of 90, one at index 62 is not. *)
Lemma seven_tenths_of_ninety :
  fmul (Q2Qc 90) (dec 7 10) = Q2Qc (8866461766385663 # 140737488355328) /\
  seven_tenths 63 90 = true /\ seven_tenths 62 90 = false.
Proof. split_and!; [apply Qc_is_canon|..]; vm_compute; reflexivity. Qed.

End FloatFacts.

(** ** String facts *)

Module PyFacts.
Import Py.

Definition all_in (p : N -> bool) (s : str) : Prop := Forall (fun c => p c = true) s.
Definition infix_of (w s : str) : Prop := exists pre suf, s = pre ++ w ++ suf.
Definition starts_with (c : N) (s : str) : Prop := exists t, s = c :: t.
Definition ends_with (c : N) (s : str) : Prop := exists t, s = t ++ [c].

Lemma startswith_iff pre : forall s, startswith pre s = true <-> exists t, s = pre ++ t.
Proof.
  induction pre as [|p pre IH]; intros s; simpl.
  - split; [by exists s|done].
  - destruct s as [|x s]; [split; [done|by intros [? ?]]|].
    rewrite andb_true_iff, N.eqb_eq, IH. split.
    + intros [-> [t ->]]. by exists t.
    + intros [t [= -> ->]]. split; [done|by exists t].
Qed.

Lemma contains_iff sub : forall s, contains sub s = true <-> infix_of sub s.
Proof.
  induction s as [|x s IH]; simpl.
  - rewrite orb_false_r, startswith_iff. split.
    + intros [t Ht]. by exists [], t.
    + intros (pre & suf & H). symmetry in H.
      apply app_eq_nil in H as [-> H]. apply app_eq_nil in H as [-> ->]. by exists [].
  - rewrite orb_true_iff, startswith_iff, IH. split.
    + intros [[t Ht]|(pre & suf & ->)]; [by exists [], t|by exists (x :: pre), suf].
    + intros ([|y pre] & suf & H); simpl in H.
      * left. by exists suf.
      * injection H as <- ->. right. by exists pre, suf.
Qed.

Lemma contains_char c s : contains [c] s = true <-> In c s.
Proof.
  rewrite contains_iff. split.
  - intros (pre & suf & ->). apply in_or_app. right. by left.
  - intros H. apply in_split in H as (pre & suf & ->). by exists pre, suf.
Qed.

Lemma count_app c a b : count c (a ++ b) = (count c a + count c b)%nat.
Proof. unfold count. by rewrite List.filter_app, length_app. Qed.

Lemma count_zero c s : count c s = 0%nat <-> ~ In c s.
Proof.
  unfold count. induction s as [|x s IH]; simpl; [tauto|].
  destruct (N.eqb_spec c x) as [->|Hne]; simpl.
  - split; [done|]. intros H. exfalso. apply H. by left.
  - rewrite IH. split; [intros H [?|?]; [congruence|done]|tauto].
Qed.

Lemma split_no_sep c s : ~ In c s -> split c s = [s].
Proof.
  induction s as [|x s IH]; simpl; [done|]. intros H.
  destruct (N.eqb_spec x c) as [->|Hne]; [exfalso; apply H; by left|].
  rewrite IH; [done|tauto].
Qed.

Lemma split_app_sep c a b : ~ In c a -> split c (a ++ c :: b) = a :: split c b.
Proof.
  induction a as [|x a IH]; simpl; intros H.
  - by rewrite N.eqb_refl.
  - destruct (N.eqb_spec x c) as [->|Hne]; [exfalso; apply H; by left|].
    rewrite IH; [done|tauto].
Qed.

Lemma split_nonempty c s : split c s <> [].
Proof.
  induction s as [|x s IH]; simpl; [done|].
  destruct (x =? c); [done|]. by destruct (split c s).
Qed.

(** A string with exactly one separator splits in two around it. *)
Lemma count_one_split c s :
  count c s = 1%nat ->
  exists a b, s = a ++ c :: b /\ ~ In c a /\ ~ In c b /\ split c s = [a; b].
Proof.
  intros H. assert (In c s) as Hin.
  { destruct (in_dec N.eq_dec c s) as [|Hn]; [done|]. apply count_zero in Hn. lia. }
  induction s as [|x s IH]; [done|].
  destruct (N.eq_dec x c) as [->|Hne].
  - exists [], s. change (c :: s) with ([c] ++ s) in H. rewrite count_app in H.
    unfold count at 1 in H. simpl in H. rewrite N.eqb_refl in H. simpl in H.
    assert (~ In c s) as Hs by (apply count_zero; lia).
    split_and!; [done|by intros []|done|].
    simpl. rewrite N.eqb_refl. by rewrite split_no_sep.
  - destruct Hin as [->|Hin]; [done|].
    change (x :: s) with ([x] ++ s) in H. rewrite count_app in H.
    unfold count at 1 in H. simpl in H.
    destruct (N.eqb_spec c x) as [->|_]; [done|]. simpl in H.
    destruct (IH H Hin) as (a & b & -> & Ha & Hb & Hs).
    exists (x :: a), b. split_and!; [done| |done|].
    + intros [?|?]; [congruence|done].
    + simpl. destruct (N.eqb_spec x c) as [->|_]; [done|]. by rewrite Hs.
Qed.

Lemma last_split_app c a b : ~ In c a ->
  List.last (split c (a ++ c :: b)) [] = List.last (split c b) [].
Proof.
  intros H. rewrite split_app_sep by done.
  pose proof (split_nonempty c b). by destruct (split c b).
Qed.

Lemma all_in_app p a b : all_in p (a ++ b) <-> all_in p a /\ all_in p b.
Proof. apply Forall_app. Qed.

Lemma all_in_not_in p c s : p c = false -> all_in p s -> ~ In c s.
Proof.
  intros Hc Hall Hin. unfold all_in in Hall. rewrite List.Forall_forall in Hall.
  apply Hall in Hin. congruence.
Qed.

End PyFacts.

(** ** What the patterns of the sources match *)

Module PatternFacts.
Import Py Re ReFacts PyFacts.

Lemma Matches_Chr p b a c' :
  Matches (Chr p) (Cursor b a) c' <->
  exists x a', a = x :: a' /\ p x = true /\ c' = Cursor (x :: b) a'.
Proof. simpl. unfold step_chr. simpl. naive_solver. Qed.

Lemma Matches_chr x b a c' :
  Matches (chr x) (Cursor b a) c' <-> exists a', a = x :: a' /\ c' = Cursor (x :: b) a'.
Proof.
  unfold chr. rewrite Matches_Chr. split.
  - intros (y & a' & -> & Hy & ->). apply N.eqb_eq in Hy as <-. by exists a'.
  - intros (a' & -> & ->). exists x, a'. by rewrite N.eqb_refl.
Qed.

Lemma iter_Chr p n : forall b a c',
  iter (fun x y => Matches (Chr p) x y /\ progress x y) n (Cursor b a) c' <->
  exists w a', length w = n /\ all_in p w /\ a = w ++ a' /\ c' = Cursor (rev w ++ b) a'.
Proof.
  induction n as [|n IH]; intros b a c'; cbn [iter].
  - split.
    + intros <-. exists [], a. by split_and!; [|constructor|..].
    + intros (w & a' & Hw & _ & -> & ->). by destruct w.
  - split.
    + intros (c1 & [H1 _] & Hit). destruct c1 as [b1 a1].
      apply Matches_Chr in H1 as (x & a' & -> & Hx & [= -> ->]).
      apply IH in Hit as (w & a'' & <- & Hall & -> & ->).
      exists (x :: w), a''. split_and!; [done|by constructor|done|].
      simpl. by rewrite <- app_assoc.
    + intros ([|x w] & a' & Hw & Hall & -> & ->); [done|].
      injection Hw as Hw. apply Forall_cons in Hall as [Hx Hall].
      exists (Cursor (x :: b) (w ++ a')). split.
      * split; [apply Matches_Chr; by exists x, (w ++ a')|].
        unfold progress. simpl. lia.
      * apply IH. exists w, a'. split_and!; [done..|]. simpl. by rewrite <- app_assoc.
Qed.

(** A quantified class matches a run of its members. *)
Lemma Matches_Rep_Chr p lo hi b a c' :
  Matches (Rep (Chr p) lo hi) (Cursor b a) c' <->
  exists w a', (lo <= length w)%nat /\ le_opt (length w) hi /\ all_in p w /\
    a = w ++ a' /\ c' = Cursor (rev w ++ b) a'.
Proof.
  cbn [Matches]. split.
  - intros (n & Hlo & Hhi & Hit). apply iter_Chr in Hit as (w & a' & <- & ? & ? & ?).
    by exists w, a'.
  - intros (w & a' & Hlo & Hhi & Hall & -> & ->). exists (length w). split_and!; [done..|].
    apply iter_Chr. by exists w, a'.
Qed.

(** The shape [^L+@D+\.A{2,}$] of both e-mail patterns. *)
Definition address_shape (L D A : N -> bool) : regex :=
  seq [Bol; plus (Chr L); chr c_at; plus (Chr D); chr c_dot; at_least 2 (Chr A); Eol].

Lemma address_shape_iff L D A e :
  re_match (address_shape L D A) e <> None <->
  exists l d a tl,
    e = l ++ c_at :: d ++ c_dot :: a ++ tl /\
    l <> [] /\ all_in L l /\ d <> [] /\ all_in D d /\
    (2 <= length a)%nat /\ all_in A a /\ (tl = [] \/ tl = [c_nl]).
Proof.
  rewrite re_match_iff. unfold address_shape. cbn [seq]. split.
  - intros (c' & c1 & [_ <-] & c2 & H1 & c3 & H2 & c4 & H3 & c5 & H4 & c6 & H5 & H6).
    apply Matches_Rep_Chr in H1 as (l & a1 & Hl & _ & HL & -> & ->).
    apply Matches_chr in H2 as (a2 & -> & ->).
    apply Matches_Rep_Chr in H3 as (d & a3 & Hd & _ & HD & -> & ->).
    apply Matches_chr in H4 as (a4 & -> & ->).
    apply Matches_Rep_Chr in H5 as (a & tl & Ha & _ & HA & -> & ->).
    destruct H6 as [Htl _]. simpl in Htl.
    exists l, d, a, tl. split_and!; try done.
    + intros ->. simpl in Hl. lia.
    + intros ->. simpl in Hd. lia.
  - intros (l & d & a & tl & -> & Hl & HL & Hd & HD & Ha & HA & Htl).
    eexists. eexists. split; [by split|].
    eexists. split.
    { apply Matches_Rep_Chr. exists l, (c_at :: d ++ c_dot :: a ++ tl).
      split_and!; [destruct l; simpl; [done|lia]|exact I|done|done|reflexivity]. }
    eexists. split; [apply Matches_chr; by eexists|].
    eexists. split.
    { apply Matches_Rep_Chr. exists d, (c_dot :: a ++ tl).
      split_and!; [destruct d; simpl; [done|lia]|exact I|done|done|reflexivity]. }
    eexists. split; [apply Matches_chr; by eexists|].
    eexists. split.
    { apply Matches_Rep_Chr. exists a, tl.
      split_and!; [done|exact I|done|done|reflexivity]. }
    by split.
Qed.

(** Searching for a two-character word. *)
Lemma search_pair x y e :
  re_search (Cat (chr x) (chr y)) e <> None <-> infix_of [x; y] e.
Proof.
  rewrite re_search_iff. split.
  - intros (pre & suf & c' & -> & c1 & H1 & H2).
    apply Matches_chr in H1 as (a1 & -> & ->).
    apply Matches_chr in H2 as (a2 & -> & ->). by exists pre, a2.
  - intros (pre & suf & ->). exists pre, ([x; y] ++ suf). eexists. split; [done|].
    eexists. split; apply Matches_chr; by eexists.
Qed.

(** Searching for a run of at least two [x]. *)
Lemma search_run2 x e :
  re_search (at_least 2 (chr x)) e <> None <-> infix_of [x; x] e.
Proof.
  rewrite re_search_iff. split.
  - intros (pre & suf & c' & -> & H).
    apply Matches_Rep_Chr in H as (w & a' & Hw & _ & Hall & -> & ->).
    destruct w as [|y [|z w]]; simpl in Hw; [lia|lia|].
    apply Forall_cons in Hall as [Hy Hall]. apply Forall_cons in Hall as [Hz _].
    apply N.eqb_eq in Hy as <-. apply N.eqb_eq in Hz as <-.
    by exists pre, (w ++ a').
  - intros (pre & suf & ->). exists pre, ([x; x] ++ suf). eexists. split; [done|].
    apply Matches_Rep_Chr. exists [x; x], suf. split_and!; [simpl; lia|exact I| |done..].
    repeat constructor; apply N.eqb_refl.
Qed.

(** Searching for [^x]. *)
Lemma search_bol x e :
  re_search (Cat Bol (chr x)) e <> None <-> starts_with x e.
Proof.
  rewrite re_search_iff. split.
  - intros (pre & suf & c' & -> & c1 & [Hb <-] & H). simpl in Hb.
    assert (pre = []) as -> by (by destruct pre using rev_ind; [|rewrite rev_app_distr in Hb]).
    apply Matches_chr in H as (a' & -> & _). by exists a'.
  - intros (t & ->). exists [], (x :: t). eexists. split; [done|].
    eexists. split; [by split|]. apply Matches_chr. by eexists.
Qed.

(** Searching for [x$]: [$] also matches before a final line feed. *)
Lemma search_eol x e :
  re_search (Cat (chr x) Eol) e <> None <-> ends_with x e \/ exists t, e = t ++ [x; c_nl].
Proof.
  rewrite re_search_iff. split.
  - intros (pre & suf & c' & -> & c1 & H & [Hend _]).
    apply Matches_chr in H as (a' & -> & ->). simpl in Hend.
    destruct Hend as [->| ->]; [left; by exists pre|right; by exists pre].
  - intros [(t & ->)|(t & ->)].
    + exists t, [x]. eexists. split; [done|]. eexists. split; [apply Matches_chr; by eexists|].
      split; [by left|done].
    + exists t, [x; c_nl]. eexists. split; [done|].
      eexists. split; [apply Matches_chr; by eexists|]. split; [by right|done].
Qed.

Lemma search_alt r1 r2 e :
  re_search (Alt r1 r2) e <> None <-> re_search r1 e <> None \/ re_search r2 e <> None.
Proof.
  rewrite !re_search_iff. split.
  - intros (pre & suf & c' & -> & [H|H]); [left|right]; by exists pre, suf, c'.
  - intros [(pre & suf & c' & -> & H)|(pre & suf & c' & -> & H)];
      exists pre, suf, c'; (split; [done|]); [by left|by right].
Qed.

(** Searching for a single character. *)
Lemma search_chr x e : re_search (chr x) e <> None <-> In x e.
Proof.
  rewrite re_search_iff. split.
  - intros (pre & suf & c' & -> & H). apply Matches_chr in H as (a' & -> & _).
    apply in_or_app. right. by left.
  - intros H. apply in_split in H as (pre & suf & ->). exists pre, (x :: suf).
    eexists. split; [done|]. apply Matches_chr. by eexists.
Qed.

End PatternFacts.

(** ** The basic e-mail validator (extractors/email_extractor.py) *)

Module BasicValidator.
Import Py Re Data ReFacts PyFacts PatternFacts EmailExtractor.

Lemma flat_map_all_nil {A B : Type} (f : A -> list B) (l : list A) :
  (forall x, f x = []) -> flat_map f l = [].
Proof. intros Hf. induction l as [|x l IH]; simpl; [done|]. by rewrite Hf, IH. Qed.

(** The second invalid pattern, [^\.|\.], finds every dot. *)
Lemma basic_patterns_find_a_dot e : In c_dot e -> any_search invalid_patterns_basic e = true.
Proof.
  intros Hin. unfold any_search, invalid_patterns_basic. cbn [existsb].
  assert (re_search (Alt (Cat Bol (chr c_dot)) (chr c_dot)) e <> None) as H.
  { apply search_alt. right. by apply search_chr. }
  rewrite (bool_decide_eq_true_2 _ H). by rewrite orb_true_r.
Qed.

Lemma basic_validator_rejects e : _is_valid_email_format e = false.
Proof.
  unfold _is_valid_email_format.
  destruct (bool_decide (e = []) || (len e <? 5)%Z); [done|].
  destruct (count c_at e =? 1)%nat eqn:H1; [|done]. cbn [negb].
  apply Nat.eqb_eq in H1.
  apply count_one_split in H1 as (l & d & -> & _ & _ & ->).
  destruct (bool_decide (l = []) || bool_decide (d = [])); [done|].
  destruct ((64 <? len l)%Z || (255 <? len d)%Z); [done|].
  destruct (contains [c_dot] d) eqn:Hdot; [|done]. cbn [negb].
  apply contains_char in Hdot.
  rewrite basic_patterns_find_a_dot; [done|].
  apply in_or_app. right. by right.
Qed.

Section Strategies.
Context {U : Unicode}.
Variables soup tag : Type.
Variable clean_html : str -> str.
Variable find_all_a_href : soup -> list tag.
Variable get_href : tag -> str.
Variable get_text_strip : tag -> str.
Variable unquote : str -> option str.
Variable select : soup -> string -> option (list tag).
Variable find_all_script : soup -> list tag.
Variable script_string : tag -> option str.

Lemma standard_emails_empty content : _extract_standard_emails clean_html content = [].
Proof.
  unfold _extract_standard_emails. apply flat_map_all_nil. intros [name pattern].
  apply flat_map_all_nil. intros m. by rewrite basic_validator_rejects.
Qed.

Lemma mailto_addresses_empty link_text url parts :
  mailto_addresses unquote link_text url parts = [].
Proof.
  induction parts as [|e rest IH]; simpl; [done|].
  destruct (unquote e); [|done]. by rewrite basic_validator_rejects, IH.
Qed.

Lemma css_hidden_emails_empty sp :
  _extract_css_hidden_emails soup tag clean_html get_text_strip select sp = [].
Proof.
  unfold _extract_css_hidden_emails. apply flat_map_all_nil. intros selector.
  destruct (select sp selector); [|done]. apply flat_map_all_nil. intros element.
  destruct (_ && _); [|done]. by rewrite standard_emails_empty.
Qed.

(** C10.  The basic validator [_is_valid_email_format] returns [False] on
    every string: past the check that the domain contains a dot, the invalid
    pattern [^\.|\.] finds that dot.  Hence the strategies gated by it alone
    ([_extract_standard_emails], [_extract_mailto_links],
    [_extract_obfuscated_emails], [_extract_js_emails] and
    [_extract_css_hidden_emails]) return the empty list on every input,
    whatever the parser and the cleaner answer. *)
Theorem basic_validator_gates_nothing :
  (forall e, _is_valid_email_format e = false) /\
  (forall content, _extract_standard_emails clean_html content = []) /\
  (forall sp url,
     _extract_mailto_links soup tag find_all_a_href get_href get_text_strip unquote sp url = []) /\
  (forall content sp,
     _extract_obfuscated_emails soup tag clean_html get_text_strip select content sp = []) /\
  (forall sp, _extract_js_emails soup tag find_all_script script_string sp = []) /\
  (forall sp, _extract_css_hidden_emails soup tag clean_html get_text_strip select sp = []).
Proof.
  split_and!.
  - apply basic_validator_rejects.
  - apply standard_emails_empty.
  - intros sp url. unfold _extract_mailto_links. apply flat_map_all_nil. intros link.
    destruct (startswith _ _); [|done]. apply mailto_addresses_empty.
  - intros content sp. unfold _extract_obfuscated_emails.
    rewrite css_hidden_emails_empty, app_nil_r. apply flat_map_all_nil. intros pattern.
    apply flat_map_all_nil. intros m. by rewrite basic_validator_rejects.
  - intros sp. unfold _extract_js_emails. apply flat_map_all_nil. intros script.
    destruct (script_string script); [|done]. destruct (bool_decide _); [done|].
    apply flat_map_all_nil. intros [pattern ngroups]. apply flat_map_all_nil. intros m.
    by rewrite basic_validator_rejects.
  - apply css_hidden_emails_empty.
Qed.

End Strategies.

End BasicValidator.

(** ** The e-mail validity gates *)

Module EmailGate.
Import Py Re Data ReFacts PyFacts PatternFacts.

(** The gate as the specification words it: length 5-254; exactly one [@];
    non-empty local and domain parts; local part of at most 64 characters and
    domain of at most 255; a dot in the domain, whose final label is at least
    two alphabetic characters; no consecutive dots, no leading or trailing dot,
    no dot next to the [@], no leading or trailing hyphen or underscore. *)
Definition stated_gate (e : str) : bool :=
  (5 <=? len e)%Z && (len e <=? 254)%Z && (count c_at e =? 1)%nat &&
  match split c_at e with
  | [local; domain] =>
      negb (bool_decide (local = [])) && negb (bool_decide (domain = [])) &&
      (len local <=? 64)%Z && (len domain <=? 255)%Z &&
      contains [c_dot] domain &&
      (let label := List.last (split c_dot domain) [] in
       (2 <=? len label)%Z && forallb is_ascii_letter label) &&
      negb (contains [c_dot; c_dot] e) &&
      negb (startswith [c_dot] e) && negb (endswith [c_dot] e) &&
      negb (contains [c_at; c_dot] e) && negb (contains [c_dot; c_at] e) &&
      negb (startswith [c_hyphen] e) && negb (startswith [c_underscore] e) &&
      negb (endswith [c_hyphen] e) && negb (endswith [c_underscore] e)
  | _ => false
  end.

(** What the gates accept.  The letters of the extractor's pattern, compiled
    with [re.IGNORECASE], are the 52 ASCII letters and the four code points
    that case-fold to one (U+0130, U+0131, U+017F, U+212A); the crawler's
    pattern has no flag. *)
Definition address_like (L D A : N -> bool) (e : str) : Prop :=
  exists local d label,
    e = local ++ [c_at] ++ d ++ [c_dot] ++ label /\
    local <> [] /\ all_in L local /\
    d <> [] /\ all_in D d /\
    (2 <= length label)%nat /\ all_in A label.

Definition crawler_gate (e : str) : Prop :=
  (5 <= length e <= 254)%nat /\
  address_like EmailExtractor.local_chars EmailExtractor.domain_chars is_ascii_letter e.

Definition extractor_gate (e : str) : Prop :=
  (5 <= length e <= 254)%nat /\
  count c_at e = 1%nat /\
  (exists local domain label,
     e = local ++ [c_at] ++ domain /\
     local <> [] /\ domain <> [] /\
     (length local <= 64)%nat /\ (length domain <= 255)%nat /\
     all_in (ignorecase EmailExtractor.local_chars) local /\
     all_in (ignorecase EmailExtractor.domain_chars) domain /\
     (exists d, domain = d ++ [c_dot] ++ label) /\
     (2 <= length label)%nat /\ all_in (ignorecase is_ascii_letter) label) /\
  ~ infix_of [c_dot; c_dot] e /\
  ~ starts_with c_dot e /\ ~ ends_with c_dot e /\
  ~ infix_of [c_at; c_dot] e /\ ~ infix_of [c_dot; c_at] e /\
  ~ starts_with c_hyphen e /\ ~ starts_with c_underscore e /\
  ~ ends_with c_hyphen e /\ ~ ends_with c_underscore e.

Lemma split_app c a b : split c (a ++ c :: b) = split c a ++ split c b.
Proof.
  induction a as [|x a IH]; simpl.
  - by rewrite N.eqb_refl.
  - destruct (x =? c); rewrite IH; [done|].
    pose proof (split_nonempty c a). by destruct (split c a).
Qed.

Lemma last_app_cons {A : Type} (a : list A) h r dflt :
  List.last (a ++ h :: r) dflt = List.last (h :: r) dflt.
Proof.
  induction a as [|x a IH]; [done|]. simpl app.
  change (List.last (x :: a ++ h :: r) dflt) with
    (match a ++ h :: r with [] => x | _ => List.last (a ++ h :: r) dflt end).
  rewrite IH. by destruct a.
Qed.

Lemma last_split c a b : List.last (split c (a ++ c :: b)) [] = List.last (split c b) [].
Proof.
  rewrite split_app. pose proof (split_nonempty c b).
  destruct (split c b) as [|h r] eqn:E; [done|]. apply last_app_cons.
Qed.

Lemma split_length c a b : (2 <= length (split c (a ++ c :: b)))%nat.
Proof.
  rewrite split_app, length_app.
  pose proof (split_nonempty c a). pose proof (split_nonempty c b).
  destruct (split c a), (split c b); simpl; try done; lia.
Qed.

(** The first occurrence of a separator determines the split. *)
Lemma split_unique (c : N) (a b a' b' : str) :
  a ++ c :: b = a' ++ c :: b' -> ~ In c a -> ~ In c a' -> a = a' /\ b = b'.
Proof.
  revert a'. induction a as [|x a IH]; intros [|y a'] H Ha Ha'; simpl in *.
  - by injection H.
  - injection H as <- _. exfalso. apply Ha'. by left.
  - injection H as -> _. exfalso. apply Ha. by left.
  - injection H as -> H. apply IH in H as [-> ->]; [done|tauto..].
Qed.

Lemma len_nat (x : str) (n : nat) : (Z.of_nat n <? len x)%Z = false <-> (length x <= n)%nat.
Proof. unfold len. rewrite Z.ltb_ge. lia. Qed.

Lemma ends_with_last c e : ends_with c e -> List.last e 0 = c.
Proof. intros [t ->]. by rewrite last_last. Qed.

Lemma not_ends_with_app (c : N) (a : str) (x : N) : ~ ends_with c (a ++ [x]) <-> x <> c.
Proof.
  split.
  - intros H ->. apply H. by exists a.
  - intros H [t Ht]. apply app_inj_tail in Ht as [_ ->]. done.
Qed.

Lemma ic_local_at : ignorecase EmailExtractor.local_chars c_at = false.
Proof. reflexivity. Qed.
Lemma ic_alpha_dot : ignorecase is_ascii_letter c_dot = false.
Proof. reflexivity. Qed.
Lemma ic_alpha_hyphen : ignorecase is_ascii_letter c_hyphen = false.
Proof. reflexivity. Qed.
Lemma ic_alpha_underscore : ignorecase is_ascii_letter c_underscore = false.
Proof. reflexivity. Qed.
Lemma ignorecase_mono (p q : N -> bool) c :
  (forall x, p x = true -> q x = true) -> ignorecase p c = true -> ignorecase q c = true.
Proof.
  intros Hpq. unfold ignorecase. rewrite !orb_true_iff, !andb_true_iff, !orb_true_iff.
  intros [[[H|H]|[H1 [H|H]]]|[H1 [H|H]]]; apply Hpq in H; tauto.
Qed.

Lemma ic_alpha_domain c :
  ignorecase is_ascii_letter c = true -> ignorecase EmailExtractor.domain_chars c = true.
Proof.
  apply ignorecase_mono. intros x Hx. unfold EmailExtractor.domain_chars. by rewrite Hx.
Qed.

Lemma email_pattern_extractor e :
  re_match EmailExtractor.email_pattern e <> None <->
  re_match (address_shape (ignorecase EmailExtractor.local_chars)
              (ignorecase EmailExtractor.domain_chars) (ignorecase is_ascii_letter)) e <> None.
Proof. reflexivity. Qed.

Lemma any_search_false ps e :
  EmailExtractor.any_search ps e = false <-> Forall (fun p => re_search p e = None) ps.
Proof.
  unfold EmailExtractor.any_search. induction ps as [|p ps IH]; simpl.
  - split; [constructor|done].
  - rewrite orb_false_iff, IH, bool_decide_eq_false, Forall_cons.
    split; intros [H1 H2]; (split; [|done]).
    + by destruct (re_search p e); [exfalso; apply H1|].
    + rewrite H1. by intros H.
Qed.

Lemma count_split_at (c : N) (l r : str) :
  ~ In c l -> ~ In c r -> count c (l ++ c :: r) = 1%nat /\ split c (l ++ c :: r) = [l; r].
Proof.
  intros Hl Hr. split.
  - rewrite count_app. change (c :: r) with ([c] ++ r). rewrite count_app.
    apply count_zero in Hl, Hr. rewrite Hl, Hr. unfold count. simpl.
    by rewrite N.eqb_refl.
  - rewrite split_app_sep by done. by rewrite split_no_sep.
Qed.

Lemma last_nl_tail (x : str) : List.last (x ++ [c_nl]) 0 = c_nl.
Proof. apply last_last. Qed.

Lemma last_all_in (p : N -> bool) (x a : str) :
  a <> [] -> all_in p a -> p (List.last (x ++ a) 0) = true.
Proof.
  intros Ha Hall. destruct a as [|h t] using rev_ind; [done|].
  rewrite app_assoc, last_last. apply Forall_app in Hall as [_ Hall].
  by apply Forall_cons in Hall as [? _].
Qed.

Lemma nonempty_of_length (a : str) : (2 <= length a)%nat -> a <> [].
Proof. intros H ->. simpl in H. lia. Qed.

(** The crawler's gate. *)
Lemma crawler_gate_sound e :
  List.last e 0 <> c_nl ->
  WebsiteCrawler._is_valid_email_format_enhanced e = true -> crawler_gate e.
Proof.
  intros Hnl. unfold WebsiteCrawler._is_valid_email_format_enhanced.
  destruct (bool_decide (e = []) || (len e <? 5)%Z || (254 <? len e)%Z) eqn:H0; [done|].
  destruct (count c_at e =? 1)%nat eqn:H1; [|done]. cbn [negb].
  apply Nat.eqb_eq, count_one_split in H1 as (l & dm & He & _ & _ & ->).
  destruct (bool_decide (l = []) || bool_decide (dm = []) || negb (contains [c_dot] dm));
    [done|].
  intros H. apply bool_decide_eq_true in H.
  apply address_shape_iff in H as (l' & d' & a & tl & He' & Hl & HL & Hd & HD & Ha & HA & Htl).
  assert (tl = []) as ->.
  { destruct Htl as [->| ->]; [done|]. exfalso. apply Hnl. rewrite He'.
    change (l' ++ c_at :: d' ++ c_dot :: a ++ [c_nl])
      with (l' ++ [c_at] ++ d' ++ [c_dot] ++ a ++ [c_nl]).
    rewrite !app_assoc. apply last_nl_tail. }
  rewrite app_nil_r in He'. split.
  - apply orb_false_iff in H0 as [H0 H2]. apply orb_false_iff in H0 as [_ H0].
    unfold len in *. apply Z.ltb_ge in H0, H2. lia.
  - exists l', d', a. by split_and!.
Qed.

Lemma crawler_gate_complete e :
  crawler_gate e -> WebsiteCrawler._is_valid_email_format_enhanced e = true.
Proof.
  intros [Hlen (l & d' & a & -> & Hl & HL & Hd & HD & Ha & HA)].
  unfold WebsiteCrawler._is_valid_email_format_enhanced.
  assert (~ In c_at l) as Hl_at
    by (by apply (all_in_not_in EmailExtractor.local_chars)).
  assert (~ In c_at (d' ++ [c_dot] ++ a)) as Hd_at.
  { intros Hin. apply in_app_or in Hin as [Hin|Hin].
    { revert Hin. by apply (all_in_not_in EmailExtractor.domain_chars). }
    destruct Hin as [Hin|Hin]; [done|].
    revert Hin. by apply (all_in_not_in is_ascii_letter). }
  destruct (count_split_at c_at l (d' ++ [c_dot] ++ a) Hl_at Hd_at) as [Hc Hs].
  change (l ++ [c_at] ++ d' ++ [c_dot] ++ a) with (l ++ c_at :: d' ++ [c_dot] ++ a) in *.
  rewrite Hc, Hs. cbn [Nat.eqb negb].
  destruct (bool_decide (_ = []) || (len _ <? 5)%Z || (254 <? len _)%Z) eqn:H0.
  { exfalso. apply orb_true_iff in H0 as [H0|H0]; [apply orb_true_iff in H0 as [H0|H0]|].
    - apply bool_decide_eq_true in H0. rewrite H0 in Hlen. simpl in Hlen. lia.
    - unfold len in H0. apply Z.ltb_lt in H0. lia.
    - unfold len in H0. apply Z.ltb_lt in H0. lia. }
  rewrite (bool_decide_eq_false_2 _ Hl).
  rewrite bool_decide_eq_false_2 by (by destruct d').
  assert (contains [c_dot] (d' ++ [c_dot] ++ a) = true) as ->.
  { apply contains_char. apply in_or_app. right. by left. }
  cbn [orb negb]. apply bool_decide_eq_true. apply address_shape_iff.
  exists l, d', a, []. rewrite app_nil_r. by split_and!; [..|left].
Qed.

(** The extractor's gate. *)
Lemma extractor_gate_sound e :
  List.last e 0 <> c_nl ->
  EmailExtractor._is_valid_email_format_enhanced e = true -> extractor_gate e.
Proof.
  intros Hnl. unfold EmailExtractor._is_valid_email_format_enhanced.
  destruct (bool_decide (e = []) || (len e <? 5)%Z || (254 <? len e)%Z) eqn:H0; [done|].
  destruct (count c_at e =? 1)%nat eqn:H1; [|done]. cbn [negb].
  apply Nat.eqb_eq in H1. pose proof H1 as Hcount.
  apply count_one_split in H1 as (l & dm & He & Hl_at & _ & ->).
  destruct (bool_decide (l = []) || bool_decide (dm = [])) eqn:H2; [done|].
  destruct ((64 <? len l)%Z || (255 <? len dm)%Z) eqn:H3; [done|].
  destruct (contains [c_dot] dm) eqn:H4; [|done]. cbn [negb].
  destruct (bool_decide (re_match EmailExtractor.email_pattern e = None)) eqn:H5; [done|].
  destruct (EmailExtractor.any_search _ e) eqn:H6; [done|]. intros _.
  apply bool_decide_eq_false, email_pattern_extractor, address_shape_iff in H5
    as (l' & d' & a & tl & He' & Hl & HL & Hd & HD & Ha & HA & Htl).
  assert (tl = []) as ->.
  { destruct Htl as [->| ->]; [done|]. exfalso. apply Hnl. rewrite He'.
    change (l' ++ c_at :: d' ++ c_dot :: a ++ [c_nl])
      with (l' ++ [c_at] ++ d' ++ [c_dot] ++ a ++ [c_nl]).
    rewrite !app_assoc. apply last_nl_tail. }
  rewrite app_nil_r in He'.
  assert (l = l' /\ dm = d' ++ c_dot :: a) as [<- ->].
  { apply (split_unique c_at); [congruence|done|].
    by apply (all_in_not_in (ignorecase EmailExtractor.local_chars)). }
  apply any_search_false in H6.
  repeat (apply Forall_cons in H6 as [?Hs H6]).
  apply orb_false_iff in H0 as [H0 H0'']. apply orb_false_iff in H0 as [_ H0'].
  apply orb_false_iff in H2 as [H2 H2']. apply orb_false_iff in H3 as [H3 H3'].
  apply bool_decide_eq_false in H2, H2'.
  unfold len in *. apply Z.ltb_ge in H0', H0'', H3, H3'.
  split; [lia|]. split; [done|]. split.
  { exists l, (d' ++ c_dot :: a), a. split_and!; try done; try lia.
    - apply all_in_app. split; [done|]. apply Forall_cons. split; [done|].
      eapply Forall_impl; [exact HA|]. intros c. apply ic_alpha_domain.
    - by exists d'. }
  split_and!.
  - intros H. apply search_run2 in H. congruence.
  - intros H. assert (re_search (Cat Bol (chr c_dot)) e <> None) as H' by (by apply search_bol).
    revert Hs0. apply search_alt. by left.
  - intros H.
    assert (re_search (Cat (chr c_dot) Eol) e <> None) as H' by (apply search_eol; by left).
    revert Hs0. apply search_alt. by right.
  - intros H. apply search_pair in H. congruence.
  - intros H. apply search_pair in H. congruence.
  - intros H. assert (re_search (Cat Bol (chr c_hyphen)) e <> None) as H'
      by (by apply search_bol).
    revert Hs3. apply search_alt. by left.
  - intros H. assert (re_search (Cat Bol (chr c_underscore)) e <> None) as H'
      by (by apply search_bol).
    revert Hs3. apply search_alt. by right.
  - intros H. assert (re_search (Cat (chr c_hyphen) Eol) e <> None) as H'
      by (apply search_eol; by left).
    revert Hs4. apply search_alt. by left.
  - intros H. assert (re_search (Cat (chr c_underscore) Eol) e <> None) as H'
      by (apply search_eol; by left).
    revert Hs4. apply search_alt. by right.
Qed.

Lemma not_search_none r e : ~ (re_search r e <> None) -> re_search r e = None.
Proof. intros H. by destruct (re_search r e); [exfalso; apply H|]. Qed.

Lemma extractor_gate_complete e :
  extractor_gate e -> EmailExtractor._is_valid_email_format_enhanced e = true.
Proof.
  intros (Hlen & Hcount &
          (l & dm & a & He & Hl & Hdm & Hll & Hdl & HL & HD & [d' Hd'] & Ha & HA) &
          N1 & N2 & N3 & N4 & N5 & N6 & N7 & N8 & N9).
  assert (a <> []) as Ha0 by (by apply nonempty_of_length).
  assert (ignorecase is_ascii_letter (List.last e 0) = true) as Hlast.
  { rewrite He, Hd'. rewrite !app_assoc. by apply last_all_in. }
  assert (forall x t, e = t ++ [x; c_nl] -> False) as Hnl.
  { intros x t Ht. rewrite Ht in Hlast. change [x; c_nl] with ([x] ++ [c_nl]) in Hlast.
    rewrite app_assoc, last_last in Hlast. done. }
  assert (~ In c_at l) as Hl_at
    by (by apply (all_in_not_in (ignorecase EmailExtractor.local_chars))).
  assert (d' <> []) as Hd0.
  { intros ->. apply N4. exists l, a. by rewrite He, Hd'. }
  assert (~ In c_dot a) as Ha_dot by (by apply (all_in_not_in (ignorecase is_ascii_letter))).
  unfold EmailExtractor._is_valid_email_format_enhanced.
  destruct (bool_decide (e = []) || (len e <? 5)%Z || (254 <? len e)%Z) eqn:H0.
  { exfalso. apply orb_true_iff in H0 as [H0|H0]; [apply orb_true_iff in H0 as [H0|H0]|].
    - apply bool_decide_eq_true in H0. rewrite H0 in Hlen. simpl in Hlen. lia.
    - unfold len in H0. apply Z.ltb_lt in H0. lia.
    - unfold len in H0. apply Z.ltb_lt in H0. lia. }
  rewrite Hcount. cbn [Nat.eqb negb].
  destruct (count_one_split _ _ Hcount) as (l0 & dm0 & He0 & Hl0 & _ & ->).
  assert (l0 = l /\ dm0 = dm) as [-> ->].
  { apply (split_unique c_at); [|done..]. by rewrite <- He0, He. }
  rewrite (bool_decide_eq_false_2 _ Hl), (bool_decide_eq_false_2 _ Hdm). cbn [orb].
  assert ((64 <? len l)%Z || (255 <? len dm)%Z = false) as ->.
  { apply orb_false_iff. unfold len. split; apply Z.ltb_ge; lia. }
  assert (contains [c_dot] dm = true) as ->.
  { apply contains_char. rewrite Hd'. apply in_or_app. right. by left. }
  cbn [negb].
  rewrite bool_decide_eq_false_2.
  2:{ apply email_pattern_extractor, address_shape_iff. exists l, d', a, [].
      rewrite app_nil_r. split_and!; try done; [by rewrite He, Hd'| |by left].
      rewrite Hd' in HD. by apply all_in_app in HD as [? _]. }
  assert (EmailExtractor.any_search EmailExtractor.invalid_patterns_enhanced e = false) as ->.
  { apply any_search_false. repeat apply Forall_cons_2; [..|constructor];
      apply not_search_none.
    - by rewrite search_run2.
    - rewrite search_alt, search_bol, search_eol. intros [?|[?|[t ?]]]; [done|done|].
      by apply (Hnl c_dot t).
    - by rewrite search_pair.
    - by rewrite search_pair.
    - rewrite search_alt, !search_bol. tauto.
    - rewrite search_alt, !search_eol. intros [[?|[t ?]]|[?|[t ?]]]; try done.
      + by apply (Hnl c_hyphen t).
      + by apply (Hnl c_underscore t). }
  rewrite Hd'. change (d' ++ [c_dot] ++ a) with (d' ++ c_dot :: a).
  pose proof (split_length c_dot d' a) as Hsl.
  destruct (Nat.ltb_spec (length (split c_dot (d' ++ c_dot :: a))) 2); [lia|].
  rewrite last_split, split_no_sep by done. simpl.
  destruct (Z.ltb_spec (len a) 2); [unfold len in *; lia|done].
Qed.

(** C1 (amended).  For every string [e] that does not end in a line feed,
    the gate [_is_valid_email_format_enhanced] accepts [e] exactly when its
    length is between 5 and 254, it contains exactly one [@], its local part
    is non-empty, at most 64 characters long and made of letters, digits and
    [._%+-] only, its domain is non-empty, at most 255 characters long, made
    of letters, digits, dots and hyphens only and ends in a dot followed by a
    final label of at least two letters, and [e] has no consecutive dots, no
    leading or trailing dot, no dot next to the [@] and no leading or
    trailing hyphen or underscore. *)
Theorem email_gate_characterised (e : str) :
  List.last e 0 <> c_nl ->
  EmailExtractor._is_valid_email_format_enhanced e = true <-> extractor_gate e.
Proof.
  intros Hnl. split.
  - by apply extractor_gate_sound.
  - apply extractor_gate_complete.
Qed.

Lemma email_gate_characterised_witness :
  List.last (lit "jane.doe@example.edu") 0 <> c_nl /\
  (EmailExtractor._is_valid_email_format_enhanced (lit "jane.doe@example.edu") = true
     <-> extractor_gate (lit "jane.doe@example.edu")).
Proof.
  assert (List.last (lit "jane.doe@example.edu") 0 <> c_nl) as H by (vm_compute; discriminate).
  split; [exact H|]. exact (email_gate_characterised (lit "jane.doe@example.edu") H).
Defined.

(** C1 as stated fails on the code: a space in the local part meets every
    condition the claim lists, and the gate rejects it, since the pattern
    admits only the characters above. *)
Lemma email_gate_not_as_stated :
  stated_gate (lit "a b@c.de") = true /\
  EmailExtractor._is_valid_email_format_enhanced (lit "a b@c.de") = false /\
  WebsiteCrawler._is_valid_email_format_enhanced (lit "a b@c.de") = false.
Proof. vm_compute. repeat split. Qed.

(** Two slips of the code, which the characterisation above leaves aside.
    The crawler carries a copy of the gate (lines 1189-1208) that applies the
    length bounds and the pattern only: it accepts an address with
    consecutive dots, which the gate rejects.  And since [$] also matches
    before a final line feed, the gate accepts an address followed by one. *)
Lemma crawler_copy_of_the_gate (e : str) :
  List.last e 0 <> c_nl ->
  WebsiteCrawler._is_valid_email_format_enhanced e = true <-> crawler_gate e.
Proof.
  intros Hnl. split.
  - by apply crawler_gate_sound.
  - apply crawler_gate_complete.
Qed.

Lemma gate_slips :
  (EmailExtractor._is_valid_email_format_enhanced (lit "a..b@c.de") = false /\
   WebsiteCrawler._is_valid_email_format_enhanced (lit "a..b@c.de") = true) /\
  EmailExtractor._is_valid_email_format_enhanced (lit "a@b.co" ++ [c_nl]) = true.
Proof. vm_compute. repeat split. Qed.

End EmailGate.

(** ** Context attachment: names and phone numbers *)

Module ContextFacts.
Import Py Re Data WebsiteCrawler.

Section Phone.
Context {U : Unicode}.

(** The NLP-assisted path returns a phone number only after counting ten
    digits in it. *)
Lemma ai_phone_is_complete (text : str) :
  _extract_phone_number_ai text = [] \/
  (10 <= digit_count (_extract_phone_number_ai text))%Z.
Proof.
  unfold _extract_phone_number_ai.
  induction phone_patterns_ai as [|pattern rest IH]; simpl; [by left|].
  destruct (re_search pattern text) as [m|]; [|done].
  destruct (Z.leb_spec 10 (digit_count (strip (group0 m)))); [by right|done].
Qed.

End Phone.

(** C8 (code defect).  On the text ["Call 555-1234 today"] the strict regex
    fallback [_parse_context_with_regex_strict] returns the phone
    ["555-1234"], which has seven digits: its pattern accepts any run of 10 to
    15 digits, spaces and punctuation (here the number and the two spaces
    around it), and nothing counts the digits, as [_extract_phone_number_ai]
    does, which returns no phone on the same text. *)
Theorem strict_fallback_returns_phone_fragment :
  info_phone (_parse_context_with_regex_strict (U := basic_latin)
                (lit "Call 555-1234 today") (lit "jane@example.com")) = lit "555-1234" /\
  digit_count (U := basic_latin) (lit "555-1234") = 7%Z /\
  _extract_phone_number_ai (U := basic_latin) (lit "Call 555-1234 today") = [].
Proof. vm_compute. repeat split. Qed.

(** C5 (code defect).  With no entity recogniser loaded, the context parser
    used for table rows, list items and free text falls back to
    [_parse_context_with_regex], which infers a name from the address: on the
    text ["Email: info@company.com"] it returns the name ["I. Nfo"] (and the
    company ["Company"], from the domain). *)
Theorem regex_fallback_fabricates_name :
  _parse_context_text (U := basic_latin) None
    (lit "Email: info@company.com") (lit "info@company.com")
  = Some (ContactInfo (lit "I. Nfo") [] (lit "Company") []) /\
  infer_name_from_email (U := basic_latin) (lit "info@company.com") = lit "I. Nfo".
Proof. vm_compute. repeat split. Qed.

Section Matcher.
Variable soup : Type.

(** [match_contacts] does the same: when nothing is found near the address,
    the name is taken from the local part. *)
Lemma match_contacts_fabricates_name (sp : soup) (text : str) :
  get "name"
    (ContactMatcher.match_contact (U := basic_latin) soup (fun _ _ _ _ => ∅)
       sp text (lit "https://example.com/") (lit "info@company.com", ∅))
  = VStr (lit "Info").
Proof. vm_compute. reflexivity. Qed.

End Matcher.

End ContextFacts.

(** ** Post-processing: validation and deduplication *)

Module ValidatorFacts.
Import Py Re Data DataValidator.

Definition email_of (contact : dict) : value := get "email" contact.

(** *** The stable sort *)

Section Sort.
Context {A : Type} (key : A -> Qc).

Lemma insert_desc_perm x l : insert_desc key x l ≡ₚ x :: l.
Proof.
  induction l as [|y t IH]; simpl; [done|].
  case_bool_decide; [|done]. rewrite IH. apply Permutation_swap.
Qed.

Lemma sorted_desc_perm l : sorted_desc key l ≡ₚ l.
Proof.
  induction l as [|x l IH]; simpl; [done|]. by rewrite insert_desc_perm, IH.
Qed.






End Sort.

(** *** Searching a list *)

Section Find.
Context {A : Type}.




End Find.

(** *** The loop over the sorted contacts *)

Lemma keep_first_seen_elem seen l r :
  r ∈ keep_first_seen seen l ->
  r ∈ l /\ truthy (email_of r) = true /\ email_of r ∉ seen.
Proof.
  revert seen. induction l as [|c rest IH]; intros seen; simpl; [by intros ?%elem_of_nil|].
  fold (email_of c).
  destruct (truthy (email_of c) && negb (bool_decide (email_of c ∈ seen))) eqn:Hk.
  - apply andb_true_iff in Hk as [Ht Hn]. apply negb_true_iff, bool_decide_eq_false in Hn.
    intros [->|Hr]%elem_of_cons; [by split_and!; [left|..]|].
    apply IH in Hr as (? & ? & Hnotin). split_and!; [by right|done|].
    intros Hin. apply Hnotin. by apply elem_of_union_r.
  - intros Hr. apply IH in Hr as (? & ? & ?). by split_and!; [right|..].
Qed.

Lemma keep_first_seen_nodup seen l : NoDup (map email_of (keep_first_seen seen l)).
Proof.
  revert seen. induction l as [|c rest IH]; intros seen; simpl; [constructor|].
  fold (email_of c).
  destruct (truthy (email_of c) && negb (bool_decide (email_of c ∈ seen))); [|apply IH].
  simpl. constructor; [|apply IH].
  intros (r & Heq & Hr)%list_elem_of_fmap.
  apply keep_first_seen_elem in Hr as (_ & _ & Hnotin). set_solver.
Qed.



(** *** Deduplication *)

Lemma score_key_score c : score_key c <> None -> score_key c = Some (score c).
Proof. unfold score. by destruct (score_key c). Qed.




(** A dictionary without an address is no contact record; the loop passes
    over it. *)
Lemma deduplicate_contacts_drops_empty_email :
  deduplicate_contacts
    [list_to_map [("email"%string, VStr []); ("validation_score"%string, VNum (dec 9 10))]]
  = Some [] /\
  deduplicate_contacts [list_to_map [("name"%string, VStr (lit "Ann Lee"))]] = Some [].
Proof. vm_compute. split; reflexivity. Qed.

(** *** Validation of one contact *)

Definition rejected_fields_contact : dict :=
  list_to_map [("email"%string, VStr (lit "jane@example.com"));
               ("name"%string, VStr (lit "Click Here"));
               ("phone"%string, VStr (lit "555-1234"))].

(** C6 (code defect).  The name ["Click Here"] fails [_validate_name] and the
    phone ["555-1234"] fails [_validate_phone], and the record
    [_validate_single_contact] returns still carries both: the loop that
    copies the other fields of the input also copies every field whose
    validated value was not stored. *)
Theorem rejected_fields_are_copied_back :
  _validate_name (U := basic_latin) (VStr (lit "Click Here")) = None /\
  _validate_phone (U := basic_latin) (VStr (lit "555-1234")) = None /\
  exists validated_contact,
    _validate_single_contact (U := basic_latin) false None rejected_fields_contact
      = Returned (Some validated_contact) /\
    validated_contact !! "name"%string = Some (VStr (lit "Click Here")) /\
    validated_contact !! "phone"%string = Some (VStr (lit "555-1234")).
Proof.
  split; [vm_compute; reflexivity|]. split; [vm_compute; reflexivity|].
  eexists. split; [vm_compute; reflexivity|]. vm_compute. split; reflexivity.
Qed.

End ValidatorFacts.

(** ** The crawl: admission and budgets *)

Module CrawlFacts.
Import Py Re Data WebsiteCrawler.

Section Crawl.
Context {U : Unicode} {W : Web}.
Variable config : Config.

(** *** What the admission check touches *)

(** The admission check only ever writes the robots cache. *)
Definition same_frontier (a b : Crawler) : Prop :=
  visited_urls b = visited_urls a /\ queued_urls b = queued_urls a /\
  failed_urls b = failed_urls a /\ trace b = trace a.

Lemma same_frontier_refl a : same_frontier a a.
Proof. by repeat split. Qed.

Lemma same_frontier_trans a b c : same_frontier a b -> same_frontier b c -> same_frontier a c.
Proof. unfold same_frontier. intros (-> & -> & -> & ->) (-> & -> & -> & ->). by repeat split. Qed.

Lemma get_robots_parser_frontier self url rp self' :
  _get_robots_parser self url = Returned (rp, self') -> same_frontier self self'.
Proof.
  unfold _get_robots_parser. destruct (urlparse url) as [parsed|]; [|done].
  destruct (robots_cache self !! netloc parsed); intros [= <- <-]; by repeat split.
Qed.

Lemma can_fetch_frontier self url : same_frontier self (snd (_can_fetch config self url)).
Proof.
  unfold _can_fetch.
  destruct (_get_robots_parser self url) as [[[rp|] self']|] eqn:Hrp;
    [apply get_robots_parser_frontier in Hrp; by destruct (rp _ _)
    |by apply get_robots_parser_frontier in Hrp
    |apply same_frontier_refl].
Qed.

Lemma should_crawl_frontier self url base depth :
  same_frontier self (snd (_should_crawl_url config self url base depth)).
Proof.
  unfold _should_crawl_url.
  repeat (case_match; try apply same_frontier_refl);
    match goal with
    | H : _can_fetch _ _ _ = (_, ?s) |- same_frontier _ ?s =>
        pose proof (can_fetch_frontier self url) as Hf; by rewrite H in Hf
    end.
Qed.

Lemma admit_links_frontier base depth links : forall self next,
  same_frontier self (fst (admit_links config base depth links self next)).
Proof.
  induction links as [|link rest IH]; intros self next; simpl; [apply same_frontier_refl|].
  destruct (_should_crawl_url config self link base (depth + 1)) as [ok self'] eqn:Hs.
  eapply same_frontier_trans; [|apply IH].
  pose proof (should_crawl_frontier self link base (depth + 1)) as Hf. by rewrite Hs in Hf.
Qed.

(** *** The budgets *)

(** An event respects the limits: no wave and no fetch at depth [max_depth]
    or beyond, and no wave of more URLs than the page budget leaves. *)
Definition within_limits (ev : event) : Prop :=
  match ev with
  | EvWave depth urls visited_before =>
      (depth < max_depth config)%Z /\
      (Z.of_nat (length urls) <= max_pages config - Z.of_nat visited_before)%Z
  | EvCrawl _ depth => (depth < max_depth config)%Z
  | EvLinks _ depth => (depth < max_depth config)%Z
  end.

Definition pages (self : Crawler) : Z := Z.of_nat (size (visited_urls self)).

(** [b] continues [a]: it has visited at least the same pages, and what it
    logged since respects the limits. *)
Definition continues (a b : Crawler) : Prop :=
  visited_urls a ⊆ visited_urls b /\
  exists evs, trace b = evs ++ trace a /\ Forall within_limits evs.

Lemma continues_refl a : continues a a.
Proof. split; [done|]. by exists []. Qed.

Lemma continues_trans a b c : continues a b -> continues b c -> continues a c.
Proof.
  intros [Hv1 (e1 & Ht1 & He1)] [Hv2 (e2 & Ht2 & He2)]. split; [by etrans|].
  exists (e2 ++ e1). rewrite Ht2, Ht1, app_assoc. split; [done|]. by apply Forall_app.
Qed.

Lemma continues_frontier a b : same_frontier a b -> continues a b.
Proof. intros (Hv & _ & _ & Ht). split; [by rewrite Hv|]. exists []. by rewrite Ht. Qed.

Lemma continues_log ev a : within_limits ev -> continues a (log ev a).
Proof. intros Hev. split; [done|]. exists [ev]. split; [done|]. by constructor. Qed.

Lemma pages_add url (self : Crawler) :
  (Z.of_nat (size ({[url]} ∪ visited_urls self)) <= pages self + 1)%Z.
Proof.
  unfold pages. rewrite size_union_alt, size_singleton.
  assert (size (visited_urls self ∖ {[url]}) <= size (visited_urls self))%nat
    by (by apply subseteq_size, subseteq_difference_l).
  lia.
Qed.

Lemma process_result_spec base depth url result st :
  (depth < max_depth config)%Z ->
  continues (ws_self st) (ws_self (process_result config base depth url result st)) /\
  (pages (ws_self (process_result config base depth url result st)) <= pages (ws_self st) + 1)%Z.
Proof.
  intros Hd. unfold process_result.
  set (self1 := set_visited ({[url]} ∪ visited_urls (ws_self st)) (ws_self st)).
  assert (continues (ws_self st) self1) as H1.
  { split; [simpl; set_solver|]. by exists []. }
  assert (pages self1 <= pages (ws_self st) + 1)%Z as H2 by apply pages_add.
  destruct result as [r| |reason]; [|by split..].
  destruct (depth <? max_depth config - 1)%Z; [|by split].
  assert (continues (ws_self st) (log (EvLinks url depth) self1)) as H3.
  { eapply continues_trans; [exact H1|]. by apply continues_log. }
  destruct (fetch_page (trace self1) url) as [content|reason]; [|by split].
  destruct (bool_decide (content = [])); [by split|].
  destruct (admit_links _ _ _ _ _ _) as [self2 next2] eqn:Ha.
  pose proof (admit_links_frontier base depth (extract_links content url)
                (log (EvLinks url depth) self1) (ws_next st)) as Hf.
  rewrite Ha in Hf. simpl in Hf. simpl. split.
  - eapply continues_trans; [exact H3|]. by apply continues_frontier.
  - destruct Hf as (Hv & _). unfold pages in *. by rewrite Hv.
Qed.

(** The inner loop stops as soon as the budget is spent, so it never goes
    past it. *)
Lemma process_results_spec base depth items : forall st,
  (depth < max_depth config)%Z ->
  (pages (ws_self st) < max_pages config)%Z ->
  continues (ws_self st) (ws_self (process_results config base depth items st)) /\
  (pages (ws_self (process_results config base depth items st)) <= max_pages config)%Z.
Proof.
  induction items as [|[url result] rest IH]; intros st Hd Hp; simpl.
  - split; [apply continues_refl|lia].
  - destruct (process_result_spec base depth url result st Hd) as [Hc Hn].
    set (st1 := process_result config base depth url result st) in *.
    unfold budget_spent. fold (pages (ws_self st1)).
    destruct (Z.leb_spec (max_pages config) (pages (ws_self st1))) as [Hs|Hs].
    + split; [done|lia].
    + destruct (IH st1 Hd Hs) as [Hc' Hn']. split; [|done]. by eapply continues_trans.
Qed.

Lemma crawl_batch_spec depth seen batch : forall self,
  (depth < max_depth config)%Z ->
  continues self (snd (crawl_batch depth seen batch self)) /\
  visited_urls (snd (crawl_batch depth seen batch self)) = visited_urls self.
Proof.
  induction batch as [|url rest IH]; intros self Hd; simpl.
  - split; [apply continues_refl|done].
  - set (self1 := match crawl_page seen url depth with
                  | Failed reason => _
                  | _ => _
                  end).
    assert (continues self self1 /\ visited_urls self1 = visited_urls self) as [H1 H2].
    { unfold self1. destruct (crawl_page seen url depth); (split; [|done]);
        by apply (continues_log (EvCrawl url depth)). }
    destruct (crawl_batch depth seen rest self1) as [items self2] eqn:Hb.
    specialize (IH self1 Hd). rewrite Hb in IH. simpl in *. destruct IH as [H3 H4].
    split; [by eapply continues_trans|congruence].
Qed.

Lemma process_batches_spec base depth batches : forall st,
  (depth < max_depth config)%Z ->
  (pages (ws_self st) < max_pages config)%Z ->
  continues (ws_self st) (ws_self (process_batches config base depth batches st)) /\
  (pages (ws_self (process_batches config base depth batches st)) <= max_pages config)%Z.
Proof.
  induction batches as [|batch rest IH]; intros st Hd Hp; simpl.
  - split; [apply continues_refl|lia].
  - destruct (crawl_batch depth (trace (ws_self st)) batch (ws_self st))
      as [items self1] eqn:Hb.
    destruct (crawl_batch_spec depth (trace (ws_self st)) batch (ws_self st) Hd) as [H1 H2].
    rewrite Hb in H1, H2. simpl in H1, H2.
    set (st1 := {| ws_self := self1; ws_next := ws_next st; ws_results := ws_results st |}).
    destruct (process_results_spec base depth items st1 Hd) as [H3 H4].
    { unfold pages in *. simpl. by rewrite H2. }
    set (st2 := process_results config base depth items st1) in *.
    unfold budget_spent. fold (pages (ws_self st2)).
    destruct (Z.leb_spec (max_pages config) (pages (ws_self st2))) as [Hs|Hs].
    + split; [|lia]. eapply continues_trans; [exact H1|exact H3].
    + destruct (IH st2 Hd Hs) as [H5 H6]. split; [|done].
      eapply continues_trans; [exact H1|]. by eapply continues_trans.
Qed.

Lemma wave_due_spec self depth :
  wave_due config self depth = true ->
  queued_urls self <> ∅ /\ (depth < max_depth config)%Z /\ (pages self < max_pages config)%Z.
Proof.
  unfold wave_due. intros H.
  apply andb_true_iff in H as [H H3]. apply andb_true_iff in H as [H1 H2].
  apply negb_true_iff, bool_decide_eq_false in H1.
  apply Z.ltb_lt in H2, H3. by repeat split.
Qed.

(** One wave: it starts below the depth limit with budget left, is cut to
    that budget, and ends within it. *)
Lemma wave_spec base depth self results self' results' :
  wave_due config self depth = true ->
  wave config base depth self results = Some (self', results') ->
  continues self self' /\ (pages self' <= max_pages config)%Z.
Proof.
  intros (_ & Hd & Hp)%wave_due_spec. unfold wave.
  change (visited_urls (set_queued ∅ self)) with (visited_urls self). fold (pages self).
  destruct (Z.leb_spec (max_pages config - pages self) 0); [done|].
  set (urls := if (_ <? _)%Z then _ else _).
  set (self1 := log _ _).
  assert (Z.of_nat (length urls) <= max_pages config - pages self)%Z as Hlen.
  { unfold urls. destruct (Z.ltb_spec (max_pages config - pages self)
                             (Z.of_nat (length (set_to_list (queued_urls self))))).
    - rewrite length_firstn. lia.
    - done. }
  assert (continues self self1) as H1.
  { eapply continues_trans; [|apply continues_log; by split].
    split; [done|]. by exists []. }
  set (st0 := {| ws_self := self1; ws_next := ∅; ws_results := results |}).
  destruct (process_batches_spec base depth
              (batches_of (length urls) (Nat.min 20 (length urls)) urls) st0 Hd) as [H2 H3];
    [done|].
  intros [= <- <-]. split; [|done].
  eapply continues_trans; [exact H1|].
  eapply continues_trans; [exact H2|]. split; [done|]. by exists [].
Qed.

Lemma waves_not_due n base depth self results :
  wave_due config self depth = false -> waves config n base depth self results = (self, results).
Proof. intros H. destruct n; simpl; [done|]. by rewrite H. Qed.

Lemma waves_spec n : forall base depth self results,
  continues self (fst (waves config n base depth self results)) /\
  (pages (fst (waves config n base depth self results)) <= Z.max (pages self) (max_pages config))%Z.
Proof.
  induction n as [|n IH]; intros base depth self results; simpl.
  - split; [apply continues_refl|lia].
  - destruct (wave_due config self depth) eqn:Hdue; [|split; [apply continues_refl|simpl; lia]].
    destruct (wave config base depth self results) as [[self' results']|] eqn:Hw.
    + destruct (wave_spec _ _ _ _ _ _ Hdue Hw) as [H1 H2].
      destruct (IH base (depth + 1)%Z self' results') as [H3 H4].
      split; [by eapply continues_trans|lia].
    + simpl. split; [|unfold pages; simpl; lia]. split; [done|]. by exists [].
Qed.

(** The loop ends by itself within [max_depth] waves: more fuel changes
    nothing. *)
Lemma waves_enough n : forall base depth self results,
  (Z.to_nat (max_depth config - depth) <= n)%nat ->
  waves config n base depth self results =
  waves config (Z.to_nat (max_depth config - depth)) base depth self results.
Proof.
  induction n as [|n IH]; intros base depth self results Hn.
  - by replace (Z.to_nat (max_depth config - depth)) with 0%nat by lia.
  - destruct (wave_due config self depth) eqn:Hdue; [|by rewrite !waves_not_due].
    pose proof (wave_due_spec _ _ Hdue) as (_ & Hd & _).
    destruct (Z.to_nat (max_depth config - depth)) as [|m] eqn:Hm; [lia|].
    simpl. rewrite Hdue. destruct (wave config base depth self results) as [[s r]|]; [|done].
    rewrite IH by lia. by replace (Z.to_nat (max_depth config - (depth + 1))) with m by lia.
Qed.

(** A wave that is due has URLs to crawl: [batch_size] is positive, and the
    [range] with step [batch_size] is well formed. *)
Lemma wave_urls_nonempty self depth :
  wave_due config self depth = true ->
  firstn (Z.to_nat (max_pages config - pages self)) (set_to_list (queued_urls self)) <> [].
Proof.
  intros (Hq & _ & Hp)%wave_due_spec.
  destruct (set_to_list (queued_urls self)) as [|u l] eqn:Hl.
  - exfalso. apply Hq. apply leibniz_equiv, elements_empty_inv.
    pose proof (set_to_list_perm (queued_urls self)) as Hperm. rewrite Hl in Hperm.
    by apply Permutation_nil in Hperm.
  - destruct (Z.to_nat (max_pages config - pages self)) eqn:Hn; [lia|done].
Qed.

(** The batches of a wave are the wave, in order: the fuel of [batches_of]
    is enough. *)
Lemma batches_of_concat n : forall fuel urls,
  (1 <= n)%nat -> (length urls <= fuel)%nat -> concat (batches_of fuel n urls) = urls.
Proof.
  induction fuel as [|fuel IH]; intros urls Hn Hlen.
  - destruct urls; [done|simpl in Hlen; lia].
  - destruct urls as [|u rest]; [done|].
    change (batches_of (S fuel) n (u :: rest))
      with (firstn n (u :: rest) :: batches_of fuel n (skipn n (u :: rest))).
    cbn [concat]. rewrite IH; [apply firstn_skipn|done|].
    rewrite length_skipn. simpl in *. lia.
Qed.

(** C2.  A run of [crawl_website] adds at most [max_pages] URLs to the
    visited set (and leaves it with at most [max_pages] URLs, unless it started
    with more), and everything it issues respects the limits: every wave and
    every page fetch happens at a depth strictly below [max_depth], and every
    wave was cut to at most [max_pages] minus the number of pages visited
    before it.  The run fails only when [urlparse] rejects the start URL. *)
Theorem crawl_stays_within_budgets (self : Crawler) (start_url : str) :
  match crawl_website config self start_url with
  | Returned (st, _) =>
      (Z.of_nat (size (visited_urls st ∖ visited_urls self)) <= Z.max 0 (max_pages config))%Z /\
      (pages st <= Z.max (pages self) (max_pages config))%Z /\
      Forall within_limits (trace st)
  | Raised => urlparse start_url = Raised
  end.
Proof.
  unfold crawl_website. destruct (urlparse start_url) as [parsed|]; [|done].
  set (self0 := set_queued _ _).
  destruct (waves_spec (Z.to_nat (max_depth config)) (netloc parsed) 0 self0 [])
    as [[Hv (evs & Ht & Hev)] Hp].
  destruct (waves config _ _ 0 self0 []) as [st results] eqn:Hw. simpl in *.
  change (pages self0) with (pages self) in Hp.
  split_and!; [|done|by rewrite Ht, app_nil_r].
  destruct (wave_due config self0 0) eqn:Hdue.
  - apply wave_due_spec in Hdue as (_ & _ & Hlt). change (pages self0) with (pages self) in Hlt.
    assert (size (visited_urls st ∖ visited_urls self) <= size (visited_urls st))%nat
      by (by apply subseteq_size, subseteq_difference_l).
    unfold pages in *. lia.
  - rewrite waves_not_due in Hw by done. injection Hw as <- _. simpl.
    rewrite difference_diag_L, size_empty. lia.
Qed.

(** C4.  Whatever the configuration, the frontier, the depth, the robots
    policy and the query say, [_should_crawl_url] answers [False] for a URL
    whose host, as [urlparse] reads it, is not the base domain. *)
Theorem domain_confinement (self : Crawler) (url base_domain : str) (current_depth : Z) :
  (forall parsed, urlparse url = Returned parsed -> netloc parsed <> base_domain) ->
  fst (_should_crawl_url config self url base_domain current_depth) = false.
Proof.
  intros Hhost. unfold _should_crawl_url.
  destruct (urlparse url) as [parsed|]; [|done].
  specialize (Hhost parsed eq_refl).
  destruct (max_depth config <=? current_depth)%Z; [done|].
  destruct (_ || _); [done|].
  destruct (match nonempty_list (allowed_domains config) with Some _ => _ | None => _ end);
    [done|].
  destruct (match nonempty_list (excluded_domains config) with Some _ => _ | None => _ end);
    [done|].
  unfold str_eqb. by rewrite bool_decide_eq_false_2.
Qed.

(** The checks of [_should_crawl_url] that come before the robots check. *)
Definition passes_static_checks (self : Crawler) (parsed : ParseResult)
    (url base_domain : str) (current_depth : Z) : Prop :=
  (current_depth < max_depth config)%Z /\
  (url ∉ visited_urls self) /\ (url ∉ queued_urls self) /\
  (forall allowed, nonempty_list (allowed_domains config) = Some allowed ->
     netloc parsed ∈ allowed) /\
  (forall excluded, nonempty_list (excluded_domains config) = Some excluded ->
     netloc parsed ∉ excluded) /\
  netloc parsed = base_domain /\
  (forall ext, ext ∈ excluded_extensions config ->
     endswith ext (lower (path parsed)) = false).

Lemma static_checks_pass self parsed url base_domain current_depth :
  passes_static_checks self parsed url base_domain current_depth ->
  (max_depth config <=? current_depth)%Z = false /\
  bool_decide (url ∈ visited_urls self) || bool_decide (url ∈ queued_urls self) = false /\
  match nonempty_list (allowed_domains config) with
  | Some allowed => negb (listed (netloc parsed) allowed)
  | None => false
  end = false /\
  match nonempty_list (excluded_domains config) with
  | Some excluded => listed (netloc parsed) excluded
  | None => false
  end = false /\
  negb (str_eqb (netloc parsed) base_domain) = false /\
  existsb (fun ext => endswith ext (lower (path parsed))) (excluded_extensions config) = false.
Proof.
  intros (Hd & Hv & Hq & Hallow & Hexcl & Hbase & Hext). split_and!.
  - by apply Z.leb_gt.
  - by rewrite !bool_decide_eq_false_2.
  - destruct (nonempty_list (allowed_domains config)) as [allowed|]; [|done].
    unfold listed. by rewrite bool_decide_eq_true_2 by (by apply Hallow).
  - destruct (nonempty_list (excluded_domains config)) as [excluded|]; [|done].
    unfold listed. by rewrite bool_decide_eq_false_2 by (by apply Hexcl).
  - unfold str_eqb. by rewrite bool_decide_eq_true_2.
  - apply not_true_is_false. intros (ext & Hin & He)%existsb_exists.
    rewrite Hext in He; [done|]. by apply list_elem_of_In.
Qed.

(** The robots check answers without an answer of robots.txt: the parser
    cannot be obtained, robots.txt could not be loaded (the exception is
    caught in [_get_robots_parser], which records [None] for the host), or the
    parser's [can_fetch] raises. *)
Definition robots_check_fails (self : Crawler) (url : str) : Prop :=
  match _get_robots_parser self url with
  | Raised => True
  | Returned (None, _) => True
  | Returned (Some rp, _) => rp (user_agent config) url = Raised
  end.

(** The last check of [_should_crawl_url], on the query of the URL. *)
Definition query_allowed (parsed : ParseResult) : bool :=
  if bool_decide (query parsed = []) then true
  else match parse_qs (query parsed) with
       | Returned query_params => page_allowed query_params
       | Raised => false
       end.

Lemma should_crawl_after_static_checks self parsed url base_domain current_depth :
  urlparse url = Returned parsed ->
  passes_static_checks self parsed url base_domain current_depth ->
  _should_crawl_url config self url base_domain current_depth =
  (fst (_can_fetch config self url) && query_allowed parsed, snd (_can_fetch config self url)).
Proof.
  intros Hparse Hstatic.
  destruct (static_checks_pass _ _ _ _ _ Hstatic) as (H1 & H2 & H3 & H4 & H5 & H6).
  unfold _should_crawl_url. rewrite Hparse, H1, H2, H3, H4, H5, H6.
  destruct (_can_fetch config self url) as [[|] self']; cbn [negb fst snd andb]; [|done].
  unfold query_allowed. destruct (bool_decide (query parsed = [])); [done|].
  by destruct (parse_qs (query parsed)).
Qed.

Lemma robots_check_fails_open self url :
  robots_check_fails self url -> fst (_can_fetch config self url) = true.
Proof.
  unfold robots_check_fails, _can_fetch.
  destruct (_get_robots_parser self url) as [[[rp|] self']|]; [|done..].
  by intros ->.
Qed.

(** C9 (amended).  Exceptions are treated as "allow" inside the robots check
    only: [_can_fetch] answers [True] when the parser cannot be obtained, when
    robots.txt could not be loaded (the load raises, and [None] is recorded
    for the host) and when the parser's [can_fetch] raises; a URL which passes
    the other checks is then admitted, unless its query is refused (always
    admitted when it has no query).  An exception anywhere else inside
    [_should_crawl_url] is caught by its own handler, which answers [False]:
    the URL is rejected when [urlparse] raises on it and when [parse_qs]
    raises on its query. *)
Theorem admission_exception_policy (self : Crawler) (url base_domain : str)
    (current_depth : Z) :
  (_get_robots_parser self url = Raised -> _can_fetch config self url = (true, self)) /\
  (forall self', _get_robots_parser self url = Returned (None, self') ->
     _can_fetch config self url = (true, self')) /\
  (forall rp self', _get_robots_parser self url = Returned (Some rp, self') ->
     rp (user_agent config) url = Raised -> _can_fetch config self url = (true, self')) /\
  (forall parsed, urlparse url = Returned parsed ->
     robots_cache self !! netloc parsed = None -> load_robots url = Raised ->
     _get_robots_parser self url
     = Returned (None, set_robots (<[netloc parsed := None]> (robots_cache self)) self)) /\
  (forall parsed,
     urlparse url = Returned parsed ->
     passes_static_checks self parsed url base_domain current_depth ->
     robots_check_fails self url ->
     _should_crawl_url config self url base_domain current_depth
     = (query_allowed parsed, snd (_can_fetch config self url)) /\
     (query parsed = [] ->
      fst (_should_crawl_url config self url base_domain current_depth) = true)) /\
  (urlparse url = Raised ->
     fst (_should_crawl_url config self url base_domain current_depth) = false) /\
  (forall parsed, urlparse url = Returned parsed -> query parsed <> [] ->
     parse_qs (query parsed) = Raised ->
     fst (_should_crawl_url config self url base_domain current_depth) = false).
Proof.
  split_and!.
  - unfold _can_fetch. by intros ->.
  - unfold _can_fetch. by intros self' ->.
  - unfold _can_fetch. by intros rp self' -> ->.
  - intros parsed Hparse Hcache Hload. unfold _get_robots_parser.
    by rewrite Hparse, Hcache, Hload.
  - intros parsed Hparse Hstatic Hfails.
    rewrite (should_crawl_after_static_checks _ _ _ _ _ Hparse Hstatic).
    rewrite (robots_check_fails_open _ _ Hfails). cbn [andb fst]. split; [done|].
    intros Hq. unfold query_allowed. by rewrite bool_decide_eq_true_2.
  - unfold _should_crawl_url. by intros ->.
  - intros parsed Hparse Hq Hraise. unfold _should_crawl_url. rewrite Hparse.
    destruct (max_depth config <=? current_depth)%Z; [done|].
    destruct (_ || _); [done|].
    destruct (match nonempty_list (allowed_domains config) with Some _ => _ | None => _ end);
      [done|].
    destruct (match nonempty_list (excluded_domains config) with Some _ => _ | None => _ end);
      [done|].
    destruct (negb (str_eqb (netloc parsed) base_domain)); [done|].
    destruct (existsb _ _); [done|].
    destruct (_can_fetch config self url) as [allowed self'].
    destruct (negb allowed); [done|].
    rewrite bool_decide_eq_false_2 by done. by rewrite Hraise.
Qed.

End Crawl.

End CrawlFacts.

(** ** The crawl on the sample site *)

Module CrawlRuns.
Import Py Re Data WebsiteCrawler SampleSite CrawlFacts.

(** The pages a run crawled, with their depths. *)
Definition crawls (evs : list event) : list (str * Z) :=
  flat_map (fun ev => match ev with EvCrawl url depth => [(url, depth)] | _ => [] end) evs.

Definition other_host : str := lit "https://other.example/x".
Definition in_site : str := lit "https://site.example/x".
Definition bad_url : str := lit "http://[::1/x".
Definition site_host : str := lit "site.example".

Lemma domain_confinement_witness :
  (forall parsed, urlparse (Web := sample_web) other_host = Returned parsed ->
     netloc parsed <> site_host) /\
  fst (_should_crawl_url (U := basic_latin) (W := sample_web) sample_config
         new_crawler other_host site_host 1) = false.
Proof.
  assert (forall parsed, urlparse (Web := sample_web) other_host = Returned parsed ->
            netloc parsed <> site_host) as H.
  { intros parsed Hp. vm_compute in Hp. injection Hp as <-. vm_compute. discriminate. }
  split; [exact H|].
  exact (domain_confinement (U := basic_latin) (W := sample_web) sample_config
           new_crawler other_host site_host 1 H).
Defined.

(** C3 (code defect).  On the sample site, started at page [a] with
    [max_depth = 3]: page [c], crawled first in the wave at depth 1, links to
    page [b], which waits in the same wave and is neither visited nor queued
    at that moment (the queue was emptied when the wave began), so [b] is
    admitted for the next wave.  After the wave, [b] is both visited and
    queued, and the wave at depth 2 crawls it a second time. *)
Theorem page_is_crawled_twice :
  (exists st results,
     crawl_website (U := basic_latin) (W := sample_web) sample_config new_crawler page_a
       = Returned (st, results) /\
     crawls (rev (trace st)) = [(page_a, 0%Z); (page_c, 1%Z); (page_b, 1%Z); (page_b, 2%Z)]) /\
  (exists st results,
     waves (U := basic_latin) (W := sample_web) sample_config 2 site_host 0
       (set_queued {[page_a]} new_crawler) [] = (st, results) /\
     elements (visited_urls st ∩ queued_urls st) = [page_b]).
Proof.
  split; eexists; eexists; (split; [vm_compute; reflexivity|]); vm_compute; reflexivity.
Qed.

(** C9 as stated fails on the code: [urlparse] raises on this URL (an
    unbalanced bracket in the authority), the exception is caught by the
    handler of [_should_crawl_url], and the URL is rejected. *)
Lemma parse_error_rejects_url :
  urlparse (Web := sample_web) bad_url = Raised /\
  (forall base_domain,
     fst (_should_crawl_url (U := basic_latin) (W := sample_web) sample_config
            new_crawler bad_url base_domain 1) = false).
Proof. split; [vm_compute; reflexivity|]. intros base_domain. reflexivity. Qed.

Lemma sample_static_checks parsed :
  netloc parsed = site_host -> path parsed = lit "/x" ->
  passes_static_checks (U := basic_latin) sample_config new_crawler parsed in_site site_host 1.
Proof.
  intros Hhost Hpath. split_and!; try done.
  intros ext Hin. rewrite Hpath.
  repeat (apply elem_of_cons in Hin as [->|Hin]; [reflexivity|]).
  by apply elem_of_nil in Hin.
Qed.

(** A page of the site is admitted when the parser of robots.txt raises, and
    when robots.txt cannot be loaded; a URL that [urlparse] refuses is
    rejected. *)
Lemma admission_exception_policy_witness :
  fst (_should_crawl_url (U := basic_latin) (W := broken_robots_web) sample_config
         new_crawler in_site site_host 1) = true /\
  fst (_should_crawl_url (U := basic_latin) (W := unloadable_robots_web) sample_config
         new_crawler in_site site_host 1) = true /\
  fst (_should_crawl_url (U := basic_latin) (W := sample_web) sample_config
         new_crawler bad_url site_host 1) = false.
Proof.
  split_and!.
  - destruct (admission_exception_policy (U := basic_latin) (W := broken_robots_web)
                sample_config new_crawler in_site site_host 1) as (_ & _ & _ & _ & H & _).
    edestruct H as [_ Hq];
      [reflexivity|by apply sample_static_checks|reflexivity|by apply Hq].
  - destruct (admission_exception_policy (U := basic_latin) (W := unloadable_robots_web)
                sample_config new_crawler in_site site_host 1) as (_ & _ & _ & _ & H & _).
    edestruct H as [_ Hq];
      [reflexivity|by apply sample_static_checks|exact I|by apply Hq].
  - destruct (admission_exception_policy (U := basic_latin) (W := sample_web)
                sample_config new_crawler bad_url site_host 1) as (_ & _ & _ & _ & _ & H & _).
    apply H. reflexivity.
Defined.

(** The domain lists are read whole: a host that is the only excluded domain
    is rejected, one that is the only allowed domain is admitted, and any
    other host is rejected when a domain is allowed. *)
Definition with_lists (allowed excluded : option (list str)) : Config := {|
  max_depth := max_depth sample_config;
  max_pages := max_pages sample_config;
  user_agent := user_agent sample_config;
  allowed_domains := allowed;
  excluded_domains := excluded;
  excluded_extensions := excluded_extensions sample_config;
|}.

Lemma domain_lists_are_read_whole :
  fst (_should_crawl_url (U := basic_latin) (W := sample_web)
         (with_lists None (Some [site_host])) new_crawler in_site site_host 1) = false /\
  fst (_should_crawl_url (U := basic_latin) (W := sample_web)
         (with_lists (Some [site_host]) None) new_crawler in_site site_host 1) = true /\
  fst (_should_crawl_url (U := basic_latin) (W := sample_web)
         (with_lists (Some [lit "other.example"]) None) new_crawler in_site site_host 1) = false.
Proof. vm_compute. repeat split. Qed.

End CrawlRuns.

(** ** The crawl frontier: which pages a run fetches *)

Module FrontierFacts.
Import Py Re Data WebsiteCrawler CrawlFacts.

Section Frontier.
Context {U : Unicode} {W : Web}.
Variable config : Config.

(** What an admitted URL has passed, as far as the URL itself decides. *)
Definition admissible (base_domain url : str) : Prop :=
  exists parsed, urlparse url = Returned parsed /\
    netloc parsed = base_domain /\
    (forall allowed, nonempty_list (allowed_domains config) = Some allowed ->
       netloc parsed ∈ allowed) /\
    (forall excluded, nonempty_list (excluded_domains config) = Some excluded ->
       netloc parsed ∉ excluded) /\
    (forall ext, ext ∈ excluded_extensions config ->
       endswith ext (lower (path parsed)) = false).

Lemma should_crawl_admissible self url base depth :
  fst (_should_crawl_url config self url base depth) = true ->
  admissible base url /\ (url ∉ visited_urls self) /\ (url ∉ queued_urls self) /\
  (depth < max_depth config)%Z.
Proof.
  unfold _should_crawl_url. destruct (urlparse url) as [parsed|] eqn:Hp; [|done].
  destruct (Z.leb_spec (max_depth config) depth); [done|].
  destruct (bool_decide (url ∈ visited_urls self)) eqn:Hv; [done|].
  destruct (bool_decide (url ∈ queued_urls self)) eqn:Hq; [done|]. cbn [orb].
  apply bool_decide_eq_false in Hv, Hq.
  destruct (match nonempty_list (allowed_domains config) with Some _ => _ | None => _ end)
    eqn:Ha; [done|].
  destruct (match nonempty_list (excluded_domains config) with Some _ => _ | None => _ end)
    eqn:He; [done|].
  destruct (str_eqb (netloc parsed) base) eqn:Hb; [|done]. cbn [negb].
  destruct (existsb _ (excluded_extensions config)) eqn:Hx; [done|].
  intros _. split_and!; try done. exists parsed. split_and!; [done|..].
  - by apply bool_decide_eq_true in Hb.
  - intros allowed Hal. rewrite Hal in Ha. apply negb_false_iff in Ha.
    by apply bool_decide_eq_true in Ha.
  - intros excluded Hex. rewrite Hex in He. by apply bool_decide_eq_false in He.
  - intros ext Hin. destruct (endswith ext (lower (path parsed))) eqn:Hend; [|done].
    assert (existsb (fun ext => endswith ext (lower (path parsed)))
              (excluded_extensions config) = true) as Habs; [|congruence].
    apply existsb_exists. exists ext. split; [by apply list_elem_of_In|done].
Qed.

(** *** The URLs of a run *)

Variables start_url base_domain : str.

(** The start URL, and the URLs admission lets through. *)
Definition on_site (u : str) : Prop := u = start_url \/ admissible base_domain u.

(** The URLs an event names. *)
Definition urls_of (ev : event) : list str :=
  match ev with
  | EvWave _ urls _ => urls
  | EvCrawl url _ => [url]
  | EvLinks url _ => [url]
  end.

(** Everything queued and everything fetched so far satisfies [on_site]. *)
Definition frontier_in (self : Crawler) : Prop :=
  (forall u, u ∈ queued_urls self -> on_site u) /\
  Forall (fun ev => Forall on_site (urls_of ev)) (trace self).

Lemma frontier_in_same a b : same_frontier a b -> frontier_in a -> frontier_in b.
Proof. intros (_ & Hq & _ & Ht) [H1 H2]. split; by rewrite ?Hq, ?Ht. Qed.

Lemma frontier_in_log ev a : Forall on_site (urls_of ev) -> frontier_in a -> frontier_in (log ev a).
Proof. intros Hev [H1 H2]. split; [done|]. by constructor. Qed.

Lemma admit_links_in depth links : forall self next,
  (forall u, u ∈ next -> on_site u) ->
  forall u, u ∈ snd (admit_links config base_domain depth links self next) -> on_site u.
Proof.
  induction links as [|link rest IH]; intros self next Hn; simpl; [done|].
  destruct (_should_crawl_url config self link base_domain (depth + 1)) as [ok self'] eqn:Hs.
  apply IH. destruct ok; [|done].
  intros u [->%elem_of_singleton|Hu]%elem_of_union; [|by apply Hn].
  right.
  by apply (should_crawl_admissible self link base_domain (depth + 1)%Z); rewrite Hs.
Qed.

(** The state of a wave: its crawler and the links admitted so far. *)
Definition wave_in (st : wave_state) : Prop :=
  frontier_in (ws_self st) /\ forall u, u ∈ ws_next st -> on_site u.

Lemma process_result_in depth url result st :
  on_site url -> wave_in st -> wave_in (process_result config base_domain depth url result st).
Proof.
  intros Hu [Hf Hn]. unfold process_result.
  set (self1 := set_visited _ _).
  assert (frontier_in self1) as H1 by (by destruct Hf).
  assert (frontier_in (log (EvLinks url depth) self1)) as H2.
  { apply frontier_in_log; [|done]. simpl. by constructor. }
  destruct result as [r| |reason]; [|by split..].
  destruct (depth <? max_depth config - 1)%Z; [|by split].
  destruct (fetch_page (trace self1) url) as [content|reason].
  - destruct (bool_decide (content = [])); [by split|].
    destruct (admit_links _ _ _ _ _ _) as [self2 next2] eqn:Ha.
    pose proof (admit_links_frontier config base_domain depth (extract_links content url)
                  (log (EvLinks url depth) self1) (ws_next st)) as Hsame.
    pose proof (admit_links_in depth (extract_links content url)
                  (log (EvLinks url depth) self1) (ws_next st) Hn) as Hin.
    rewrite Ha in Hsame, Hin. split; [|done]. by eapply frontier_in_same.
  - split; [|done]. by destruct H2.
Qed.

Lemma process_results_in depth items : forall st,
  Forall (fun item => on_site (fst item)) items -> wave_in st ->
  wave_in (process_results config base_domain depth items st).
Proof.
  induction items as [|[url result] rest IH]; intros st Hi Hw; simpl; [done|].
  apply Forall_cons in Hi as [Hu Hi].
  pose proof (process_result_in depth url result st Hu Hw) as H1.
  destruct (budget_spent _ _); [done|]. by apply IH.
Qed.

Lemma crawl_batch_in depth seen batch : forall self,
  Forall on_site batch -> frontier_in self ->
  Forall (fun item => on_site (fst item)) (fst (crawl_batch depth seen batch self)) /\
  frontier_in (snd (crawl_batch depth seen batch self)).
Proof.
  induction batch as [|url rest IH]; intros self Hb Hf; simpl; [by split|].
  apply Forall_cons in Hb as [Hu Hb].
  set (self1 := match crawl_page seen url depth with Failed reason => _ | _ => _ end).
  assert (frontier_in self1) as H1.
  { assert (frontier_in (log (EvCrawl url depth) self)) as Hl
      by (apply frontier_in_log; [simpl; by constructor|done]).
    unfold self1. destruct (crawl_page seen url depth); try done; by destruct Hl. }
  destruct (IH self1 Hb H1) as [H2 H3].
  destruct (crawl_batch depth seen rest self1) as [items self2]. simpl in *.
  split; [by constructor|done].
Qed.

Lemma process_batches_in depth batches : forall st,
  Forall (Forall on_site) batches -> wave_in st ->
  wave_in (process_batches config base_domain depth batches st).
Proof.
  induction batches as [|batch rest IH]; intros st Hb [Hf Hn]; simpl; [done|].
  apply Forall_cons in Hb as [Hb1 Hb].
  destruct (crawl_batch_in depth (trace (ws_self st)) batch (ws_self st) Hb1 Hf) as [H1 H2].
  destruct (crawl_batch depth (trace (ws_self st)) batch (ws_self st)) as [items self1].
  simpl in *.
  pose proof (process_results_in depth items
                {| ws_self := self1; ws_next := ws_next st; ws_results := ws_results st |}
                H1 (conj H2 Hn)) as H3.
  destruct (budget_spent _ _); [done|]. by apply IH.
Qed.

Lemma batches_of_in n : forall fuel urls,
  Forall on_site urls -> Forall (Forall on_site) (batches_of fuel n urls).
Proof.
  induction fuel as [|fuel IH]; intros urls Hu; simpl; [done|].
  destruct urls as [|u rest]; [done|]. constructor.
  - by apply Forall_take.
  - apply IH. by apply Forall_drop.
Qed.

Lemma wave_in_run depth self results self' results' :
  frontier_in self ->
  wave config base_domain depth self results = Some (self', results') ->
  frontier_in self'.
Proof.
  intros [Hq Ht]. unfold wave.
  destruct (_ <=? 0)%Z; [done|].
  set (urls := if (_ <? _)%Z then _ else _).
  assert (Forall on_site urls) as Hu.
  { assert (Forall on_site (set_to_list (queued_urls self))) as Hall.
    { apply Forall_forall. intros u Hin. apply Hq.
      rewrite (set_to_list_perm (queued_urls self)) in Hin. by apply elem_of_elements in Hin. }
    unfold urls. destruct (_ <? _)%Z; [by apply Forall_take|done]. }
  set (st0 := {| ws_self := log _ _; ws_next := ∅; ws_results := results |}).
  assert (wave_in st0) as H0.
  { split; [|set_solver]. split; [simpl; set_solver|]. by constructor. }
  pose proof (process_batches_in depth
                (batches_of (length urls) (Nat.min 20 (length urls)) urls) st0
                (batches_of_in _ _ _ Hu) H0) as [[H1 H2] H3].
  intros [= <- <-]. split; [|done]. simpl.
  intros u [Hin|Hin]%elem_of_union; [by apply H3|by apply H1].
Qed.

Lemma waves_in n : forall depth self results,
  frontier_in self -> frontier_in (fst (waves config n base_domain depth self results)).
Proof.
  induction n as [|n IH]; intros depth self results Hf; simpl; [done|].
  destruct (wave_due config self depth); [|done].
  destruct (wave config base_domain depth self results) as [[self' results']|] eqn:Hw.
  - apply IH. by eapply wave_in_run.
  - destruct Hf as [_ Ht]. split; [simpl; set_solver|done].
Qed.

End Frontier.

Section Runs.
Context {U : Unicode} {W : Web}.
Variable config : Config.

(** *** Which pages a run fetches *)

(** [u] was crawled in the run so far. *)
Definition fetched (u : str) (self : Crawler) : Prop :=
  exists depth, In (EvCrawl u depth) (trace self).

Lemma fetched_same a b u : same_frontier a b -> fetched u b <-> fetched u a.
Proof. intros (_ & _ & _ & Ht). unfold fetched. by rewrite Ht. Qed.

Lemma process_result_fetched base depth url result st u :
  fetched u (ws_self (process_result config base depth url result st)) <->
  fetched u (ws_self st).
Proof.
  unfold process_result. set (self1 := set_visited _ _).
  assert (forall s, trace s = trace self1 -> fetched u s <-> fetched u (ws_self st)) as Hsame.
  { intros s Hs. unfold fetched. by rewrite Hs. }
  assert (forall s, trace s = EvLinks url depth :: trace self1 ->
            fetched u s <-> fetched u (ws_self st)) as Hlinks.
  { intros s Hs. unfold fetched. rewrite Hs. simpl.
    split; [intros (d & [[=]|H]); by exists d|intros (d & H); exists d; by right]. }
  destruct result as [r| |reason]; [|by apply Hsame..].
  destruct (depth <? max_depth config - 1)%Z; [|by apply Hsame].
  destruct (fetch_page (trace self1) url) as [content|reason]; [|by apply Hlinks].
  destruct (bool_decide (content = [])); [by apply Hlinks|].
  destruct (admit_links _ _ _ _ _ _) as [self2 next2] eqn:Ha.
  pose proof (admit_links_frontier config base depth (extract_links content url)
                (log (EvLinks url depth) self1) (ws_next st)) as Hf.
  rewrite Ha in Hf. destruct Hf as (_ & _ & _ & Ht). by apply Hlinks.
Qed.

Lemma process_result_visited base depth url result st :
  visited_urls (ws_self (process_result config base depth url result st))
  = {[url]} ∪ visited_urls (ws_self st).
Proof.
  unfold process_result. set (self1 := set_visited _ _).
  destruct result as [r| |reason]; [|done..].
  destruct (depth <? max_depth config - 1)%Z; [|done].
  destruct (fetch_page (trace self1) url) as [content|reason]; [|done].
  destruct (bool_decide (content = [])); [done|].
  destruct (admit_links _ _ _ _ _ _) as [self2 next2] eqn:Ha.
  pose proof (admit_links_frontier config base depth (extract_links content url)
                (log (EvLinks url depth) self1) (ws_next st)) as Hf.
  rewrite Ha in Hf. by destruct Hf as (Hv & _).
Qed.

(** The inner loop with enough budget for all its items: none is skipped. *)
Lemma process_results_all base depth items : forall st,
  (pages (ws_self st) + Z.of_nat (length items) <= max_pages config)%Z ->
  let st' := process_results config base depth items st in
  (forall u, fetched u (ws_self st') <-> fetched u (ws_self st)) /\
  visited_urls (ws_self st') = list_to_set (map fst items) ∪ visited_urls (ws_self st) /\
  (pages (ws_self st') <= pages (ws_self st) + Z.of_nat (length items))%Z.
Proof.
  induction items as [|[url result] rest IH]; intros st Hb; simpl.
  - split_and!; [done|by rewrite (left_id_L ∅ (∪))|lia].
  - pose proof (process_result_visited base depth url result st) as Hv.
    pose proof (pages_add url (ws_self st)) as Hp.
    set (st1 := process_result config base depth url result st) in *.
    assert (pages (ws_self st1) <= pages (ws_self st) + 1)%Z as Hp1
      by (unfold pages at 1; by rewrite Hv).
    unfold budget_spent. fold (pages (ws_self st1)).
    destruct (Z.leb_spec (max_pages config) (pages (ws_self st1))) as [Hs|Hs].
    + assert (rest = []) as -> by (destruct rest; [done|simpl in *; lia]).
      split_and!; [intros u; apply process_result_fetched| |simpl; lia].
      simpl. by rewrite Hv, (right_id_L ∅ (∪)).
    + destruct (IH st1) as (H1 & H2 & H3); [simpl in *; lia|].
      split_and!.
      * intros u. rewrite H1. apply process_result_fetched.
      * rewrite H2, Hv. simpl.
        by rewrite (assoc_L (∪)), (comm_L (∪) (list_to_set _)).
      * simpl in *. lia.
Qed.

Lemma crawl_batch_all depth seen batch : forall self,
  let res := crawl_batch depth seen batch self in
  map fst (fst res) = batch /\
  visited_urls (snd res) = visited_urls self /\
  (forall u, fetched u (snd res) <-> u ∈ batch \/ fetched u self).
Proof.
  induction batch as [|url rest IH]; intros self; simpl.
  - split_and!; [done..|]. intros u. split; [by right|]. intros [H|H]; [|done].
    by apply elem_of_nil in H.
  - set (self1 := match crawl_page seen url depth with Failed reason => _ | _ => _ end).
    assert (visited_urls self1 = visited_urls self /\
            trace self1 = EvCrawl url depth :: trace self) as [Hv Ht]
      by (unfold self1; by destruct (crawl_page seen url depth)).
    destruct (IH self1) as (H1 & H2 & H3).
    destruct (crawl_batch depth seen rest self1) as [items self2]. simpl in *.
    split_and!; [by rewrite H1|congruence|].
    intros u. rewrite H3, elem_of_cons. unfold fetched. rewrite Ht. simpl.
    split.
    + intros [H|(d & [[= <- <-]|H])]; [by left; right|by left; left|right; by exists d].
    + intros [[->|H]|(d & H)]; [right; exists depth; by left|by left|right; exists d; by right].
Qed.

(** The crawler keeps what it fetched: every page crawled is visited. *)
Definition keeps_fetched (visited0 : gset str) (self : Crawler) : Prop :=
  forall u, u ∈ visited_urls self <-> u ∈ visited0 \/ fetched u self.

Lemma process_batches_all base depth batches : forall st,
  (pages (ws_self st) + Z.of_nat (length (concat batches)) <= max_pages config)%Z ->
  forall visited0, keeps_fetched visited0 (ws_self st) ->
  keeps_fetched visited0 (ws_self (process_batches config base depth batches st)).
Proof.
  induction batches as [|batch rest IH]; intros st Hb visited0 Hk; simpl; [done|].
  destruct (crawl_batch_all depth (trace (ws_self st)) batch (ws_self st)) as (H1 & H2 & H3).
  destruct (crawl_batch depth (trace (ws_self st)) batch (ws_self st)) as [items self1].
  simpl in *. rewrite length_app in Hb.
  set (st1 := {| ws_self := self1; ws_next := ws_next st; ws_results := ws_results st |}).
  assert (length items = length batch) as Hlen by (by rewrite <- H1, length_map).
  destruct (process_results_all base depth items st1) as (H4 & H5 & H6).
  { unfold pages in *. simpl. rewrite H2, Hlen. lia. }
  set (st2 := process_results config base depth items st1) in *.
  assert (keeps_fetched visited0 (ws_self st2)) as Hk2.
  { intros u. rewrite H5, H4, H1. simpl. rewrite H3, elem_of_union, elem_of_list_to_set, H2.
    rewrite (Hk u). tauto. }
  destruct (budget_spent config (ws_self st2)); [done|].
  apply IH; [|done]. unfold pages in *. simpl in *. rewrite H2, Hlen in H6. lia.
Qed.

Lemma wave_keeps_fetched base depth self results self' results' visited0 :
  wave config base depth self results = Some (self', results') ->
  keeps_fetched visited0 self -> keeps_fetched visited0 self'.
Proof.
  unfold wave.
  change (visited_urls (set_queued ∅ self)) with (visited_urls self). fold (pages self).
  destruct (Z.leb_spec (max_pages config - pages self) 0); [done|].
  set (urls := if (_ <? _)%Z then _ else _).
  assert (Z.of_nat (length urls) <= max_pages config - pages self)%Z as Hlen.
  { unfold urls. destruct (Z.ltb_spec (max_pages config - pages self)
                             (Z.of_nat (length (set_to_list (queued_urls self))))).
    - rewrite length_firstn. lia.
    - done. }
  set (st0 := {| ws_self := log _ _; ws_next := ∅; ws_results := results |}).
  intros [= <- <-] Hk.
  assert (keeps_fetched visited0 (ws_self st0)) as Hk0.
  { intros u. simpl. rewrite (Hk u). unfold fetched. simpl.
    split; [intros [Hu|(d & Hu)]; [by left|right; exists d; by right]|].
    intros [Hu|(d & [[=]|Hu])]; [by left|right; by exists d]. }
  assert (concat (batches_of (length urls) (Nat.min 20 (length urls)) urls) = urls) as Hcat.
  { destruct urls as [|u l] eqn:Hu; [done|]. apply batches_of_concat; simpl; lia. }
  pose proof (process_batches_all base depth _ st0
                ltac:(rewrite Hcat; unfold pages in *; simpl; lia) visited0 Hk0) as Hk1.
  intros u. apply (Hk1 u).
Qed.

Lemma waves_keep_fetched n : forall base depth self results visited0,
  keeps_fetched visited0 self ->
  keeps_fetched visited0 (fst (waves config n base depth self results)).
Proof.
  induction n as [|n IH]; intros base depth self results visited0 Hk; simpl; [done|].
  destruct (wave_due config self depth); [|done].
  destruct (wave config base depth self results) as [[self' results']|] eqn:Hw; [|done].
  apply IH. by eapply wave_keeps_fetched.
Qed.

(** X1.  When the crawl of [crawl_website] has run, the visited set is what
    it was before together with exactly the pages the run crawled: nothing is
    marked visited without a fetch, and the two [break]s on the page budget
    never drop a page that was fetched (a wave is cut to the budget before it
    is crawled). *)
Theorem visited_are_the_fetched_pages (self : Crawler) (start_url : str) :
  match crawl_website config self start_url with
  | Returned (st, _) =>
      forall u, u ∈ visited_urls st <-> u ∈ visited_urls self \/ fetched u st
  | Raised => True
  end.
Proof.
  unfold crawl_website. destruct (urlparse start_url) as [parsed|]; [|done].
  pose proof (waves_keep_fetched (Z.to_nat (max_depth config)) (netloc parsed) 0
                (set_queued ({[start_url]} ∪ queued_urls self) (start_trace self)) []
                (visited_urls self)) as Hk.
  destruct (waves _ _ _ _ _ _) as [st results]. apply Hk.
  intros v. simpl. unfold fetched. simpl. split; [tauto|]. by intros [H|(d & [])].
Qed.

(** X2.  Started with an empty queue, a run of [crawl_website] only ever
    fetches the start URL and URLs that passed the admission check: on the
    host of the start URL, on the list of allowed domains and not on the list
    of excluded ones when these are set, and without an excluded extension.
    This holds for the waves, the page crawls and the fetches for links. *)
Theorem crawl_fetches_only_admitted_urls (self : Crawler) (start_url : str) :
  queued_urls self = ∅ ->
  match crawl_website config self start_url, urlparse start_url with
  | Returned (st, _), Returned parsed =>
      forall ev url, In ev (trace st) -> In url (urls_of ev) ->
        url = start_url \/ admissible config (netloc parsed) url
  | Raised, Raised => True
  | _, _ => False
  end.
Proof.
  intros Hq. unfold crawl_website. destruct (urlparse start_url) as [parsed|]; [|done].
  pose proof (waves_in config start_url (netloc parsed) (Z.to_nat (max_depth config)) 0
                (set_queued ({[start_url]} ∪ queued_urls self) (start_trace self)) []) as Hin.
  destruct (waves _ _ _ _ _ _) as [st results]. simpl in Hin.
  destruct Hin as [_ Ht].
  - split; [|by constructor]. simpl. rewrite Hq.
    intros u [->%elem_of_singleton|[]%elem_of_empty]%elem_of_union. by left.
  - intros ev url Hev Hurl. rewrite List.Forall_forall in Ht.
    specialize (Ht ev Hev). rewrite List.Forall_forall in Ht. by apply Ht.
Qed.

(** *** The first wave *)

Lemma continues_In a b ev : continues config a b -> In ev (trace a) -> In ev (trace b).
Proof. intros [_ (evs & -> & _)] H. apply in_or_app. by right. Qed.

Lemma crawl_batch_logs depth seen url rest self :
  (depth < max_depth config)%Z ->
  In (EvCrawl url depth) (trace (snd (crawl_batch depth seen (url :: rest) self))).
Proof.
  intros Hd. simpl.
  set (self1 := match crawl_page seen url depth with Failed reason => _ | _ => _ end).
  assert (In (EvCrawl url depth) (trace self1)) as H1
    by (unfold self1; destruct (crawl_page seen url depth); by left).
  pose proof (crawl_batch_spec config depth seen rest self1 Hd) as [Hc _].
  destruct (crawl_batch depth seen rest self1) as [items self2]. simpl in *.
  by eapply continues_In.
Qed.

(** The first URL of a wave is crawled in it. *)
Lemma wave_crawls_first base depth self results self' results' url rest :
  wave_due config self depth = true ->
  set_to_list (queued_urls self) = url :: rest ->
  wave config base depth self results = Some (self', results') ->
  In (EvCrawl url depth) (trace self').
Proof.
  intros (_ & Hd & Hp)%wave_due_spec Hl. unfold wave.
  change (visited_urls (set_queued ∅ self)) with (visited_urls self). fold (pages self).
  destruct (Z.leb_spec (max_pages config - pages self) 0); [lia|].
  rewrite Hl.
  set (urls := if (_ <? _)%Z then _ else _).
  assert (exists rest', urls = url :: rest') as [rest' Hu].
  { unfold urls. destruct (_ <? _)%Z; [|by eexists].
    destruct (Z.to_nat (max_pages config - pages self)) eqn:Hn; [lia|]. by eexists. }
  rewrite Hu. set (self1 := log _ _).
  change (batches_of (length (url :: rest')) (Nat.min 20 (length (url :: rest'))) (url :: rest'))
    with (firstn (Nat.min 20 (S (length rest'))) (url :: rest')
          :: batches_of (length rest') (Nat.min 20 (S (length rest')))
               (skipn (Nat.min 20 (S (length rest'))) (url :: rest'))).
  destruct (Nat.min 20 (S (length rest'))) as [|m] eqn:Hm; [lia|].
  cbn [firstn process_batches ws_self ws_next ws_results].
  pose proof (crawl_batch_logs depth (trace self1) url (firstn m rest') self1 Hd) as Hlog.
  destruct (crawl_batch depth (trace self1) (url :: firstn m rest') self1) as [items self2]
    eqn:Hb.
  pose proof (crawl_batch_spec config depth (trace self1) (url :: firstn m rest') self1 Hd)
    as [_ Hv].
  rewrite Hb in Hv. simpl in Hlog, Hv.
  set (st1 := {| ws_self := self2; ws_next := ∅; ws_results := results |}).
  destruct (process_results_spec config base depth items st1 Hd) as [H3 H4].
  { unfold pages in *. simpl. by rewrite Hv. }
  set (st2 := process_results config base depth items st1) in *.
  assert (In (EvCrawl url depth) (trace (ws_self st2))) as H5 by (by eapply continues_In).
  unfold budget_spent. fold (pages (ws_self st2)).
  destruct (Z.leb_spec (max_pages config) (pages (ws_self st2))) as [Hs|Hs].
  - by intros [= <- <-].
  - destruct (process_batches_spec config base depth
                (batches_of (length rest') (S m) (skipn (S m) (url :: rest'))) st2 Hd Hs)
      as [H6 _].
    intros [= <- <-]. simpl. by eapply continues_In.
Qed.

(** X3.  Started with an empty queue, [crawl_website] crawls the start URL
    at depth 0 exactly when [max_depth] is positive and fewer than
    [max_pages] pages are visited already: no admission check (robots.txt,
    domain lists, extensions, already visited) applies to the start URL, and
    nothing at all is fetched otherwise. *)
Theorem start_url_is_crawled_unchecked (self : Crawler) (start_url : str) :
  queued_urls self = ∅ ->
  match crawl_website config self start_url with
  | Returned (st, _) =>
      (In (EvCrawl start_url 0) (trace st) <->
       (0 < max_depth config)%Z /\ (pages self < max_pages config)%Z) /\
      (~ ((0 < max_depth config)%Z /\ (pages self < max_pages config)%Z) -> trace st = [])
  | Raised => urlparse start_url = Raised
  end.
Proof.
  intros Hq. unfold crawl_website. destruct (urlparse start_url) as [parsed|]; [|done].
  rewrite Hq, (right_id_L ∅ (∪)).
  set (self0 := set_queued {[start_url]} (start_trace self)).
  destruct (wave_due config self0 0) eqn:Hdue.
  - pose proof (wave_due_spec config _ _ Hdue) as (_ & Hd & Hp).
    change (pages self0) with (pages self) in Hp.
    destruct (Z.to_nat (max_depth config)) as [|n] eqn:Hn; [lia|].
    cbn [waves]. rewrite Hdue.
    destruct (wave config (netloc parsed) 0 self0 []) as [[self1 results1]|] eqn:Hw.
    + assert (set_to_list (queued_urls self0) = [start_url]) as Hl.
      { pose proof (set_to_list_perm (queued_urls self0)) as Hperm. simpl in Hperm.
        rewrite elements_singleton in Hperm. by apply Permutation_singleton_r in Hperm. }
      pose proof (wave_crawls_first _ _ _ _ _ _ _ _ Hdue Hl Hw) as H1.
      pose proof (waves_spec config n (netloc parsed) (0 + 1) self1 results1) as [Hc _].
      destruct (waves config n (netloc parsed) (0 + 1) self1 results1) as [st results].
      simpl in Hc. split; [|intros Hno; exfalso; by apply Hno].
      split; [done|]. intros _. by eapply continues_In.
    + exfalso. revert Hw. unfold wave.
      change (visited_urls (set_queued ∅ self0)) with (visited_urls self). fold (pages self).
      destruct (Z.leb_spec (max_pages config - pages self) 0); [lia|done].
  - rewrite waves_not_due by done. simpl.
    assert (~ ((0 < max_depth config)%Z /\ (pages self < max_pages config)%Z)) as Hno.
    { intros [Hd Hp]. unfold wave_due in Hdue.
      change (pages self0) with (pages self) in *. fold (pages self0) in Hdue.
      change (pages self0) with (pages self) in Hdue.
      apply andb_false_iff in Hdue as [Hdue|Hdue]; [|apply Z.ltb_ge in Hdue; lia].
      apply andb_false_iff in Hdue as [Hdue|Hdue]; [|apply Z.ltb_ge in Hdue; lia].
      apply negb_false_iff, bool_decide_eq_true in Hdue. simpl in Hdue.
      assert (start_url ∈ ({[start_url]} : gset str)) as Hin by (by apply elem_of_singleton).
      rewrite Hdue in Hin. by apply elem_of_empty in Hin. }
    split; [|done]. split; [by intros []|done].
Qed.

(** X4.  robots.txt is asked for once per host: after one call of
    [_get_robots_parser], a call for any URL of the same host returns the
    cached answer and leaves the crawler as it is, without loading anything;
    this includes the case of a load that failed, after which every URL of
    the host is allowed. *)
Theorem robots_txt_is_loaded_once (self self' : Crawler) (url url' : str)
    (parsed parsed' : ParseResult) (rp : option robot_parser) :
  urlparse url = Returned parsed -> urlparse url' = Returned parsed' ->
  netloc parsed' = netloc parsed ->
  _get_robots_parser self url = Returned (rp, self') ->
  _get_robots_parser self' url' = Returned (rp, self') /\
  (rp = None -> _can_fetch config self' url' = (true, self')).
Proof.
  intros Hp Hp' Hhost. unfold _can_fetch, _get_robots_parser. rewrite Hp, Hp', Hhost.
  destruct (robots_cache self !! netloc parsed) as [cached|] eqn:Hc.
  - intros [= <- <-]. rewrite Hc. split; [done|]. by intros ->.
  - intros [= <- <-]. simpl. rewrite lookup_insert_eq. split; [done|]. by intros ->.
Qed.

End Runs.
End FrontierFacts.

(** ** Post-processing: what validation and deduplication compose to *)

Module ValidatorLaws.
Import Py Re Data Outcome DataValidator ValidatorFacts.

(** *** Deduplication *)







(** *** Validation *)

Section Validation.
Context {U : Unicode}.
Variable validate_emails : bool.
Variable email_validator : option (str -> option str).

Abbreviation validate_one := (_validate_single_contact validate_emails email_validator).
Abbreviation validate_all := (validate_contacts validate_emails email_validator).

Lemma slices_of_concat n : forall fuel contacts,
  (1 <= n)%nat -> (length contacts <= fuel)%nat ->
  concat (slices_of fuel n contacts) = contacts.
Proof.
  induction fuel as [|fuel IH]; intros contacts Hn Hlen.
  - destruct contacts; [done|simpl in Hlen; lia].
  - destruct contacts as [|c rest]; [done|].
    change (slices_of (S fuel) n (c :: rest))
      with (firstn n (c :: rest) :: slices_of fuel n (skipn n (c :: rest))).
    cbn [concat]. rewrite IH; [apply firstn_skipn|done|].
    rewrite length_skipn. simpl in *. lia.
Qed.

Lemma validate_contacts_app l1 l2 : validate_all (l1 ++ l2) = validate_all l1 ++ validate_all l2.
Proof. unfold validate_contacts. apply flat_map_app. Qed.

Lemma validate_contacts_concat ls :
  flat_map validate_all ls = validate_all (concat ls).
Proof.
  induction ls as [|l ls IH]; [done|]. simpl. by rewrite IH, validate_contacts_app.
Qed.

(** X6.  Validating in batches gives what validating the whole list gives,
    whatever the positive batch size; with a batch size of zero
    [validate_batch] raises ([range] refuses the step), and with a negative
    one it returns no contact at all (the [range] is empty). *)
Theorem validate_batch_is_validate_contacts (contacts : list dict) (batch_size : Z) :
  validate_batch validate_emails email_validator contacts batch_size =
  if (batch_size =? 0)%Z then Raised
  else if (batch_size <? 0)%Z then Returned []
  else Returned (validate_all contacts).
Proof.
  unfold validate_batch.
  destruct (Z.eqb_spec batch_size 0); [done|].
  destruct (Z.ltb_spec batch_size 0); [done|].
  f_equal. rewrite validate_contacts_concat, slices_of_concat; [done|lia|done].
Qed.

Lemma add_validated_other k validate contact validated k' :
  k <> k' -> add_validated k validate contact validated !! k' = validated !! k'.
Proof.
  intros Hk. unfold add_validated.
  destruct (contact !! k) as [v|]; [|done]. destruct (validate v) as [v'|]; [|done].
  case_bool_decide; [done|]. by rewrite lookup_insert_ne.
Qed.

(** The record before the other fields are copied: its four first entries
    are those it was created with. *)
Definition validated_fields (validated_email : str) (contact : dict) : dict :=
  add_validated "company" _validate_company contact
    (add_validated "title" _validate_title contact
       (add_validated "phone" _validate_phone contact
          (add_validated "name" _validate_name contact
             (list_to_map
                [("email"%string, VStr validated_email);
                 ("source_url"%string, get_or "source_url" (VStr []) contact);
                 ("extraction_method"%string,
                    get_or "extraction_method" (VStr (lit "unknown")) contact);
                 ("confidence"%string, get_or "confidence" (VNum (dec 5 10)) contact)])))).

Lemma validated_fields_created validated_email contact :
  validated_fields validated_email contact !! "email"%string = Some (VStr validated_email) /\
  validated_fields validated_email contact !! "source_url"%string
    = Some (get_or "source_url" (VStr []) contact) /\
  validated_fields validated_email contact !! "confidence"%string
    = Some (get_or "confidence" (VNum (dec 5 10)) contact) /\
  validated_fields validated_email contact !! "validation_score"%string = None.
Proof.
  unfold validated_fields. rewrite !add_validated_other by done. by split_and!.
Qed.

Lemma copy_other_fields_lookup contact validated k v :
  validated !! k = Some v -> copy_other_fields contact validated !! k = Some v.
Proof. intros H. unfold copy_other_fields. by apply lookup_union_Some_l. Qed.

Lemma copy_other_fields_keeps contact validated k v :
  contact !! k = Some v -> truthy v = true -> is_Some (copy_other_fields contact validated !! k).
Proof.
  intros Hc Ht. unfold copy_other_fields.
  destruct (validated !! k) as [w|] eqn:Hv.
  - exists w. by apply lookup_union_Some_l.
  - exists v. rewrite lookup_union_r by done. rewrite lookup_omap, Hc. simpl. by rewrite Ht.
Qed.

Lemma calculate_validation_score_capped contact s :
  _calculate_validation_score contact = Returned s -> (s <= 1)%Qc.
Proof.
  unfold _calculate_validation_score.
  destruct (get_or "confidence" (VNum (dec 5 10)) contact) as [|x|confidence];
    [discriminate|discriminate|].
  match goal with
  | |- Returned (if bool_decide (?x < 1)%Qc then _ else _) = _ -> _ => generalize x
  end.
  intros x Hs. injection Hs as <-.
  case_bool_decide; [by apply Qclt_le_weak|apply Qcle_refl].
Qed.

(** What a returned record holds. *)
Lemma validated_record (contact validated : dict) :
  validate_one contact = Returned (Some validated) ->
  (exists email,
     _validate_email validate_emails email_validator (get "email" contact) = Some email /\
     email <> [] /\ validated !! "email"%string = Some (VStr email)) /\
  validated !! "source_url"%string = Some (get_or "source_url" (VStr []) contact) /\
  (exists s, validated !! "validation_score"%string = Some (VNum s) /\ (s <= 1)%Qc) /\
  (forall k v, contact !! k = Some v -> truthy v = true -> is_Some (validated !! k)).
Proof.
  unfold _validate_single_contact.
  destruct (truthy (get "email" contact)) eqn:Ht; [|discriminate]. cbn [negb].
  destruct (_validate_email _ _ (get "email" contact)) as [email|] eqn:He; [|discriminate].
  case_bool_decide as Hne; [discriminate|].
  fold (validated_fields email contact).
  destruct (validated_fields_created email contact) as (H1 & H2 & H3 & H4).
  destruct (_calculate_validation_score (validated_fields email contact)) as [s|] eqn:Hs;
    [|discriminate].
  intros Hrun. injection Hrun as <-. split_and!.
  - exists email. split_and!; [done..|].
    apply copy_other_fields_lookup. by rewrite lookup_insert_ne.
  - apply copy_other_fields_lookup. by rewrite lookup_insert_ne.
  - exists s. split; [|by eapply calculate_validation_score_capped].
    apply copy_other_fields_lookup. by rewrite lookup_insert_eq.
  - intros k v. apply copy_other_fields_keeps.
Qed.



Lemma validate_contacts_elem contacts r :
  r ∈ validate_all contacts <-> exists c, c ∈ contacts /\ validate_one c = Returned (Some r).
Proof.
  unfold validate_contacts. rewrite list_elem_of_In, in_flat_map. split.
  - intros (c & Hc & Hr). exists c. split; [by apply list_elem_of_In|].
    destruct (validate_one c) as [[v|]|]; try done. by destruct Hr as [->|[]].
  - intros (c & Hc & Hr). exists c. split; [by apply list_elem_of_In|].
    rewrite Hr. by left.
Qed.

(** X8.  With the basic format check in force (validation by the
    [email_validator] package switched off, or the package missing), every
    contact [validate_contacts] returns has an address that matches the
    format pattern and none of the invalid-address patterns; it returns at
    most as many contacts as it was given. *)
Theorem validated_addresses_are_well_formed (contacts : list dict) (r : dict) :
  validate_emails = false \/ email_validator = None ->
  r ∈ validate_all contacts ->
  (exists email, r !! "email"%string = Some (VStr email) /\
     re_match basic_format email <> None /\
     any_search invalid_email_patterns email = false) /\
  (length (validate_all contacts) <= length contacts)%nat.
Proof.
  intros Hbasic Hr. split.
  - apply validate_contacts_elem in Hr as (c & _ & Hc).
    destruct (validated_record c r Hc) as ((email & He & _ & Hemail) & _).
    exists email. split; [done|].
    revert He. unfold _validate_email.
    destruct (get "email" c) as [|raw|]; try done.
    case_bool_decide; [done|].
    destruct (any_search invalid_email_patterns (lower (strip raw))) eqn:Hinv; [done|].
    assert (match validate_emails, email_validator with
            | true, Some validate_email => validate_email (lower (strip raw))
            | _, _ => if bool_decide (re_match basic_format (lower (strip raw)) <> None)
                      then Some (lower (strip raw)) else None
            end
            = if bool_decide (re_match basic_format (lower (strip raw)) <> None)
              then Some (lower (strip raw)) else None) as ->.
    { destruct Hbasic as [-> | ->]; [done|by destruct validate_emails]. }
    case_bool_decide as Hm; [|done].
    destruct (split c_at (lower (strip raw))) as [|? [|? ?]]; try done.
    by intros [= <-].
  - clear. induction contacts as [|c rest IH]; [done|].
    change (c :: rest) with ([c] ++ rest).
    rewrite validate_contacts_app, !length_app. unfold validate_contacts at 1.
    simpl. rewrite app_nil_r.
    destruct (validate_one c) as [[v|]|]; simpl; lia.
Qed.

End Validation.

End ValidatorLaws.

(** ** The results of a page and of a run *)

Module ResultFacts.
Import Py Re Data Outcome WebsiteCrawler DataValidator CrawlerResults.
Import PyFacts ValidatorFacts ValidatorLaws.

(** *** Links *)

Lemma hd_split_no_sep c s : ~ In c (List.hd [] (split c s)).
Proof.
  induction s as [|x t IH]; simpl; [by intros []|].
  destruct (N.eqb_spec x c) as [->|Hne]; [by intros []|].
  destruct (split c t) as [|h r] eqn:Hs; simpl in *.
  - intros [->|[]]. done.
  - intros [->|Hin]; [done|by apply IH].
Qed.

Section Links.
Context {U : Unicode}.
Variables soup tag : Type.
Variable parse_html : str -> option soup.
Variable find_all_a_href : soup -> list tag.
Variable href_of : tag -> str.
Variable urljoin : str -> str -> outcome str.

Lemma absolute_links_no_fragment base_url found links :
  absolute_links tag href_of urljoin base_url found = Returned links ->
  Forall (fun link => ~ In 35 link) links.
Proof.
  revert links. induction found as [|link rest IH]; intros links; simpl.
  - by intros [= <-].
  - case_bool_decide; [by apply IH|].
    destruct (urljoin base_url (strip (href_of link))) as [absolute_url|]; [|done].
    destruct (absolute_links tag href_of urljoin base_url rest) as [links'|]; [|done].
    intros [= <-]. constructor; [apply hd_split_no_sep|by apply IH].
Qed.

(** X9.  No link returned by [_extract_links] carries a fragment: the
    character [#] occurs in none of them. *)
Theorem extracted_links_have_no_fragment (content base_url : str) :
  Forall (fun link => ~ In 35 link)
    (_extract_links soup tag parse_html find_all_a_href href_of urljoin content base_url).
Proof.
  unfold _extract_links. destruct (parse_html content) as [sp|]; [|constructor].
  destruct (absolute_links tag href_of urljoin base_url (find_all_a_href sp)) as [links|] eqn:Hl;
    [|constructor].
  by eapply absolute_links_no_fragment.
Qed.

End Links.

(** *** Standard titles *)

Section Enhancement.
Context {U : Unicode} {W : Web}.

(** What the title mapping comes to. *)
Definition standard_title (title : str) : str :=
  if contains (lit "prof") (lower title) then lit "Professor"
  else if contains (lit "dr") (lower title) then lit "Dr."
  else title.

Lemma contains_suffix pre w s : contains (pre ++ w) s = true -> contains w s = true.
Proof.
  rewrite !contains_iff. intros (a & b & ->). exists (a ++ pre), b.
  by rewrite <- !app_assoc.
Qed.

Lemma find_title_mapping t :
  List.find (fun '(abbrev, _) => contains (lit abbrev) (lower t)) title_mapping
  = if contains (lit "prof") (lower t) then Some ("prof", "Professor")%string
    else if contains (lit "dr") (lower t) then Some ("dr", "Dr.")%string
    else None.
Proof.
  unfold title_mapping. cbn [List.find].
  destruct (contains (lit "prof") (lower t)) eqn:Hprof; [done|].
  destruct (contains (lit "assoc prof") (lower t)) eqn:H1.
  { apply (contains_suffix (lit "assoc ") (lit "prof")) in H1. congruence. }
  destruct (contains (lit "asst prof") (lower t)) eqn:H2.
  { apply (contains_suffix (lit "asst ") (lit "prof")) in H2. congruence. }
  by destruct (contains (lit "dr") (lower t)).
Qed.

Lemma enhance_name_title result r :
  enhance_name result = Returned r -> r !! "title"%string = result !! "title"%string.
Proof.
  unfold enhance_name.
  destruct (if negb _ then _ else _) as [[|]|]; simpl; [|by intros [= <-]|done].
  destruct (as_str _); simpl; [|done]. intros [= <-]. by rewrite lookup_insert_ne.
Qed.

Lemma enhance_company_title url result r :
  enhance_company url result = Returned r -> r !! "title"%string = result !! "title"%string.
Proof.
  unfold enhance_company. destruct (_ || _); [|by intros [= <-]].
  destruct (as_str _) as [email|]; simpl; [|done].
  destruct (split c_at email) as [|? [|email_domain ?]]; try done.
  destruct (extract_institution_info url email_domain); simpl; [|done].
  intros [= <-]. by rewrite lookup_insert_ne.
Qed.

Lemma enhance_title_standard result t r :
  result !! "title"%string = Some (VStr t) -> t <> [] ->
  enhance_title result = Returned r ->
  r !! "title"%string = Some (VStr (standard_title t)).
Proof.
  intros Ht Hne. unfold enhance_title, get_or. rewrite Ht.
  change (default (VStr []) (Some (VStr t))) with (VStr t).
  cbn [truthy]. rewrite bool_decide_eq_false_2 by done.
  cbn [negb as_str mbind outcome_bind mret outcome_ret].
  rewrite find_title_mapping. unfold standard_title.
  destruct (contains (lit "prof") (lower t)); [intros [= <-]; by rewrite lookup_insert_eq|].
  destruct (contains (lit "dr") (lower t)); intros [= <-]; [by rewrite lookup_insert_eq|done].
Qed.

Lemma enhance_confidence_title result r :
  enhance_confidence result = Returned r -> r !! "title"%string = result !! "title"%string.
Proof.
  unfold enhance_confidence. destruct (_ && _); [|by intros [= <-]].
  destruct (get_or _ _ _); try done. intros [= <-]. by rewrite lookup_insert_ne.
Qed.

Lemma enhance_result_title url result t r :
  result !! "title"%string = Some (VStr t) -> t <> [] ->
  enhance_result url result = Returned r ->
  r !! "title"%string = Some (VStr (standard_title t)).
Proof.
  intros Ht Hne. unfold enhance_result.
  destruct (enhance_name result) as [r1|] eqn:H1; simpl; [|done].
  destruct (enhance_company url r1) as [r2|] eqn:H2; simpl; [|done].
  destruct (enhance_title r2) as [r3|] eqn:H3; simpl; [|done].
  intros H4. rewrite (enhance_confidence_title _ _ H4).
  apply (enhance_title_standard r2); [|done..].
  by rewrite (enhance_company_title _ _ _ H2), (enhance_name_title _ _ H1).
Qed.

(** X10.  Of the four entries of the title mapping of
    [enhance_extracted_data], two can never apply: a title that contains
    "assoc prof" or "asst prof" contains "prof", which comes first.  Every
    record that has a title leaves with "Professor" when its title contains
    "prof" in any case, else with "Dr." when it contains "dr", else with the
    title it came with. *)
Theorem title_mapping_has_two_live_entries (results : list dict) (url : str) :
  match enhance_extracted_data results url with
  | Returned enhanced =>
      Forall2 (fun result result' =>
                 forall t, result !! "title"%string = Some (VStr t) -> t <> [] ->
                   result' !! "title"%string = Some (VStr (standard_title t)) /\
                   (contains (lit "assoc prof") (lower t) = true \/
                    contains (lit "asst prof") (lower t) = true ->
                    standard_title t = lit "Professor"))
              results enhanced
  | Raised => True
  end.
Proof.
  induction results as [|result rest IH]; simpl; [constructor|].
  destruct (enhance_result url result) as [r|] eqn:Hr; [|done].
  destruct (enhance_extracted_data rest url) as [enhanced|]; [|done].
  constructor; [|done]. intros t Ht Hne. split; [by eapply enhance_result_title|].
  unfold standard_title.
  intros [H|H].
  - apply (contains_suffix (lit "assoc ") (lit "prof")) in H. by rewrite H.
  - apply (contains_suffix (lit "asst ") (lit "prof")) in H. by rewrite H.
Qed.

End Enhancement.

(** *** The contacts of a run *)

Section Processed.
Context {U : Unicode}.
Variable validate_emails : bool.
Variable email_validator : option (str -> option str).
Variable timestamp : CrawlResult -> value.
Variable export_results : list dict -> str -> outcome str.

(** The contact carries the address of a page of the run. *)
Definition sourced (crawl_results : list CrawlResult) (c : dict) : Prop :=
  exists result, result ∈ crawl_results /\
    c !! "source_url"%string = Some (VStr (result_url result)).

Lemma all_contacts_sourced crawl_results c :
  c ∈ all_contacts timestamp crawl_results -> sourced crawl_results c.
Proof.
  unfold all_contacts. rewrite list_elem_of_In, in_flat_map.
  intros (result & Hr & Hc). apply in_map_iff in Hc as (c0 & <- & _).
  exists result. split; [by apply list_elem_of_In|].
  by rewrite lookup_insert_ne, lookup_insert_eq.
Qed.

Lemma validated_sourced crawl_results contacts r :
  (forall c, c ∈ contacts -> sourced crawl_results c) ->
  r ∈ validate_contacts validate_emails email_validator contacts ->
  sourced crawl_results r.
Proof.
  intros Hall Hr. apply validate_contacts_elem in Hr as (c & Hc & Hv).
  destruct (Hall c Hc) as (result & Hres & Hsrc). exists result. split; [done|].
  destruct (validated_record validate_emails email_validator c r Hv) as (_ & -> & _).
  unfold get_or. by rewrite Hsrc.
Qed.

(** X11.  The contacts [_process_results] returns have non-empty,
    pairwise distinct addresses, and each carries as ['source_url'] the
    address of a page of the run, with validation switched on or off.  On
    contacts whose scores are numbers (the case the embedding of
    [deduplicate_contacts] covers) it raises only when the exporter does. *)
Theorem processed_contacts_are_distinct_and_sourced
    (crawl_results : list CrawlResult) (start_url : str) :
  match _process_results validate_emails email_validator timestamp export_results
          crawl_results start_url with
  | Some (Returned contacts) =>
      NoDup (map email_of contacts) /\
      forall c, c ∈ contacts -> truthy (email_of c) = true /\ sourced crawl_results c
  | Some Raised => exists contacts, export_results contacts start_url = Raised
  | None => True
  end.
Proof.
  unfold _process_results.
  set (contacts0 := if validate_emails then _ else _).
  assert (forall c, c ∈ contacts0 -> sourced crawl_results c) as Hsrc.
  { assert (forall (b : bool) c,
              c ∈ (if b then validate_contacts validate_emails email_validator
                               (all_contacts timestamp crawl_results)
                   else all_contacts timestamp crawl_results) ->
              sourced crawl_results c) as Hb.
    { intros [|] c; [|apply all_contacts_sourced].
      apply validated_sourced. apply all_contacts_sourced. }
    apply (Hb validate_emails). }
  unfold deduplicate_contacts. destruct (forallb _ contacts0); [|done].
  set (unique := keep_first_seen ∅ (sorted_desc score contacts0)).
  destruct (export_results unique start_url) eqn:He; simpl; [|by exists unique].
  split; [apply keep_first_seen_nodup|].
  intros c Hc. apply keep_first_seen_elem in Hc as (Hc & Ht & _). split; [done|].
  apply Hsrc. by rewrite sorted_desc_perm in Hc.
Qed.

End Processed.

End ResultFacts.

(** ** Extraction: what the strategies of a page compose to *)

Module ExtractionFacts.
Import Py Re Data Outcome EmailExtractor ValidatorFacts.

Lemma find_app_l {A : Type} (P : A -> bool) l1 l2 r :
  List.find P l1 = Some r -> List.find P (l1 ++ l2) = Some r.
Proof. induction l1 as [|x l1 IH]; [done|]. simpl. by destruct (P x). Qed.

Lemma find_app_r {A : Type} (P : A -> bool) l1 l2 :
  List.find P l1 = None -> List.find P (l1 ++ l2) = List.find P l2.
Proof. induction l1 as [|x l1 IH]; [done|]. simpl. by destruct (P x). Qed.

Lemma find_none_iff {A : Type} (P : A -> bool) l :
  List.find P l = None <-> forall x, x ∈ l -> P x = false.
Proof.
  induction l as [|y l IH]; simpl.
  - split; [by intros _ x ?%elem_of_nil|done].
  - destruct (P y) eqn:Hy.
    + split; [done|]. intros H. rewrite H in Hy; [done|by left].
    + rewrite IH. split.
      * intros H x [->|Hx]%elem_of_cons; [done|by apply H].
      * intros H x Hx. apply H. by right.
Qed.

(** *** The merge of [extract_emails] *)

Definition has_email (email_data : dict) : Prop := is_Some (email_data !! "email"%string).

Definition same_email (r c : dict) : bool := bool_decide (email_of c = email_of r).

(** [details] holds, in order, the first record of every address among the
    records [merged] so far, and [found] the addresses. *)
Definition merged_so_far (merged : list dict) (state : gset value * list dict) : Prop :=
  Forall has_email merged /\
  (forall v, v ∈ fst state <-> exists c, c ∈ merged /\ email_of c = v) /\
  NoDup (map email_of (snd state)) /\
  (forall r, r ∈ snd state -> List.find (same_email r) merged = Some r).

Lemma has_email_get c : has_email c -> c !! "email"%string = Some (email_of c).
Proof. intros [v Hv]. unfold email_of, get. by rewrite Hv. Qed.

Lemma add_new_emails_merges emails : forall merged state,
  merged_so_far merged state -> Forall has_email emails ->
  (forall c, c ∈ merged -> exists r, r ∈ snd state /\ email_of r = email_of c) ->
  exists state',
    add_new_emails emails state = Returned state' /\
    merged_so_far (merged ++ emails) state' /\
    (forall c, c ∈ merged ++ emails -> exists r, r ∈ snd state' /\ email_of r = email_of c).
Proof.
  induction emails as [|x rest IH]; intros merged [found details] Hm Hall Hcov.
  - exists (found, details). by rewrite app_nil_r.
  - apply Forall_cons in Hall as [Hx Hall]. simpl. rewrite (has_email_get x Hx).
    destruct Hm as (Hem & Hfound & Hnd & Hfirst). simpl in *.
    replace (merged ++ x :: rest) with ((merged ++ [x]) ++ rest) by (by rewrite <- app_assoc).
    apply IH; [|done|].
    + case_bool_decide as Hin.
      * split_and!; simpl.
        -- apply Forall_app. split; [done|by constructor].
        -- intros v. rewrite Hfound. split.
           ++ intros (c & Hc & Hv). exists c. split; [|done]. apply elem_of_app. by left.
           ++ intros (c & Hc & Hv).
              apply elem_of_app in Hc as [Hc|Hc%list_elem_of_singleton]; [by exists c|].
              subst c. rewrite <- Hv. by apply Hfound.
        -- done.
        -- intros r Hr. by apply find_app_l, Hfirst.
      * assert (forall c, c ∈ merged -> same_email x c = false) as Hnone.
        { intros c Hc. apply bool_decide_eq_false. intros Heq. apply Hin, Hfound. by exists c. }
        split_and!; simpl.
        -- apply Forall_app. split; [done|by constructor].
        -- intros v. rewrite elem_of_union, elem_of_singleton, Hfound. split.
           ++ intros [->|(c & Hc & Hv)]; [exists x; split; [|done]; apply elem_of_app; right;
                                          by apply list_elem_of_singleton|].
              exists c. split; [|done]. apply elem_of_app. by left.
           ++ intros (c & Hc & Hv).
              apply elem_of_app in Hc as [Hc|Hc%list_elem_of_singleton];
                [right; by exists c|left; by subst c].
        -- rewrite map_app. simpl. apply NoDup_app. split_and!; [done| |apply NoDup_singleton].
           intros v (r & -> & Hr)%list_elem_of_fmap Hv%list_elem_of_singleton.
           apply Hfirst in Hr. apply find_some in Hr as [Hr1 Hr2].
           apply Hin, Hfound. exists r. split; [by apply list_elem_of_In|done].
        -- intros r [Hr| ->%list_elem_of_singleton]%elem_of_app.
           ++ by apply find_app_l, Hfirst.
           ++ rewrite find_app_r by (by apply find_none_iff). simpl.
              unfold same_email. by rewrite bool_decide_eq_true_2.
    + intros c [Hc| ->%list_elem_of_singleton]%elem_of_app.
      * destruct (Hcov c Hc) as (r & Hr & He). exists r. split; [|done].
        case_bool_decide; simpl; [done|]. apply elem_of_app. by left.
      * case_bool_decide as Hin; simpl.
        -- apply Hfound in Hin as (c & Hc & Hv). destruct (Hcov c Hc) as (r & Hr & He).
           exists r. split; [done|congruence].
        -- exists x. split; [|done]. apply elem_of_app. right. by apply list_elem_of_singleton.
Qed.

Lemma add_new_emails_raises emails : forall state,
  Exists (fun c => c !! "email"%string = None) emails -> add_new_emails emails state = Raised.
Proof.
  induction emails as [|x rest IH]; intros [found details] Hex; [by apply Exists_nil in Hex|].
  simpl. destruct (x !! "email"%string) as [email|] eqn:Hx; [|done].
  apply Exists_cons in Hex as [Hex|Hex]; [congruence|]. by apply IH.
Qed.

#[local] Instance has_email_dec (c : dict) : Decision (has_email c).
Proof. unfold has_email. apply _. Defined.

Lemma without_email emails :
  ~ Forall has_email emails -> Exists (fun c => c !! "email"%string = None) emails.
Proof.
  intros H. apply not_Forall_Exists in H; [|apply _].
  eapply Exists_impl; [exact H|]. intros c Hc. simpl in Hc.
  by apply eq_None_not_Some.
Qed.

Section Merge.
Variable soup : Type.
Variable parse_html : str -> option soup.
Variable _extract_mailto_links_enhanced : soup -> str -> outcome (list dict).
Variable _extract_standard_emails_enhanced : str -> str -> outcome (list dict).
Variable _extract_obfuscated_emails_enhanced : str -> soup -> outcome (list dict).

Abbreviation extract :=
  (extract_emails soup parse_html _extract_mailto_links_enhanced
     _extract_standard_emails_enhanced _extract_obfuscated_emails_enhanced).

(** X12.  [extract_emails] returns every address once: of the records the
    three strategies find (mailto links first, then the standard patterns,
    then the obfuscated forms), it keeps for each address the first one, in
    that order.  When the parser or a strategy raises, or a record has no
    ['email'] entry, it returns nothing. *)
Theorem extract_emails_keeps_first_of_each_address (content source_url : str) :
  match parse_html content with
  | Some sp =>
      match _extract_mailto_links_enhanced sp source_url,
            _extract_standard_emails_enhanced content source_url,
            _extract_obfuscated_emails_enhanced content sp with
      | Returned mailto_emails, Returned standard_emails, Returned obfuscated_emails =>
          let found := mailto_emails ++ standard_emails ++ obfuscated_emails in
          let result := extract content source_url in
          (Forall has_email found ->
             NoDup (map email_of result) /\
             (forall r, r ∈ result -> List.find (same_email r) found = Some r) /\
             (forall c, c ∈ found -> exists r, r ∈ result /\ email_of r = email_of c)) /\
          (~ Forall has_email found -> result = [])
      | _, _, _ => extract content source_url = []
      end
  | None => extract content source_url = []
  end.
Proof.
  unfold extract_emails. destruct (parse_html content) as [sp|]; [|done].
  destruct (_extract_mailto_links_enhanced sp source_url) as [m|]; [|done].
  cbn [mbind outcome_bind].
  assert (merged_so_far [] (∅, [])) as H0.
  { split_and!; [constructor| |constructor|by intros r ?%elem_of_nil]. simpl.
    intros v. split; [by intros ?%elem_of_empty|]. by intros (c & ?%elem_of_nil & _). }
  assert (forall c : dict, c ∈ [] -> exists r, r ∈ ([] : list dict) /\ email_of r = email_of c)
    as Hc0 by (by intros c ?%elem_of_nil).
  destruct (decide (Forall has_email m)) as [Hm|Hm].
  - destruct (add_new_emails_merges m [] (∅, []) H0 Hm Hc0) as (st1 & -> & H1 & Hc1).
    cbn [mbind outcome_bind]. simpl in H1, Hc1.
    destruct (_extract_standard_emails_enhanced content source_url) as [s|];
      [|by destruct (_extract_obfuscated_emails_enhanced content sp)].
    cbn [mbind outcome_bind].
    destruct (decide (Forall has_email s)) as [Hs|Hs].
    + destruct (add_new_emails_merges s m st1 H1 Hs Hc1) as (st2 & -> & H2 & Hc2).
      cbn [mbind outcome_bind].
      destruct (_extract_obfuscated_emails_enhanced content sp) as [o|]; [|done].
      cbn [mbind outcome_bind].
      destruct (decide (Forall has_email o)) as [Ho|Ho].
      * destruct (add_new_emails_merges o (m ++ s) st2 H2 Ho Hc2) as (st3 & -> & H3 & Hc3).
        cbn [mbind outcome_bind mret outcome_ret catch].
        rewrite <- app_assoc in H3, Hc3. destruct H3 as (Hall & _ & Hnd & Hfirst).
        split; [done|]. intros Hno. by destruct Hno.
      * rewrite (add_new_emails_raises o st2) by (by apply without_email).
        cbn [mbind outcome_bind catch]. split; [|done]. intros Hall.
        apply Forall_app in Hall as [_ Hall]. apply Forall_app in Hall as [_ Hall]. done.
    + rewrite (add_new_emails_raises s st1) by (by apply without_email).
      cbn [mbind outcome_bind catch].
      destruct (_extract_obfuscated_emails_enhanced content sp) as [o|]; [|done].
      split; [|done]. intros Hall.
      apply Forall_app in Hall as [_ Hall]. apply Forall_app in Hall as [Hall _]. done.
  - rewrite (add_new_emails_raises m (∅, [])) by (by apply without_email).
    cbn [mbind outcome_bind catch].
    destruct (_extract_standard_emails_enhanced content source_url) as [s|]; [|done].
    destruct (_extract_obfuscated_emails_enhanced content sp) as [o|]; [|done].
    split; [|done]. intros Hall. apply Forall_app in Hall as [Hall _]. done.
Qed.

End Merge.

(** *** The base64 strategy *)

Section Base64.
Context {U : Unicode}.
Variable clean_html : str -> str.
Variable b64decode : str -> option str.

(** X13.  [_extract_base64_emails] never returns an address: whatever a run
    of base64 characters decodes to, the decoded text is searched by
    [_extract_standard_emails], which accepts nothing. *)
Theorem base64_strategy_finds_nothing (content : str) :
  _extract_base64_emails clean_html b64decode content = [].
Proof.
  unfold _extract_base64_emails.
  induction (re_finditer base64_pattern content) as [|m rest IH]; [done|].
  simpl. rewrite IH, app_nil_r.
  destruct (b64decode _) as [decoded|]; [|done].
  by rewrite (BasicValidator.standard_emails_empty clean_html decoded).
Qed.

End Base64.

End ExtractionFacts.

(** ** The contact matcher: titles and companies *)

Module MatcherFacts.
Import Py Re Data Outcome ContactMatcher.

Section Matcher.
Context {U : Unicode}.

Lemma keep_valid_raising (valid : str -> outcome bool) matches kept :
  (forall x, valid x = Raised) ->
  keep_valid valid matches kept = (kept, negb (bool_decide (matches = []))).
Proof.
  intros Hv. destruct matches as [|item rest]; [done|]. simpl.
  destruct (found_strip item) as [x|]; simpl; [by rewrite Hv|done].
Qed.

Lemma find_valid_raising (valid : str -> outcome bool) patterns text kept :
  (forall x, valid x = Raised) -> find_valid valid patterns text kept = kept.
Proof.
  intros Hv. induction patterns as [|pattern rest IH]; [done|]. simpl.
  rewrite keep_valid_raising by done. by destruct (negb _).
Qed.

(** X14.  [_find_job_titles] and [_find_company_names] return the empty list
    on every text: each candidate is tested by a method the class does not
    define, the call raises, and the handler returns the list collected so
    far, which is empty. *)
Theorem title_and_company_search_find_nothing (text : str) :
  _find_job_titles text = [] /\ _find_company_names text = [].
Proof. split; by apply find_valid_raising. Qed.

End Matcher.

End MatcherFacts.

(** ** Duplicates among the addresses of a page *)

Module DuplicateFacts.
Import Py Re Data Outcome WebsiteCrawler CrawlerResults ExtractionFacts.

Section Duplicates.
Context {U : Unicode}.


Definition filled (email_data : dict) : Z :=
  match _count_filled_fields email_data with Returned n => n | Raised => 0%Z end.




(** *** The dictionary [seen] *)




(** *** The loop *)








End Duplicates.

End DuplicateFacts.

(** ** Substitution: what [re.sub] comes to on simple patterns *)

Module SubFacts.
Import Py Re ReFacts.

(** The number of leading characters in the class. *)
Fixpoint run_length (p : N -> bool) (a : str) : nat :=
  match a with
  | x :: t => if p x then S (run_length p t) else 0
  | [] => 0
  end.

Lemma run_length_le p a : (run_length p a <= length a)%nat.
Proof. induction a as [|x t IH]; simpl; [done|]. destruct (p x); simpl; lia. Qed.

(** A greedy run of one class, with nothing after it to fail, takes all the
    leading characters of the class. *)
Lemma rep_chr_greedy p : forall a b fuel lo,
  (length a < fuel)%nat ->
  rep_loop (run (Chr p)) fuel lo None (Cursor b a) [] accept =
  if (lo <=? run_length p a)%nat
  then Some (Cursor (rev (firstn (run_length p a) a) ++ b) (skipn (run_length p a) a), [])
  else None.
Proof.
  induction a as [|x t IH]; intros b [|fuel] lo Hlen; simpl in Hlen; try lia.
  - simpl. destruct lo; done.
  - cbn [rep_loop allows_more run after before run_length].
    destruct (p x) eqn:Hp.
    + cbn [after length]. rewrite (proj2 (Nat.ltb_lt _ _)) by lia.
      change (dec_hi None) with (@None nat).
      rewrite IH by lia.
      destruct (Nat.leb_spec (pred lo) (run_length p t)) as [Hle|Hgt].
      * rewrite (proj2 (Nat.leb_le lo (S (run_length p t)))) by lia.
        cbn [firstn skipn rev]. by rewrite <- app_assoc.
      * rewrite (proj2 (Nat.leb_gt lo (S (run_length p t)))) by lia.
        destruct lo; [lia|done].
    + destruct lo; done.
Qed.

Section Segments.
(** A pattern whose match at a position depends on the characters after the
    position only, takes at least one of them and captures nothing. *)
Variable r : regex.
Variable matcher : str -> option nat.
Hypothesis run_matcher : forall b a,
  run r (Cursor b a) [] accept =
  match matcher a with
  | Some n => Some (Cursor (rev (firstn n a) ++ b) (skipn n a), [])
  | None => None
  end.
Hypothesis matcher_pos : forall a n, matcher a = Some n -> (0 < n <= length a)%nat.

(** The substitution, read off the subject from left to right. *)
Fixpoint sub_spec (fuel : nat) (repl a : str) : str :=
  match fuel with
  | O => a
  | S f =>
      match a with
      | [] => []
      | x :: t =>
          match matcher a with
          | Some n => repl ++ sub_spec f repl (skipn n a)
          | None => x :: sub_spec f repl t
          end
      end
  end.

Lemma sub_go_later repl b x t ms :
  (forall m, List.hd_error ms = Some m -> (S (length b) <= m_start m)%nat) ->
  sub_go repl (rev b ++ x :: t) (length b) ms
  = x :: sub_go repl (rev b ++ x :: t) (S (length b)) ms.
Proof.
  intros Hstart.
  assert (skipn (length b) (rev b ++ x :: t) = x :: t) as Hskip.
  { rewrite <- (length_rev b). by rewrite skipn_app, skipn_all, Nat.sub_diag. }
  destruct ms as [|m rest]; cbn [sub_go].
  - rewrite Hskip. change (S (length b)) with (1 + length b)%nat.
    by rewrite <- skipn_skipn, Hskip.
  - specialize (Hstart m eq_refl). unfold slice.
    change (S (length b)) with (1 + length b)%nat.
    rewrite <- skipn_skipn, Hskip. cbn [skipn].
    replace (m_start m - length b)%nat with (S (m_start m - (1 + length b)))%nat by lia.
    done.
Qed.

Lemma sub_go_spec repl : forall fuel b a,
  (length a < fuel)%nat ->
  sub_go repl (rev b ++ a) (length b) (finditer_from r fuel b a) = sub_spec fuel repl a.
Proof using run_matcher matcher_pos.
  induction fuel as [|fuel IH]; intros b a Hlen; [lia|].
  destruct a as [|x t].
  - cbn [finditer_from scan sub_spec]. rewrite run_matcher.
    destruct (matcher []) as [n|] eqn:Hm; [apply matcher_pos in Hm; simpl in Hm; lia|].
    cbn [sub_go]. rewrite app_nil_r, <- (length_rev b). apply skipn_all.
  - cbn [sub_spec]. destruct (matcher (x :: t)) as [n|] eqn:Hm.
    + pose proof (matcher_pos _ _ Hm) as Hn.
      cbn [finditer_from scan]. rewrite run_matcher, Hm.
      unfold mk_match, pos, subject. cbn [fst snd before after m_end m_start m_string].
      assert (length (rev (firstn n (x :: t)) ++ b) = (n + length b)%nat) as He
        by (rewrite length_app, length_rev, length_firstn; lia).
      rewrite He. rewrite (proj2 (Nat.eqb_neq _ _)) by lia.
      cbn [sub_go m_start m_end]. unfold slice. rewrite Nat.sub_diag, firstn_O.
      cbn [app]. f_equal.
      assert (firstn (n + length b) (rev b ++ x :: t) = rev b ++ firstn n (x :: t)) as Hf.
      { rewrite firstn_app, length_rev.
        replace (n + length b - length b)%nat with n by lia.
        rewrite firstn_all2 by (rewrite length_rev; lia). done. }
      assert (skipn (n + length b) (rev b ++ x :: t) = skipn n (x :: t)) as Hs.
      { rewrite skipn_app, length_rev.
        replace (n + length b - length b)%nat with n by lia.
        rewrite skipn_all2 by (rewrite length_rev; lia). done. }
      rewrite Hf, Hs, rev_app_distr, rev_involutive.
      specialize (IH (rev (firstn n (x :: t)) ++ b) (skipn n (x :: t))).
      rewrite rev_app_distr, rev_involutive, <- app_assoc, firstn_skipn, He in IH.
      apply IH. rewrite length_skipn. simpl in *. lia.
    + assert (finditer_from r (S fuel) b (x :: t) = finditer_from r (S fuel) (x :: b) t) as ->.
      { cbn [finditer_from scan]. by rewrite run_matcher, Hm. }
      rewrite (finditer_from_enough r (S fuel) fuel) by (simpl in *; lia).
      rewrite sub_go_later.
      * f_equal. specialize (IH (x :: b) t). cbn [rev length] in IH.
        rewrite <- app_assoc in IH. apply IH. simpl in *. lia.
      * intros m Hhd. destruct fuel as [|fuel']; [done|]. cbn [finditer_from] in Hhd.
        destruct (scan r (x :: b) t) as [m'|] eqn:Hscan; [|done].
        injection Hhd as ->. by apply scan_span in Hscan as (_ & [? _] & _).
Qed.

Lemma re_sub_spec repl s : re_sub r repl s = sub_spec (S (length s)) repl s.
Proof using run_matcher matcher_pos.
  unfold re_sub, re_finditer. apply (sub_go_spec repl (S (length s)) [] s). lia.
Qed.

End Segments.

End SubFacts.

(** ** Phone numbers and text utilities *)

Module TextFacts.
Import Py Re Data Outcome DataValidator TextProcessor PyFacts SubFacts.

(** *** One class replaced by nothing *)

Definition chr_matcher (p : N -> bool) (a : str) : option nat :=
  match a with
  | x :: _ => if p x then Some 1%nat else None
  | [] => None
  end.

Lemma sub_spec_chr p : forall fuel s,
  (length s < fuel)%nat ->
  sub_spec (chr_matcher p) fuel [] s = List.filter (fun c => negb (p c)) s.
Proof.
  induction fuel as [|fuel IH]; intros s Hlen; [lia|].
  destruct s as [|x t]; [done|]. cbn [sub_spec chr_matcher List.filter].
  assert (length t < fuel)%nat as Ht by (simpl in Hlen; lia).
  destruct (p x); cbn [negb].
  - change (skipn 1 (x :: t)) with t. by rewrite IH.
  - by rewrite IH.
Qed.

(** [re.sub] of one character class by the empty string filters the
    subject. *)
Lemma re_sub_chr p s : re_sub (Chr p) [] s = List.filter (fun c => negb (p c)) s.
Proof.
  rewrite (re_sub_spec (Chr p) (chr_matcher p)).
  - apply sub_spec_chr. lia.
  - intros b [|x t]; simpl; [done|]. by destruct (p x).
  - intros [|x t] n; simpl; [done|]. destruct (p x); [|done]. intros [= <-]. simpl. lia.
Qed.

Lemma filter_ext_bool (p q : N -> bool) s :
  (forall c, p c = q c) -> List.filter p s = List.filter q s.
Proof. intros H. induction s as [|x t IH]; simpl; [done|]. by rewrite H, IH. Qed.

Lemma filter_filter_sub (p q : N -> bool) s :
  (forall c, p c = true -> q c = true) -> List.filter p (List.filter q s) = List.filter p s.
Proof.
  intros H. induction s as [|x t IH]; simpl; [done|].
  destruct (q x) eqn:Hq; simpl; [by rewrite IH|].
  destruct (p x) eqn:Hp; [|done]. apply H in Hp. congruence.
Qed.

(** *** Stripping *)

Lemma drop_while_split p s : exists pre, s = pre ++ drop_while p s.
Proof.
  induction s as [|x t [pre IH]]; simpl; [by exists []|].
  destruct (p x); [|by exists []]. exists (x :: pre). simpl. by rewrite <- IH.
Qed.

Lemma drop_while_head p s x t : drop_while p s = x :: t -> p x = false.
Proof.
  induction s as [|y u IH]; simpl; [done|]. destruct (p y) eqn:Hy; [done|].
  by intros [= <- <-].
Qed.

Lemma drop_while_id p s :
  (forall x t, s = x :: t -> p x = false) -> drop_while p s = s.
Proof. destruct s as [|x t]; [done|]. intros H. simpl. by rewrite (H x t eq_refl). Qed.

(** The result of a strip is a segment of the subject... *)
Lemma strip_with_segment p s : exists pre suf, s = pre ++ strip_with p s ++ suf.
Proof.
  unfold strip_with. destruct (drop_while_split p s) as [pre Hs].
  destruct (drop_while_split p (rev (drop_while p s))) as [suf Hr].
  exists pre, (rev suf). rewrite <- rev_app_distr, <- Hr, rev_involutive. exact Hs.
Qed.

(** ... that neither starts nor ends in the class: stripping it again changes
    nothing. *)
Lemma strip_with_idem p s : strip_with p (strip_with p s) = strip_with p s.
Proof.
  unfold strip_with.
  set (u := drop_while p s). set (v := drop_while p (rev u)).
  destruct (drop_while_split p (rev u)) as [pre Hpre]. fold v in Hpre.
  assert (u = rev v ++ rev pre) as Hu
    by (by rewrite <- rev_app_distr, <- Hpre, rev_involutive).
  rewrite (drop_while_id p (rev v)).
  - rewrite rev_involutive. by rewrite (drop_while_id p v) by apply (drop_while_head p (rev u)).
  - intros x t Hv. rewrite Hv in Hu. simpl in Hu. by apply (drop_while_head p s x (t ++ rev pre)).
Qed.

Lemma strip_with_Forall (P : N -> Prop) p s : Forall P s -> Forall P (strip_with p s).
Proof.
  intros H. destruct (strip_with_segment p s) as (pre & suf & Hs). rewrite Hs in H.
  apply Forall_app in H as [_ H]. by apply Forall_app in H as [H _].
Qed.

Section Phones.
Context {U : Unicode}.

(** *** [_validate_phone] *)

(** The characters [_validate_phone] keeps. *)
Definition phone_char (c : N) : bool := cls_d c || one_of "+()-" c || cls_s c.

(** X16.  A phone number accepted by [_validate_phone] is the input without
    the characters other than digits, [+], [(], [)], [-] and whitespace, and
    without the whitespace around it; it holds 7 to 15 digits and matches one
    of the two formats.  Anything that is no string is rejected. *)
Theorem validated_phone_is_the_cleaned_input (phone : value) :
  match _validate_phone phone with
  | Some cleaned =>
      exists raw, phone = VStr raw /\
        cleaned = strip (List.filter phone_char raw) /\
        Forall (fun c => phone_char c = true) cleaned /\
        strip cleaned = cleaned /\
        (7 <= count_chars cls_d cleaned <= 15)%nat /\
        Exists (fun format => re_match format cleaned <> None) phone_formats
  | None => True
  end.
Proof.
  unfold _validate_phone. destruct phone as [|raw|]; [done| |done].
  case_bool_decide; [done|]. rewrite !re_sub_chr.
  rewrite (filter_ext_bool
             (fun c => negb (negb (cls_d c || one_of "+()-" c || cls_s c))) phone_char)
    by (intros c; apply negb_involutive).
  rewrite (filter_ext_bool (fun c => negb (negb (cls_d c))) cls_d)
    by (intros c; apply negb_involutive).
  set (cleaned := strip (List.filter phone_char raw)).
  unfold len, count_chars.
  destruct (Z.ltb_spec (Z.of_nat (length (List.filter cls_d cleaned))) 7); [done|].
  destruct (Z.ltb_spec 15 (Z.of_nat (length (List.filter cls_d cleaned)))); [done|].
  cbn [orb].
  destruct (existsb _ phone_formats) eqn:Hfmt; [|done].
  exists raw. split_and!; [done|done| | |lia|lia|].
  - apply strip_with_Forall. apply Forall_forall. intros c Hc.
    by apply list_elem_of_In, filter_In in Hc as [_ Hc].
  - apply strip_with_idem.
  - apply existsb_exists in Hfmt as (format & Hin & Hm). apply Exists_exists.
    exists format. split; [by apply list_elem_of_In|]. by apply bool_decide_eq_true in Hm.
Qed.

(** *** [clean_extracted_phone] *)

Definition digit_or_plus (c : N) : bool := cls_d c || (c =? c_plus).

Lemma slices_cover (d : str) (i j : nat) :
  (i <= j)%nat -> skipn i d = slice i j d ++ skipn j d.
Proof.
  intros Hij. unfold slice.
  replace j with ((j - i) + i)%nat at 2 by lia.
  rewrite <- skipn_skipn. by rewrite firstn_skipn.
Qed.

(** X17.  [clean_extracted_phone] never changes the digits: the digits
    of its result are the digits of the input, in order.  It answers [None]
    exactly on the empty string and when the number of digits and plus signs
    together is below 7 or above 15. *)
Theorem clean_extracted_phone_keeps_the_digits (phone : str) :
  (forall c, one_of "+ ()-" c = true -> uni_isdecimal c = false) ->
  match clean_extracted_phone phone with
  | Some formatted =>
      List.filter cls_d formatted = List.filter cls_d phone /\
      (7 <= count_chars digit_or_plus phone <= 15)%nat
  | None =>
      phone = [] \/ (count_chars digit_or_plus phone < 7)%nat \/
      (15 < count_chars digit_or_plus phone)%nat
  end.
Proof.
  intros Hpunct. unfold clean_extracted_phone.
  case_bool_decide; [by left|]. rewrite re_sub_chr.
  rewrite (filter_ext_bool _ digit_or_plus) by (intros c; apply negb_involutive).
  set (d := List.filter digit_or_plus phone).
  assert (List.filter cls_d d = List.filter cls_d phone) as Hd.
  { apply filter_filter_sub. intros c Hc. unfold digit_or_plus. by rewrite Hc. }
  unfold len. change (length d) with (count_chars digit_or_plus phone).
  destruct (Z.ltb_spec (Z.of_nat (count_chars digit_or_plus phone)) 7); [right; left; lia|].
  destruct (Z.ltb_spec 15 (Z.of_nat (count_chars digit_or_plus phone))); [right; right; lia|].
  cbn [orb].
  assert (List.filter cls_d (lit "(") = [] /\ List.filter cls_d (lit ") ") = [] /\
          List.filter cls_d (lit "-") = [] /\ List.filter cls_d (lit "+") = [] /\
          List.filter cls_d (lit " ") = [])
    as (Hf1 & Hf2 & Hf3 & Hf4 & Hf5).
  { change (lit "(") with [40]. change (lit ") ") with [41; 32].
    change (lit "-") with [45]. change (lit "+") with [43]. change (lit " ") with [32].
    cbn [List.filter]. unfold cls_d. by rewrite !Hpunct by reflexivity. }
  rewrite <- Hd.
  destruct (startswith (lit "+1") d && _) eqn:Hus.
  - split; [|lia]. apply andb_true_iff in Hus as [Hsw _].
    apply PyFacts.startswith_iff in Hsw as (d' & Hsw).
    change (lit "+1 (") with (lit "+" ++ [49] ++ lit " " ++ lit "(").
    rewrite !List.filter_app, Hf1, Hf2, Hf3, Hf4, Hf5. cbn [app].
    rewrite Hsw at 4. change (lit "+1" ++ d') with (lit "+" ++ [49] ++ d').
    rewrite !List.filter_app, Hf4, app_nil_r. cbn [app]. f_equal.
    assert (d' = skipn 2 d) as Hd' by (by rewrite Hsw).
    rewrite Hd', (slices_cover d 2 5), (slices_cover d 5 8) by lia.
    by rewrite !List.filter_app.
  - destruct (Z.of_nat (count_chars digit_or_plus phone) =? 10)%Z.
    + split; [|lia]. rewrite !List.filter_app, Hf1, Hf2, Hf3. cbn [app].
      rewrite <- (firstn_skipn 3 d) at 4.
      rewrite (slices_cover d 3 6) by lia. by rewrite !List.filter_app.
    + destruct (startswith (lit "+") d) eqn:Hplus; (split; [|lia]); [|done].
      apply PyFacts.startswith_iff in Hplus as (d' & Hplus). by rewrite Hplus.
Qed.

End Phones.

(** *** [truncate_text] *)

Lemma rfind_from_bound c text : forall i last,
  (-1 <= last < i)%Z ->
  (-1 <= rfind_from c text i last < i + len text)%Z.
Proof.
  unfold len. induction text as [|x t IH]; intros i last Hl; simpl; [lia|].
  destruct (x =? c).
  - specialize (IH (i + 1)%Z i). lia.
  - specialize (IH (i + 1)%Z last). lia.
Qed.

Section Truncation.
Variable above_seven_tenths : Z -> Z -> bool.

(** X18.  For a suffix no longer than [max_length], the text
    [truncate_text] returns is at most [max_length] characters long: a text
    that fits is returned as it is, and a longer one is cut to a prefix
    followed by the suffix.  (With a longer suffix the index of the cut is
    negative, and the result can exceed the limit.) *)
Theorem truncate_text_fits (text : str) (max_length : Z) (suffix : str) :
  (len suffix <= max_length)%Z ->
  (len (truncate_text above_seven_tenths text max_length suffix) <= max_length)%Z /\
  ((len text <= max_length)%Z ->
     truncate_text above_seven_tenths text max_length suffix = text) /\
  ((max_length < len text)%Z ->
     exists n, truncate_text above_seven_tenths text max_length suffix
               = firstn n text ++ suffix).
Proof.
  intros Hsuf. unfold truncate_text.
  destruct (Z.leb_spec (len text) max_length) as [Hfit|Hlong].
  - rewrite orb_true_r. split_and!; [done|done|lia].
  - case_bool_decide as Hempty; [subst; unfold len in *; simpl in *; lia|]. cbn [orb].
    set (k := (max_length - len suffix)%Z).
    assert (0 <= k)%Z as Hk by lia.
    assert (slice_to k text = firstn (Z.to_nat k) text) as Hcut
      by (unfold slice_to; by rewrite (proj2 (Z.leb_le 0 k))).
    rewrite Hcut. set (truncated := firstn (Z.to_nat k) text).
    assert (len truncated <= k)%Z as Hlen
      by (unfold len, truncated; rewrite length_firstn; lia).
    set (last_space := rfind c_space truncated).
    assert (-1 <= last_space < len truncated)%Z as Hls
      by (pose proof (rfind_from_bound c_space truncated 0 (-1)) as Hb; unfold last_space, rfind;
          lia).
    assert (exists n, (if above_seven_tenths last_space max_length
                       then slice_to last_space truncated else truncated) = firstn n text
                      /\ (Z.of_nat n <= k)%Z) as (n & -> & Hn).
    { destruct (above_seven_tenths last_space max_length).
      - unfold slice_to. destruct (Z.leb_spec 0 last_space).
        + exists (Nat.min (Z.to_nat last_space) (Z.to_nat k)). unfold truncated.
          rewrite firstn_firstn. split; [done|]. lia.
        + exists (Nat.min (Z.to_nat (len truncated + last_space)) (Z.to_nat k)). unfold truncated.
          rewrite firstn_firstn. split; [done|]. lia.
      - exists (Z.to_nat k). split; [done|]. lia. }
    split_and!; [|lia|by exists n].
    unfold len in *. rewrite length_app, length_firstn. lia.
Qed.

End Truncation.

(** *** [normalize_whitespace] *)

(** A run of a class, as [p+] takes it. *)
Definition run_matcher_of (p : N -> bool) (a : str) : option nat :=
  match run_length p a with O => None | S n => Some (S n) end.

Lemma run_plus_chr p b a :
  run (plus (Chr p)) (Cursor b a) [] accept =
  match run_matcher_of p a with
  | Some n => Some (Cursor (rev (firstn n a) ++ b) (skipn n a), [])
  | None => None
  end.
Proof.
  change (run (plus (Chr p)) (Cursor b a) [] accept)
    with (rep_loop (run (Chr p)) (S (length a)) 1 None (Cursor b a) [] accept).
  rewrite rep_chr_greedy by lia.
  unfold run_matcher_of. by destruct (run_length p a).
Qed.

Lemma run_matcher_of_pos p a n : run_matcher_of p a = Some n -> (0 < n <= length a)%nat.
Proof.
  unfold run_matcher_of. pose proof (run_length_le p a).
  destruct (run_length p a); [done|]. intros [= <-]. lia.
Qed.

Lemma skipn_run_length p a : skipn (run_length p a) a = drop_while p a.
Proof. induction a as [|x t IH]; simpl; [done|]. by destruct (p x). Qed.

Lemma drop_while_length p a : (length (drop_while p a) <= length a)%nat.
Proof. induction a as [|x t IH]; simpl; [done|]. destruct (p x); simpl; lia. Qed.

(** Every run of the class replaced by [repl]; [in_run] tells whether the
    character before belongs to the class. *)
Fixpoint collapse (p : N -> bool) (repl : str) (in_run : bool) (s : str) : str :=
  match s with
  | [] => []
  | x :: t =>
      if p x then (if in_run then collapse p repl true t else repl ++ collapse p repl true t)
      else x :: collapse p repl false t
  end.

Lemma collapse_in_run p repl t :
  collapse p repl true t = collapse p repl false (drop_while p t).
Proof.
  induction t as [|x t IH]; [done|]. cbn [collapse drop_while].
  destruct (p x) eqn:Hx; [done|]. cbn [collapse]. by rewrite Hx.
Qed.

Lemma sub_spec_collapse p repl : forall fuel s,
  (length s < fuel)%nat ->
  sub_spec (run_matcher_of p) fuel repl s = collapse p repl false s.
Proof.
  induction fuel as [|fuel IH]; intros s Hlen; [lia|].
  destruct s as [|x t]; [done|]. cbn [sub_spec collapse].
  unfold run_matcher_of. cbn [run_length]. simpl in Hlen.
  destruct (p x).
  - cbn [skipn]. rewrite skipn_run_length, IH, collapse_in_run; [done|].
    pose proof (drop_while_length p t). lia.
  - rewrite IH; [done|lia].
Qed.

Lemma re_sub_plus_chr p repl s : re_sub (plus (Chr p)) repl s = collapse p repl false s.
Proof.
  rewrite (re_sub_spec (plus (Chr p)) (run_matcher_of p)).
  - apply sub_spec_collapse. lia.
  - apply run_plus_chr.
  - apply run_matcher_of_pos.
Qed.

(** Stripping on the right, read from the left. *)
Fixpoint rstrip_with (p : N -> bool) (s : str) : str :=
  match s with
  | [] => []
  | x :: t =>
      match rstrip_with p t with
      | [] => if p x then [] else [x]
      | r => x :: r
      end
  end.

Lemma drop_while_snoc p l x :
  drop_while p (l ++ [x]) =
  match drop_while p l with [] => drop_while p [x] | d => d ++ [x] end.
Proof.
  induction l as [|y l IH]; [done|]. cbn [app drop_while]. by destruct (p y).
Qed.

Lemma rstrip_with_rev p s : rev (drop_while p (rev s)) = rstrip_with p s.
Proof.
  induction s as [|x t IH]; [done|]. cbn [rev rstrip_with].
  rewrite drop_while_snoc, <- IH.
  destruct (drop_while p (rev t)) as [|y d] eqn:Hd.
  - simpl. by destruct (p x).
  - rewrite rev_app_distr. simpl.
    destruct (rev d ++ [y]) eqn:He; [by destruct (rev d)|done].
Qed.

Lemma strip_with_rstrip p s : strip_with p s = rstrip_with p (drop_while p s).
Proof. unfold strip_with. apply rstrip_with_rev. Qed.

Lemma rstrip_with_keep p x u : p x = false -> rstrip_with p (x :: u) = x :: rstrip_with p u.
Proof. intros Hx. cbn [rstrip_with]. rewrite Hx. by destruct (rstrip_with p u). Qed.

Lemma rstrip_with_app p c u :
  all_in (fun x => negb (p x)) c -> rstrip_with p (c ++ u) = c ++ rstrip_with p u.
Proof.
  induction c as [|x c IH]; intros Hc; [done|].
  apply Forall_cons in Hc as [Hx Hc]. apply negb_true_iff in Hx.
  cbn [app]. by rewrite rstrip_with_keep, IH.
Qed.

Section Whitespace.
Context {U : Unicode}.
Hypothesis space_isspace : uni_isspace c_space = true.

Abbreviation non_space := (fun x : N => negb (uni_isspace x)).

Lemma drop_while_collapse b s :
  drop_while uni_isspace (collapse uni_isspace [c_space] b s)
  = collapse uni_isspace [c_space] false (drop_while uni_isspace s).
Proof using space_isspace.
  revert b. induction s as [|x t IH]; intros b; [done|]. cbn [collapse drop_while].
  destruct (uni_isspace x) eqn:Hx.
  - destruct b; [apply IH|]. cbn [app drop_while]. rewrite space_isspace. apply IH.
  - cbn [drop_while collapse]. by rewrite Hx.
Qed.

(** The words [str.split] returns are not empty and hold no whitespace. *)
Definition is_word (w : str) : Prop := w <> [] /\ all_in non_space w.

Lemma rev_nil_inv (w : str) : rev w = [] -> w = [].
Proof. intros H. apply (f_equal (@rev N)) in H. by rewrite rev_involutive in H. Qed.

Lemma rev_is_word cur : cur <> [] -> all_in non_space cur -> is_word (rev cur).
Proof.
  intros Hne Hcur. split; [by intros ?%rev_nil_inv|]. by apply List.Forall_rev.
Qed.

Lemma words_go_words : forall s cur,
  all_in non_space cur -> Forall is_word (words_go cur s).
Proof.
  induction s as [|x t IH]; intros cur Hcur; cbn [words_go].
  - destruct cur as [|c cur']; [constructor|]. constructor; [|constructor].
    by apply rev_is_word.
  - destruct (uni_isspace x) eqn:Hx.
    + destruct cur as [|c cur']; [by apply IH|]. constructor; [|apply IH; constructor].
      by apply rev_is_word.
    + apply IH. constructor; [by rewrite Hx|done].
Qed.

Lemma join_words_nil (ws : list str) :
  Forall is_word ws -> join [c_space] ws = [] -> ws = [].
Proof.
  destruct ws as [|w ws]; [done|]. intros Hw. apply Forall_cons in Hw as [[Hne _] _].
  cbn [join]. destruct ws; [done|]. by destruct w.
Qed.

Lemma join_words_collapse : forall s,
  join [c_space] (words_go [] s) = rstrip_with uni_isspace (collapse uni_isspace [c_space] true s) /\
  (forall cur, cur <> [] -> all_in non_space cur ->
     join [c_space] (words_go cur s)
     = rev cur ++ rstrip_with uni_isspace (collapse uni_isspace [c_space] false s)).
Proof using space_isspace.
  induction s as [|x t [IHa IHb]]; (split; [|intros cur Hne Hcur]); cbn [words_go collapse].
  - done.
  - destruct cur; [done|]. cbn [join rstrip_with]. by rewrite app_nil_r.
  - destruct (uni_isspace x) eqn:Hx; [done|].
    rewrite (IHb [x]); [|done|by constructor; [rewrite Hx|]].
    by rewrite rstrip_with_keep.
  - destruct (uni_isspace x) eqn:Hx.
    + destruct cur as [|c cur']; [done|].
      pose proof (words_go_words t [] (List.Forall_nil _)) as Hw.
      cbn [app rstrip_with]. rewrite <- IHa, space_isspace.
      destruct (words_go [] t) as [|w ws] eqn:Hws; [by rewrite app_nil_r|].
      change (join [c_space] (rev (c :: cur') :: w :: ws))
        with (rev (c :: cur') ++ [c_space] ++ join [c_space] (w :: ws)).
      destruct (join [c_space] (w :: ws)) eqn:Hj; [by apply join_words_nil in Hj|done].
    + rewrite (IHb (x :: cur)); [|done|by constructor; [rewrite Hx|]].
      rewrite rstrip_with_keep by done. cbn [rev]. by rewrite <- app_assoc.
Qed.

Lemma words_go_app : forall w cur s,
  all_in non_space w -> words_go cur (w ++ s) = words_go (rev w ++ cur) s.
Proof.
  induction w as [|x w IH]; intros cur s Hw; [done|].
  apply Forall_cons in Hw as [Hx Hw]. apply negb_true_iff in Hx.
  cbn [app words_go]. rewrite Hx, IH by done. cbn [rev]. by rewrite <- app_assoc.
Qed.

Lemma words_join (ws : list str) :
  Forall is_word ws -> words (join [c_space] ws) = ws.
Proof using space_isspace.
  unfold words. induction ws as [|w ws IH]; intros Hws; [done|].
  apply Forall_cons in Hws as [[Hne Hw] Hws]. cbn [join].
  destruct ws as [|w' ws'].
  - rewrite <- (app_nil_r w) at 1. rewrite words_go_app by done. cbn [words_go].
    rewrite app_nil_r. destruct (rev w) eqn:Hr; [by apply rev_nil_inv in Hr|].
    by rewrite <- Hr, rev_involutive.
  - rewrite words_go_app by done. cbn [app words_go]. rewrite space_isspace, app_nil_r.
    destruct (rev w) eqn:Hr; [by apply rev_nil_inv in Hr|].
    rewrite <- Hr, rev_involutive. f_equal. by apply IH.
Qed.

End Whitespace.

Section Normalization.
Context {U : Unicode}.

(** X19.  Where the space is a whitespace character (as it is in
    Unicode), [normalize_whitespace] returns the words of the text, in the
    sense of [str.split()], joined by single spaces; so normalizing again
    changes nothing. *)
Theorem normalize_whitespace_joins_the_words (text : str) :
  uni_isspace c_space = true ->
  normalize_whitespace text = join [c_space] (words text) /\
  normalize_whitespace (normalize_whitespace text) = normalize_whitespace text.
Proof.
  intros space_isspace.
  assert (forall t, normalize_whitespace t = join [c_space] (words t)) as Hn.
  { intros t. unfold normalize_whitespace. case_bool_decide as Ht; [by subst|].
    unfold whitespace_pattern, strip, cls_s, words.
    rewrite re_sub_plus_chr, strip_with_rstrip, (drop_while_collapse space_isspace).
    rewrite <- collapse_in_run. symmetry. apply (join_words_collapse space_isspace). }
  split; [apply Hn|]. rewrite !Hn. f_equal. apply (words_join space_isspace).
  apply words_go_words. constructor.
Qed.

End Normalization.

End TextFacts.

(** ** Names inferred from addresses *)

Module InferenceFacts.
Import Py Re Data WebsiteCrawler ReFacts PyFacts PatternFacts.

(** The third and the fourth pattern of [infer_name_from_email]. *)
Definition initial_pattern : regex := seq [Bol; Grp 1 az; Grp 2 (at_least 3 az); Eol].
Definition joined_pattern : regex :=
  seq [Bol; Grp 1 (between 3 8 az); Grp 2 (at_least 3 az); Eol].

Lemma joined_is_initial s :
  re_match joined_pattern s <> None -> re_match initial_pattern s <> None.
Proof.
  rewrite !re_match_iff. unfold joined_pattern, initial_pattern, between, at_least, az.
  cbn [seq Matches].
  intros (c' & c1 & [_ <-] & c2 & H1 & c3 & H2 & H3).
  apply Matches_Rep_Chr in H1 as (w1 & a1 & Hw1 & _ & Hall1 & -> & ->).
  apply Matches_Rep_Chr in H2 as (w2 & tl & Hw2 & _ & Hall2 & -> & ->).
  destruct H3 as [Htl <-]. cbn [after] in Htl.
  destruct w1 as [|x w1]; [simpl in Hw1; lia|].
  apply Forall_cons in Hall1 as [Hx Hall1].
  eexists. eexists. split; [by split|].
  eexists. split; [apply Matches_Chr; by exists x, (w1 ++ w2 ++ tl)|].
  eexists. split.
  - apply Matches_Rep_Chr. exists (w1 ++ w2), tl.
    split_and!; [rewrite length_app; simpl in Hw1; lia|exact I|by apply all_in_app|
                 by rewrite <- app_assoc|reflexivity].
  - by split.
Qed.

(** A pattern with a separator matches no string of lower-case letters. *)
Lemma separated_needs_separator (x : N) s :
  re_match (seq [Bol; Grp 1 (plus az); chr x; Grp 2 (plus az); Eol]) s <> None -> In x s.
Proof.
  rewrite re_match_iff. unfold plus, az. cbn [seq Matches].
  intros (c' & c1 & [_ <-] & c2 & H1 & c3 & H2 & _).
  apply Matches_Rep_Chr in H1 as (w1 & a1 & _ & _ & _ & -> & ->).
  apply Matches_chr in H2 as (a2 & -> & _).
  apply in_or_app. right. by left.
Qed.

(** A greedy run of one class that reaches a position the continuation
    accepts returns what the continuation returns there. *)
Lemma rep_chr_greedy_then p (k : cont) cs res : forall a b fuel lo,
  (length a < fuel)%nat ->
  (lo <= SubFacts.run_length p a)%nat ->
  k (Cursor (rev (firstn (SubFacts.run_length p a) a) ++ b)
            (skipn (SubFacts.run_length p a) a)) cs = Some res ->
  rep_loop (run (Chr p)) fuel lo None (Cursor b a) cs k = Some res.
Proof.
  induction a as [|x t IH]; intros b [|fuel] lo Hlen Hlo Hk; simpl in Hlen; try lia.
  - simpl in *. assert (lo = 0)%nat as -> by lia. done.
  - cbn [rep_loop allows_more run after before]. cbn [SubFacts.run_length] in Hlo, Hk.
    destruct (p x) eqn:Hp.
    + cbn [after length]. rewrite (proj2 (Nat.ltb_lt _ _)) by lia.
      change (dec_hi None) with (@None nat).
      erewrite IH; [done|lia|lia|].
      cbn [firstn skipn rev] in Hk. by rewrite <- app_assoc in Hk.
    + assert (lo = 0)%nat as -> by lia. done.
Qed.

Lemma run_length_all p w : all_in p w -> SubFacts.run_length p w = length w.
Proof.
  induction w as [|x w IH]; intros Hw; [done|].
  apply Forall_cons in Hw as [Hx Hw]. simpl. by rewrite Hx, IH.
Qed.

(** What the third pattern captures in four or more lower-case letters. *)
Lemma initial_pattern_groups x t :
  all_in is_ascii_lower (x :: t) -> (3 <= length t)%nat ->
  exists m, re_match initial_pattern (x :: t) = Some m /\ group 1 m = [x] /\ group 2 m = t.
Proof.
  intros Hall Hlen. apply Forall_cons in Hall as [Hx Ht].
  unfold re_match, initial_pattern, at_least, az. cbn [seq run before after].
  rewrite Hx. unfold pos at 1 2. cbn [before length].
  erewrite (rep_chr_greedy_then is_ascii_lower); cycle 1.
  - lia.
  - rewrite run_length_all by done. exact Hlen.
  - rewrite run_length_all by done. rewrite firstn_all, skipn_all. cbn [after]. reflexivity.
  - eexists. split; [reflexivity|].
    unfold group, mk_match, subject, pos.
    cbn [fst snd before after m_caps m_string lookup_cap Nat.eqb rev app length].
    rewrite length_app, length_rev. cbn [length].
    unfold slice. cbn [skipn firstn Nat.sub]. split; [done|].
    replace (length t + 1 - 1)%nat with (length t) by lia. by rewrite firstn_all.
Qed.

Lemma not_Some_None {A : Type} (o : option A) : ~ o <> None -> o = None.
Proof. destruct o; [intros H; by destruct H|done]. Qed.

Lemma infer_from_next {U : Unicode} pattern rest username :
  re_match pattern (lower username) = None ->
  infer_from (pattern :: rest) username = infer_from rest username.
Proof. intros H. cbn [infer_from]. by rewrite H. Qed.

(** X20.  The fourth pattern of [infer_name_from_email]
    ("firstnamelastname") is never used: every string it matches is matched
    by the third one ("firstinitiallastname"), which is tried before.  So a
    user name that is four or more lower-case letters once lower-cased comes
    out as its first letter, taken as an initial, and the rest: never as a
    first and a last name. *)
Theorem joined_name_pattern_is_never_used {U : Unicode} :
  (forall username,
     infer_from infer_patterns username = infer_from (firstn 3 infer_patterns) username) /\
  (forall email x t,
     lower (List.hd [] (split c_at email)) = x :: t ->
     all_in is_ascii_lower (x :: t) -> (3 <= length t)%nat ->
     infer_name_from_email email =
       if (len (capitalize [x]) =? 1)%Z then capitalize [x] ++ lit ". " ++ capitalize t
       else capitalize [x] ++ lit " " ++ capitalize t).
Proof.
  split.
  - intros username. unfold infer_patterns. cbn [firstn infer_from].
    destruct (re_match _ (lower username)); [done|].
    destruct (re_match _ (lower username)); [done|].
    fold initial_pattern joined_pattern.
    destruct (re_match initial_pattern (lower username)) eqn:H3; [done|].
    destruct (re_match joined_pattern (lower username)) eqn:H4; [|done].
    exfalso. apply (joined_is_initial (lower username)); [by rewrite H4|done].
  - intros email x t Hlow Hall Hlen. unfold infer_name_from_email, infer_patterns.
    rewrite infer_from_next; cycle 1.
    { rewrite Hlow. apply not_Some_None. intros H%separated_needs_separator.
      by apply (all_in_not_in is_ascii_lower c_dot (x :: t)). }
    rewrite infer_from_next; cycle 1.
    { rewrite Hlow. apply not_Some_None. intros H%separated_needs_separator.
      by apply (all_in_not_in is_ascii_lower c_underscore (x :: t)). }
    cbn [infer_from]. rewrite Hlow. fold initial_pattern.
    destruct (initial_pattern_groups x t Hall Hlen) as (m & -> & -> & ->).
    by destruct (len (capitalize [x]) =? 1)%Z.
Qed.

End InferenceFacts.

(** ** Export: what a row of the CSV file holds *)

Module ExportFacts.
Import Py Data ResultExporter.

(** Replacing one character by another maps over the string. *)
Lemma replace_fuel_char c d : forall s fuel,
  (length s < fuel)%nat ->
  replace_fuel fuel [c] [d] s = map (fun x => if x =? c then d else x) s.
Proof.
  induction s as [|x t IH]; intros [|fuel] Hlen; simpl in Hlen; try lia; [done|].
  cbn [replace_fuel startswith length skipn map]. rewrite andb_true_r, (N.eqb_sym c x).
  destruct (x =? c); cbn [app]; by rewrite IH by lia.
Qed.

Lemma replace_char c d s : replace [c] [d] s = map (fun x => if x =? c then d else x) s.
Proof. unfold replace. apply replace_fuel_char. lia. Qed.

Lemma replace_char_gone c d s : c <> d -> ~ In c (replace [c] [d] s).
Proof.
  intros Hcd. rewrite replace_char. intros (x & Hx & _)%in_map_iff.
  destruct (N.eqb_spec x c); congruence.
Qed.

Lemma replace_char_other c d e s : e <> d -> ~ In e s -> ~ In e (replace [c] [d] s).
Proof.
  intros Hed He. rewrite replace_char. intros (x & Hx & Hin)%in_map_iff.
  destruct (N.eqb_spec x c); congruence.
Qed.

Lemma replace_char_absent c d s : ~ In c s -> replace [c] [d] s = s.
Proof.
  intros Hc. rewrite replace_char. rewrite <- (map_id s) at 2. apply map_ext_in.
  intros x Hx. destruct (N.eqb_spec x c); congruence.
Qed.

Lemma firstn_In_inv (e : N) n s : ~ In e s -> ~ In e (firstn n s).
Proof.
  intros He Hin. apply He. rewrite <- (firstn_skipn n s). apply in_or_app. by left.
Qed.

(** A cleaned string holds no line break and at most 1000 characters. *)
Definition one_line (x : str) : Prop :=
  ~ In c_nl x /\ ~ In 13 x /\ (length x <= 1000)%nat.

Lemma clean_value_one_line x :
  one_line (firstn 1000 (replace [13] (lit " ") (replace [c_nl] (lit " ") x))).
Proof.
  change (lit " ") with [c_space]. split_and!.
  - apply firstn_In_inv, replace_char_other; [done|]. by apply replace_char_gone.
  - apply firstn_In_inv. by apply replace_char_gone.
  - rewrite length_firstn. lia.
Qed.

Lemma clean_value_idem v : clean_value (clean_value v) = clean_value v.
Proof.
  destruct v as [|x|q]; [done| |done]. cbn [clean_value]. f_equal.
  destruct (clean_value_one_line x) as (Hnl & Hcr & Hlen).
  change (lit " ") with [c_space] in *.
  rewrite (replace_char_absent c_nl) by done. rewrite (replace_char_absent 13) by done.
  by rewrite firstn_all2.
Qed.

(** A line break becomes a space. *)
Definition unbreak (c : N) : N := if (c =? c_nl) || (c =? 13) then c_space else c.

Lemma clean_value_string raw :
  clean_value (VStr raw) = VStr (firstn 1000 (map unbreak raw)).
Proof.
  cbn [clean_value]. change (lit " ") with [c_space].
  rewrite !replace_char, map_map. do 2 f_equal. apply map_ext. intros c. unfold unbreak.
  destruct (N.eqb_spec c c_nl) as [->|Hnl]; [done|]. cbn [orb].
  by destruct (N.eqb_spec c 13).
Qed.

(** X21.  A row [_clean_contact_for_export] prepares has the keys of the
    contact: [None] has become the empty string, a number is what it was, and
    a string is its first 1000 characters with every line feed and carriage
    return turned into a space, so that it holds no line break and at most
    1000 characters.  Cleaning a cleaned row changes nothing. *)
Theorem exported_strings_fit_one_line (contact : dict) :
  (forall key,
     match contact !! key with
     | None => _clean_contact_for_export contact !! key = None
     | Some VNone => _clean_contact_for_export contact !! key = Some (VStr [])
     | Some (VNum q) => _clean_contact_for_export contact !! key = Some (VNum q)
     | Some (VStr raw) =>
         _clean_contact_for_export contact !! key
         = Some (VStr (firstn 1000 (map unbreak raw))) /\
         one_line (firstn 1000 (map unbreak raw))
     end) /\
  _clean_contact_for_export (_clean_contact_for_export contact)
  = _clean_contact_for_export contact.
Proof.
  split.
  - intros key. unfold _clean_contact_for_export. rewrite lookup_fmap.
    destruct (contact !! key) as [[|raw|q]|]; cbn [fmap option_fmap option_map]; try done.
    rewrite clean_value_string. split; [done|].
    pose proof (clean_value_one_line raw) as Hline.
    pose proof (clean_value_string raw) as Hs. cbn [clean_value] in Hs.
    injection Hs as Hs. by rewrite Hs in Hline.
  - unfold _clean_contact_for_export. rewrite <- map_fmap_compose.
    apply map_fmap_ext. intros key v _. apply clean_value_idem.
Qed.

End ExportFacts.

(** ** Runs on the sample site and on sample records *)

Module SampleRuns.
Import Py Re Data Outcome WebsiteCrawler DataValidator TextProcessor SampleSite.
Import PyFacts CrawlFacts CrawlRuns FrontierFacts ValidatorLaws TextFacts InferenceFacts.

(** The site as the only allowed domain, and another host excluded. *)
Definition listed_config : Config :=
  with_lists (Some [site_host]) (Some [lit "other.example"]).

Lemma crawl_fetches_only_admitted_urls_witness :
  queued_urls new_crawler = ∅ /\
  match crawl_website (U := basic_latin) (W := sample_web) listed_config new_crawler page_a,
        urlparse (Web := sample_web) page_a with
  | Returned (st, _), Returned parsed =>
      forall ev url, In ev (trace st) -> In url (urls_of ev) ->
        url = page_a \/
        admissible (U := basic_latin) (W := sample_web) listed_config (netloc parsed) url
  | Raised, Raised => True
  | _, _ => False
  end.
Proof.
  split; [reflexivity|].
  apply (crawl_fetches_only_admitted_urls (U := basic_latin) (W := sample_web)
           listed_config new_crawler page_a).
  reflexivity.
Defined.

(** A page of the only allowed domain is admissible; a page of the only
    excluded domain is not. *)
Lemma admissible_reads_the_lists :
  admissible (U := basic_latin) (W := sample_web) listed_config site_host in_site /\
  ~ admissible (U := basic_latin) (W := sample_web) (with_lists None (Some [site_host]))
      site_host in_site.
Proof.
  split.
  - eexists. split; [reflexivity|]. split_and!.
    + reflexivity.
    + intros allowed [= <-]. by left.
    + intros excluded [= <-]. by intros [[=]|[]%elem_of_nil]%elem_of_cons.
    + intros ext Hin.
      repeat (apply elem_of_cons in Hin as [->|Hin]; [reflexivity|]).
      by apply elem_of_nil in Hin.
  - intros (parsed & Hparse & Hhost & _ & Hexcl & _).
    apply (Hexcl [site_host] eq_refl). rewrite Hhost. by left.
Qed.

Lemma start_url_is_crawled_unchecked_witness :
  queued_urls new_crawler = ∅ /\
  match crawl_website (U := basic_latin) (W := sample_web) sample_config new_crawler page_a with
  | Returned (st, _) =>
      (In (EvCrawl page_a 0) (trace st) <->
       (0 < max_depth sample_config)%Z /\ (pages new_crawler < max_pages sample_config)%Z) /\
      (~ ((0 < max_depth sample_config)%Z /\ (pages new_crawler < max_pages sample_config)%Z) ->
       trace st = [])
  | Raised => urlparse (Web := sample_web) page_a = Raised
  end.
Proof.
  split; [reflexivity|].
  apply (start_url_is_crawled_unchecked (U := basic_latin) (W := sample_web)
           sample_config new_crawler page_a).
  reflexivity.
Defined.

(** The first call for page [a] loads robots.txt of the host; the call for
    page [b] of the same host finds it in the cache. *)
Lemma robots_txt_is_loaded_once_witness :
  exists rp self',
    _get_robots_parser (W := sample_web) new_crawler page_a = Returned (rp, self') /\
    _get_robots_parser (W := sample_web) self' page_b = Returned (rp, self').
Proof.
  eexists. eexists. split; [reflexivity|].
  eapply (robots_txt_is_loaded_once (W := sample_web) sample_config new_crawler _ page_a page_b).
  - reflexivity.
  - reflexivity.
  - reflexivity.
  - reflexivity.
Defined.

Definition listed_contact : dict :=
  list_to_map [("email"%string, VStr (lit " Ann@Lee.org "))].

Lemma validated_addresses_are_well_formed_witness :
  exists r,
    r ∈ validate_contacts (U := basic_latin) false None [listed_contact] /\
    exists email, r !! "email"%string = Some (VStr email) /\
      re_match basic_format email <> None /\
      any_search invalid_email_patterns email = false.
Proof.
  remember (validate_contacts (U := basic_latin) false None [listed_contact]) as out eqn:Hrun.
  destruct out as [|r rest]; [vm_compute in Hrun; discriminate|].
  exists r. split; [left|].
  assert (r ∈ validate_contacts (U := basic_latin) false None [listed_contact]) as Hr
    by (rewrite <- Hrun; left).
  exact (proj1 (validated_addresses_are_well_formed (U := basic_latin) false None
                  [listed_contact] r (or_introl eq_refl) Hr)).
Defined.

Lemma basic_latin_punctuation :
  forall c, one_of "+ ()-" c = true -> uni_isdecimal (Unicode := basic_latin) c = false.
Proof.
  intros c Hc. apply existsb_exists in Hc as (x & Hx & Heq).
  apply N.eqb_eq in Heq as ->.
  repeat (destruct Hx as [<-|Hx]; [reflexivity|]). destruct Hx.
Qed.

Lemma clean_extracted_phone_keeps_the_digits_witness :
  (forall c, one_of "+ ()-" c = true -> uni_isdecimal (Unicode := basic_latin) c = false) /\
  match clean_extracted_phone (U := basic_latin) (lit "555.123.4567") with
  | Some formatted =>
      List.filter (cls_d (U := basic_latin)) formatted
      = List.filter (cls_d (U := basic_latin)) (lit "555.123.4567") /\
      (7 <= count_chars (digit_or_plus (U := basic_latin)) (lit "555.123.4567") <= 15)%nat
  | None =>
      lit "555.123.4567" = [] \/
      (count_chars (digit_or_plus (U := basic_latin)) (lit "555.123.4567") < 7)%nat \/
      (15 < count_chars (digit_or_plus (U := basic_latin)) (lit "555.123.4567"))%nat
  end.
Proof.
  split; [exact basic_latin_punctuation|].
  exact (clean_extracted_phone_keeps_the_digits (U := basic_latin) (lit "555.123.4567")
           basic_latin_punctuation).
Defined.

Lemma truncate_text_fits_witness :
  (len (lit "...") <= 12)%Z /\
  (len (truncate_text seven_tenths (lit "one two three four") 12 (lit "...")) <= 12)%Z.
Proof.
  assert (len (lit "...") <= 12)%Z as H by (vm_compute; discriminate).
  split; [exact H|].
  exact (proj1 (truncate_text_fits seven_tenths (lit "one two three four") 12 (lit "...") H)).
Defined.

Lemma normalize_whitespace_joins_the_words_witness :
  uni_isspace (Unicode := basic_latin) c_space = true /\
  normalize_whitespace (U := basic_latin) (lit "  Ann   Lee ") = lit "Ann Lee".
Proof.
  split; [reflexivity|].
  exact (proj1 (normalize_whitespace_joins_the_words (U := basic_latin) (lit "  Ann   Lee ")
                  eq_refl)).
Defined.

(** The address of John Smith. *)
Lemma joined_name_pattern_is_never_used_witness :
  infer_name_from_email (U := basic_latin) (lit "johnsmith@site.example") = lit "J. Ohnsmith".
Proof.
  assert (all_in is_ascii_lower (lit "johnsmith")) as Hall by (repeat constructor).
  assert (3 <= length (lit "ohnsmith"))%nat as Hlen by (simpl; lia).
  exact (proj2 (joined_name_pattern_is_never_used (U := basic_latin))
           (lit "johnsmith@site.example") 106%N (lit "ohnsmith") eq_refl Hall Hlen).
Defined.

End SampleRuns.
